(** * Walking-bass generation of [baseline.py]: model and properties

    The development follows [baseline.py] function by function:
    [pc_to_midi_near], [notes_overlapping], [chord_pitch_classes],
    [avg_simultaneity], [scale_instrument_velocity],
    [effective_note_density], [add_bassline], [retarget_melody_to_sax],
    [slugify] and [parse_toc_titles].

    Conventions of the embedding.
    - Python integers (pitches, velocities, indices, numbers of samples)
      are [Z].
    - Times are binary64 floats in the program.  The development has two
      levels.  The first models times by rationals [Q]: comparisons are
      those of the program and arithmetic is exact.  It carries the
      properties that depend on the order of times only.  The second, the
      module [Binary64], is the same program with times as binary64
      numbers and every operation rounded, through the executable IEEE
      specification [SpecFloat]; it carries the properties that name the
      values the program computes: the boundaries of the subdivided grid,
      the end of a bass note, the score of [avg_simultaneity].
    - The float that is rounded to an integer, the rescaled velocity of
      [scale_instrument_velocity], is computed in binary64 at both levels.
    - Track names, titles and the text of the table of contents are
      strings of code points below 256; [str.lower] lowers the letters A-Z
      and the capital letters of Latin-1, as Python does on these.
    - An exception raised by the program is a value [Raise e] of the
      [result] type; everything else returns [Ok].
    - [pretty_midi] and [numpy] are libraries outside the repository.  What
      [PrettyMIDI.get_beats] and [get_downbeats] return is a field of the
      score record.  At the first level [np.linspace] and [np.arange] are
      the exact values of their documentation; in [Binary64] they are
      computed as numpy computes them. *)

From Equations Require Import Equations.
From Stdlib Require Import String Ascii.
From Stdlib Require Import ZArith QArith Qround List Bool Lia Lqa.
From Stdlib Require Import Sorting.Sorted Floats.SpecFloat.
Import ListNotations.

Open Scope Z_scope.

(** ** Exceptions *)

Inductive PyError : Type :=
| IndexError
| ZeroDivisionError
| ValueError
| OverflowError.

Inductive result (A : Type) : Type :=
| Ok (a : A)
| Raise (e : PyError).
Arguments Ok {A} a.
Arguments Raise {A} e.

Definition bind {A B} (m : result A) (k : A -> result B) : result B :=
  match m with
  | Ok a => k a
  | Raise e => Raise e
  end.

Notation "x <- m ;; k" := (bind m (fun x => k))
  (at level 61, m at next level, right associativity).

(** ** Data model *)

Record Note : Type := mkNote {
  velocity : Z;
  pitch : Z;
  start : Q;
  end_ : Q
}.

Record Instrument : Type := mkInstrument {
  program : Z;
  name : string;
  notes : list Note
}.

Record TimeSignature : Type := mkTimeSignature {
  numerator : Z;
  denominator : Z;
  time : Q
}.

Record PrettyMIDI : Type := mkPrettyMIDI {
  instruments : list Instrument;
  time_signature_changes : list TimeSignature;
  get_beats : list Q;
  get_downbeats : list Q
}.

(** ** Constants *)

Definition BASS_PROGRAM : Z := 33.
Definition VEL : Z := 85.
Definition C1 : Z := 24.
Definition C3 : Z := 48.
Definition NOTE_DENSITY : Z := 1.

(** ** Comparisons on times *)

Definition Qltb (x y : Q) : bool := negb (Qle_bool y x).

(** ** Range Projector: [pc_to_midi_near] *)

(** [min(candidates, key=...)]: the first element with the least key.
    The candidate list of the program is never empty: the scan starts from
    its head [best]. *)
Fixpoint min_by_key (key : Z -> Z) (best : Z) (l : list Z) : Z :=
  match l with
  | [] => best
  | m :: l' => min_by_key key (if key m <? key best then m else best) l'
  end.

(** [[pc + 12 * octv for octv in range(0, 10)]] *)
Definition candidates (pc : Z) : list Z :=
  map (fun octv => pc + 12 * Z.of_nat octv) (seq 0 10).

Definition gap_below (chosen : Z) : nat := Z.to_nat (C1 - chosen).
Definition gap_above (chosen : Z) : nat := Z.to_nat (chosen - C3).

(** [while chosen < C1: chosen += 12] *)
Equations? raise_into_range (chosen : Z) : Z by wf (gap_below chosen) lt :=
  raise_into_range chosen with Z_lt_dec chosen C1 => {
    | left _ := raise_into_range (chosen + 12);
    | right _ := chosen }.
Proof. clear raise_into_range. unfold gap_below, C1 in *. lia. Qed.

(** [while chosen > C3: chosen -= 12] *)
Equations? lower_into_range (chosen : Z) : Z by wf (gap_above chosen) lt :=
  lower_into_range chosen with Z_gt_dec chosen C3 => {
    | left _ := lower_into_range (chosen - 12);
    | right _ := chosen }.
Proof. clear lower_into_range. unfold gap_above, C3 in *. lia. Qed.

Definition pc_to_midi_near (pc : Z) (ref_midi : option Z) : Z :=
  let base := match ref_midi with None => 36 | Some r => r end in
  let chosen :=
    match candidates pc with
    | [] => 0
    | m :: l => min_by_key (fun m => Z.abs (m - base)) m l
    end in
  lower_into_range (raise_into_range chosen).

(** ** Harmony Extractor: [notes_overlapping], [chord_pitch_classes] *)

Definition overlaps (t0 t1 : Q) (n : Note) : bool :=
  Qltb (start n) t1 && Qltb t0 (end_ n).

Definition notes_overlapping (instrument : Instrument) (t0 t1 : Q) : list Note :=
  filter (overlaps t0 t1) (notes instrument).

(** [sorted] on integers, as an insertion sort. *)
Fixpoint insert_sorted (x : Z) (l : list Z) : list Z :=
  match l with
  | [] => [x]
  | y :: l' => if x <=? y then x :: l else y :: insert_sorted x l'
  end.

Definition sorted (l : list Z) : list Z := fold_right insert_sorted [] l.

(** [sorted({n.pitch % 12 for n in notes})] *)
Definition chord_pitch_classes (ns : list Note) : list Z :=
  sorted (nodup Z.eq_dec (map (fun n => pitch n mod 12) ns)).

(** ** numpy *)

(** [np.linspace(start, stop, num)] in exact arithmetic: [num] evenly
    spaced samples over the closed interval, sample [i] being
    [i * step + start] with [step = (stop - start) / (num - 1)] and the last
    one [stop] itself.  The rounded samples are [Binary64.linspace]. *)
Definition linspace (start stop : Q) (num : nat) : list Q :=
  match num with
  | O => []
  | S O => [start]
  | S div =>
      let step := ((stop - start) / inject_Z (Z.of_nat div))%Q in
      map (fun i => (inject_Z (Z.of_nat i) * step + start)%Q) (seq 0 div) ++ [stop]
  end.

(** [np.arange(start, stop, step)] in exact arithmetic:
    [ceil((stop - start) / step)] values [start + i * step] of the
    half-open interval.  The rounded values, and the length numpy computes
    from the rounded quotient, are [Binary64.arange]. *)
Definition arange (start stop step : Q) : list Q :=
  map (fun i => (start + inject_Z (Z.of_nat i) * step)%Q)
      (seq 0 (Z.to_nat (Qceiling ((stop - start) / step)))).

(** ** Python built-ins *)

(** [min] and [max] of a non-empty sequence: the first extremal element. *)
Definition py_min (x : Q) (l : list Q) : Q :=
  fold_left (fun best y => if Qltb y best then y else best) l x.

Definition py_max (x : Q) (l : list Q) : Q :=
  fold_left (fun best y => if Qltb best y then y else best) l x.

(** [l[i]] with Python's negative indices. *)
Definition py_getitem {A} (l : list A) (i : Z) : result A :=
  let n := Z.of_nat (length l) in
  let j := if i <? 0 then i + n else i in
  if (0 <=? j) && (j <? n) then
    match nth_error l (Z.to_nat j) with
    | Some x => Ok x
    | None => Raise IndexError
    end
  else Raise IndexError.

(** The consecutive pairs [(l[i], l[i+1])] for [i in range(len(l) - 1)]. *)
Fixpoint windows (l : list Q) : list (Q * Q) :=
  match l with
  | [] => []
  | a :: l' =>
      match l' with
      | [] => []
      | b :: _ => (a, b) :: windows l'
      end
  end.

(** ** Track Selector helper: [avg_simultaneity] *)

Definition earliest_start (ns : list Note) : result Q :=
  match ns with
  | [] => Raise ValueError
  | n :: ns' => Ok (py_min (start n) (map start ns'))
  end.

Definition latest_end (ns : list Note) : result Q :=
  match ns with
  | [] => Raise ValueError
  | n :: ns' => Ok (py_max (end_ n) (map end_ ns'))
  end.

(** [sum(1 for n in inst.notes if n.start < b and n.end > a)] *)
Definition count_overlapping (ns : list Note) (a b : Q) : Z :=
  Z.of_nat (length (filter (overlaps a b) ns)).

Definition py_truediv (x : Q) (d : Z) : result Q :=
  if d =? 0 then Raise ZeroDivisionError else Ok (x / inject_Z d)%Q.

(** [np.linspace] called with an integer: a negative number of samples
    raises. *)
Definition np_linspace (start stop : Q) (num : Z) : result (list Q) :=
  if num <? 0 then Raise ValueError else Ok (linspace start stop (Z.to_nat num)).

Definition avg_simultaneity (inst : Instrument) (slices : Z) : result Q :=
  match notes inst with
  | [] => Ok 0%Q
  | _ :: _ =>
      t0 <- earliest_start (notes inst);;
      t1 <- latest_end (notes inst);;
      if Qle_bool t1 t0 then Ok 0%Q
      else
        times <- np_linspace t0 t1 slices;;
        let tot :=
          fold_left
            (fun tot ab => (tot + inject_Z (count_overlapping (notes inst) (fst ab) (snd ab)))%Q)
            (windows times) 0%Q in
        py_truediv tot (Z.of_nat (length times) - 1)
  end.

Definition default_slices : Z := 512.

(** ** Binary64 arithmetic of [scale_instrument_velocity] *)

Definition prec : Z := 53.
Definition emax : Z := 1024.

(** The binary64 number written [0.7] in the program. *)
Definition CHORD_VEL_SCALE : spec_float := S754_finite false 6305039478318694 (-53).

(** Conversion of a Python integer to a float; too large an integer raises. *)
Definition float_of_int (v : Z) : result spec_float :=
  match binary_normalize prec emax v 0 false with
  | S754_infinity _ => Raise OverflowError
  | f => Ok f
  end.

(** [round(x)] of a float: the nearest integer, ties to the even one. *)
Definition py_round (x : spec_float) : result Z :=
  match x with
  | S754_zero _ => Ok 0
  | S754_infinity _ => Raise OverflowError
  | S754_nan => Raise ValueError
  | S754_finite s m e =>
      let r :=
        if 0 <=? e then Z.pos m * 2 ^ e
        else
          let d := 2 ^ (- e) in
          let q := Z.pos m / d in
          let rem := Z.pos m mod d in
          if 2 * rem <? d then q
          else if d <? 2 * rem then q + 1
          else if Z.even q then q else q + 1 in
      Ok (if s then - r else r)
  end.

(** [max(1, min(127, int(round(n.velocity * scale))))] *)
Definition scaled_velocity (v : Z) (scale : spec_float) : result Z :=
  f <- float_of_int v;;
  r <- py_round (SFmul prec emax f scale);;
  Ok (Z.max 1 (Z.min 127 r)).

Fixpoint scale_notes (ns : list Note) (scale : spec_float) : result (list Note) :=
  match ns with
  | [] => Ok []
  | n :: ns' =>
      v <- scaled_velocity (velocity n) scale;;
      ns'' <- scale_notes ns' scale;;
      Ok (mkNote v (pitch n) (start n) (end_ n) :: ns'')
  end.

(** The instrument after the in-place update of its notes. *)
Definition scale_instrument_velocity (inst : Instrument) (scale : spec_float)
  : result Instrument :=
  ns <- scale_notes (notes inst) scale;;
  Ok (mkInstrument (program inst) (name inst) ns).

(** ** Beat Grid Builder *)

Definition effective_note_density (pm : PrettyMIDI) : Z :=
  let dens := NOTE_DENSITY in
  let denom :=
    match time_signature_changes pm with
    | [] => None
    | ts :: _ => Some (denominator ts)
    end in
  match denom with
  | Some d => if d =? 2 then dens * 2 else dens
  | None => dens
  end.

(** [beats[-1]] *)
Definition py_last (l : list Q) : result Q :=
  py_getitem l (-1).

(** Lines 218-225 of [add_bassline], for [dens > 1]. *)
Definition subdivide (beats : list Q) (dens : Z) : result (list Q) :=
  let new_beats :=
    flat_map (fun ab => removelast (linspace (fst ab) (snd ab) (Z.to_nat (dens + 1))))
             (windows beats) in
  final <- py_last beats;;
  Ok (new_beats ++ [final]).

(** Lines 204-215 of [add_bassline]: the boundaries of the timeline, or
    the fallbacks when it has fewer than two. *)
Definition native_beats (pm : PrettyMIDI) (chords_inst : Instrument) : result (list Q) :=
  if (length (get_beats pm) <? 2)%nat then
    if (2 <=? length (get_downbeats pm))%nat then Ok (get_downbeats pm)
    else
      t0 <- earliest_start (notes chords_inst);;
      t1 <- latest_end (notes chords_inst);;
      Ok (arange t0 t1 (1 # 2))
  else Ok (get_beats pm).

(** Lines 204-225 of [add_bassline]. *)
Definition beat_grid (pm : PrettyMIDI) (chords_inst : Instrument) : result (list Q) :=
  beats <- native_beats pm chords_inst;;
  let dens := effective_note_density pm in
  if 1 <? dens then subdivide beats dens else Ok beats.

(** ** Track Selector *)

(** [str.lower] on one character: among the code points below 256 the
    cased ones are the letters A-Z and the capital letters of Latin-1,
    192-222 without the multiplication sign 215; each is 32 below its
    lower-case form. *)
Definition lower_char (c : ascii) : ascii :=
  let n := nat_of_ascii c in
  if ((65 <=? n) && (n <=? 90) ||
      (192 <=? n) && (n <=? 222) && negb (n =? 215))%nat
  then ascii_of_nat (n + 32) else c.

Fixpoint lower (s : string) : string :=
  match s with
  | EmptyString => EmptyString
  | String c s' => String (lower_char c) (lower s')
  end.

(** [s.startswith(p)] *)
Fixpoint startswith (s p : string) {struct p} : bool :=
  match p with
  | EmptyString => true
  | String a p' =>
      match s with
      | EmptyString => false
      | String b s' => Ascii.eqb a b && startswith s' p'
      end
  end.

(** [sub in s] *)
Fixpoint contains (sub s : string) : bool :=
  startswith s sub ||
  match s with
  | EmptyString => false
  | String _ s' => contains sub s'
  end.

(** Truth value of a string: it is not empty. *)
Definition truthy (s : string) : bool :=
  match s with
  | EmptyString => false
  | String _ _ => true
  end.

Definition has_notes (inst : Instrument) : bool :=
  match notes inst with
  | [] => false
  | _ :: _ => true
  end.

(** [for inst in pm.instruments: if p(inst): chords_inst = inst; break],
    with the position of the instrument in the list. *)
Fixpoint find_from (p : Instrument -> bool) (l : list Instrument) (i : nat)
  : option (nat * Instrument) :=
  match l with
  | [] => None
  | inst :: l' => if p inst then Some (i, inst) else find_from p l' (S i)
  end.

Definition name_has_prefix (chord_instr_name_prefix : string) (inst : Instrument) : bool :=
  truthy (name inst) && startswith (name inst) chord_instr_name_prefix.

Definition name_mentions_chords (inst : Instrument) : bool :=
  truthy (name inst) && contains "chords" (lower (name inst)).

(** Lines 187-191: the scan for the most polyphonic instrument. *)
Fixpoint most_polyphonic_from (l : list Instrument) (i : nat)
    (best : option (nat * Instrument)) (best_score : Q)
  : result (option (nat * Instrument)) :=
  match l with
  | [] => Ok best
  | inst :: l' =>
      score <- avg_simultaneity inst default_slices;;
      if Qltb best_score score && has_notes inst
      then most_polyphonic_from l' (S i) (Some (i, inst)) score
      else most_polyphonic_from l' (S i) best best_score
  end.

(** Lines 171-192 of [add_bassline]. *)
Definition find_chords_inst (insts : list Instrument) (chord_instr_name_prefix : string)
  : result (option (nat * Instrument)) :=
  match find_from (name_has_prefix chord_instr_name_prefix) insts 0 with
  | Some c => Ok (Some c)
  | None =>
      match find_from name_mentions_chords insts 0 with
      | Some c => Ok (Some c)
      | None => most_polyphonic_from insts 0 None (-1 # 1)
      end
  end.

(** ** Chord Walk State Machine *)

Record Walk : Type := mkWalk {
  prev_pcset : option (list Z);
  order : list Z;
  idx : Z;
  dir_up : bool;
  prev_midi : option Z
}.

Definition walk_init : Walk := mkWalk None [] 0 true None.

Definition pcset_eqb (a b : option (list Z)) : bool :=
  match a, b with
  | None, None => true
  | Some x, Some y => if list_eq_dec Z.eq_dec x y then true else false
  | _, _ => false
  end.

(** Lines 242-248: the tuple the beat works with, [None] when the beat is
    skipped by [continue]. *)
Definition held_pcset (pcs : list Z) (w : Walk) : option (list Z) :=
  match pcs with
  | [] => prev_pcset w
  | _ :: _ => Some pcs
  end.

(** Line 251: [pcs_tuple != prev_pcset] *)
Definition chord_changed (pcs_tuple : list Z) (w : Walk) : bool :=
  negb (pcset_eqb (Some pcs_tuple) (prev_pcset w)).

(** Lines 251-255 *)
Definition observe (pcs_tuple : list Z) (w : Walk) : Walk :=
  if chord_changed pcs_tuple w
  then mkWalk (Some pcs_tuple) pcs_tuple 0 true (prev_midi w)
  else w.

(** Lines 269-282 *)
Definition advance (w : Walk) : Walk :=
  let len := Z.of_nat (length (order w)) in
  if dir_up w then
    if idx w + 1 <? len
    then mkWalk (prev_pcset w) (order w) (idx w + 1) (dir_up w) (prev_midi w)
    else mkWalk (prev_pcset w) (order w)
                (if 1 <? len then idx w - 1 else idx w) false (prev_midi w)
  else
    if 0 <=? idx w - 1
    then mkWalk (prev_pcset w) (order w) (idx w - 1) (dir_up w) (prev_midi w)
    else mkWalk (prev_pcset w) (order w)
                (if 1 <? len then idx w + 1 else idx w) true (prev_midi w).

(** Lines 258-266: the note of the beat and the walk with its pitch
    recorded. *)
Definition emit (w : Walk) (t0 t1 : Q) : result (Walk * Note) :=
  pc <- py_getitem (order w) (idx w);;
  let midi_pitch :=
    pc_to_midi_near pc (Some (match prev_midi w with Some m => m | None => 36 end)) in
  let dur := ((t1 - t0) * (98 # 100))%Q in
  Ok (mkWalk (prev_pcset w) (order w) (idx w) (dir_up w) (Some midi_pitch),
      mkNote VEL midi_pitch t0 (t0 + dur)%Q).

(** One iteration of the loop of line 238, the window's pitch classes
    given; the notes are those appended to the bass track. *)
Definition walk_beat (w : Walk) (t0 t1 : Q) (pcs : list Z) : result (Walk * list Note) :=
  match held_pcset pcs w with
  | None => Ok (w, [])
  | Some pcs_tuple =>
      r <- emit (observe pcs_tuple w) t0 t1;;
      Ok (advance (fst r), [snd r])
  end.

(** Lines 240-241: the pitch classes sounding in a window. *)
Definition window_pcs (chords_inst : Instrument) (win : Q * Q) : list Z :=
  let win_notes := notes_overlapping chords_inst (fst win) (snd win) in
  chord_pitch_classes win_notes.

Fixpoint walk_loop (chords_inst : Instrument) (w : Walk) (bass : list Note)
    (wins : list (Q * Q)) : result (Walk * list Note) :=
  match wins with
  | [] => Ok (w, bass)
  | win :: wins' =>
      let pcs := window_pcs chords_inst win in
      r <- walk_beat w (fst win) (snd win) pcs;;
      walk_loop chords_inst (fst r) (bass ++ snd r) wins'
  end.

(** ** [add_bassline] *)

(** [l[i] = x], the position being in range. *)
Fixpoint replace_nth {A} (l : list A) (i : nat) (x : A) : list A :=
  match l, i with
  | [], _ => []
  | _ :: l', O => x :: l'
  | y :: l', S i' => y :: replace_nth l' i' x
  end.

Definition bass_name : string := "Walking Bass (auto)".

Definition with_instruments (pm : PrettyMIDI) (insts : list Instrument) : PrettyMIDI :=
  mkPrettyMIDI insts (time_signature_changes pm) (get_beats pm) (get_downbeats pm).

Definition add_bassline (pm : PrettyMIDI) (chord_instr_name_prefix : string)
  : result PrettyMIDI :=
  found <- find_chords_inst (instruments pm) chord_instr_name_prefix;;
  match found with
  | None => Ok pm
  | Some (c, chords_inst) =>
      if negb (has_notes chords_inst) then Ok pm
      else
        chords_inst <- scale_instrument_velocity chords_inst CHORD_VEL_SCALE;;
        let pm := with_instruments pm (replace_nth (instruments pm) c chords_inst) in
        beats <- beat_grid pm chords_inst;;
        r <- walk_loop chords_inst walk_init [] (windows beats);;
        let bass := mkInstrument BASS_PROGRAM bass_name (snd r) in
        Ok (with_instruments pm (instruments pm ++ [bass]))
  end.

(** ** [retarget_melody_to_sax] *)

Definition MELODY_SAX_PROGRAM : Z := 65.

(** An instrument with its drum flag.  [add_bassline] never reads the
    flag, so it is kept beside the instrument. *)
Definition Track : Type := (Instrument * bool)%type.

Definition is_drum (t : Track) : bool := snd t.

(** [inst.name and melody_name_hint.lower() in inst.name.lower()] *)
Definition name_mentions (melody_name_hint : string) (inst : Instrument) : bool :=
  truthy (name inst) && contains (lower melody_name_hint) (lower (name inst)).

Fixpoint find_track_from (p : Instrument -> bool) (l : list Track) (i : nat)
  : option (nat * Track) :=
  match l with
  | [] => None
  | t :: l' => if p (fst t) then Some (i, t) else find_track_from p l' (S i)
  end.

(** Lines 147-153: the scan for the least polyphonic instrument that is
    not a drum and has notes; [None] as score stands for [float('inf')]. *)
Fixpoint least_polyphonic_from (l : list Track) (i : nat)
    (best : option (nat * Track)) (best_score : option Q)
  : result (option (nat * Track)) :=
  match l with
  | [] => Ok best
  | t :: l' =>
      if is_drum t || negb (has_notes (fst t))
      then least_polyphonic_from l' (S i) best best_score
      else
        score <- avg_simultaneity (fst t) default_slices;;
        if match best_score with
           | None => true
           | Some b => Qltb score b
           end
        then least_polyphonic_from l' (S i) (Some (i, t)) (Some score)
        else least_polyphonic_from l' (S i) best best_score
  end.

(** [target.program = MELODY_SAX_PROGRAM] *)
Definition set_program (t : Track) (p : Z) : Track :=
  (mkInstrument p (name (fst t)) (notes (fst t)), snd t).

(** The tracks after the call: the program of the target is updated in
    place. *)
Definition retarget_melody_to_sax (tracks : list Track) (melody_name_hint : string)
  : result (list Track) :=
  target <-
    match find_track_from (name_mentions melody_name_hint) tracks 0 with
    | Some t => Ok (Some t)
    | None => least_polyphonic_from tracks 0 None None
    end;;
  match target with
  | Some (i, t) => Ok (replace_nth tracks i (set_program t MELODY_SAX_PROGRAM))
  | None => Ok tracks
  end.

(** ** [slugify] *)

(** A title is a string of code points below 256. *)
Definition char_in (lo hi : nat) (c : ascii) : bool :=
  let n := nat_of_ascii c in ((lo <=? n) && (n <=? hi))%nat.

(** [\s] of a [str] pattern: the white space among these code points. *)
Definition is_space (c : ascii) : bool :=
  char_in 9 13 c || char_in 28 32 c || char_in 133 133 c || char_in 160 160 c.

(** The class [[A-Za-z0-9\-\s_]] *)
Definition kept (c : ascii) : bool :=
  char_in 65 90 c || char_in 97 122 c || char_in 48 57 c ||
  Ascii.eqb c "-" || is_space c || Ascii.eqb c "_".

(** [s.replace(a, b)] for strings [a], [b] of one character *)
Definition replace_char (a b : ascii) (s : list ascii) : list ascii :=
  map (fun c => if Ascii.eqb c a then b else c) s.

(** [re.sub(r"\s+", "_", s)]: every maximal run of white space becomes one
    underscore; [in_run] tells that the previous character was white
    space. *)
Fixpoint sub_spaces (in_run : bool) (s : list ascii) : list ascii :=
  match s with
  | [] => []
  | c :: s' =>
      if is_space c
      then if in_run then sub_spaces true s' else "_"%char :: sub_spaces true s'
      else c :: sub_spaces false s'
  end.

(** [s.lstrip(chars)], [s.rstrip(chars)] and [s.strip(chars)], the
    characters given as a test. *)
Fixpoint lstrip (p : ascii -> bool) (s : list ascii) : list ascii :=
  match s with
  | [] => []
  | c :: s' => if p c then lstrip p s' else s
  end.

Definition rstrip (p : ascii -> bool) (s : list ascii) : list ascii :=
  rev (lstrip p (rev s)).

Definition strip (p : ascii -> bool) (s : list ascii) : list ascii :=
  rstrip p (lstrip p s).

Definition is_underscore (c : ascii) : bool := Ascii.eqb c "_".
Definition is_underscore_or_dash (c : ascii) : bool := Ascii.eqb c "_" || Ascii.eqb c "-".

(** [s[:k]]: the first [k] characters, and all but the last [-k] when [k]
    is negative. *)
Definition py_slice_to {A} (s : list A) (k : Z) : list A :=
  if k <? 0 then firstn (Z.to_nat (Z.of_nat (length s) + k)) s
  else firstn (Z.to_nat k) s.

(** The characters of the slug before the fallback to "untitled". *)
Definition slug_chars (title : string) (max_len : Z) : list ascii :=
  let t := list_ascii_of_string title in
  let t := replace_char ":" "-" (replace_char "/" "-" t) in
  let t := filter kept t in
  let t := strip is_underscore (sub_spaces false t) in
  if max_len <? Z.of_nat (length t)
  then rstrip is_underscore_or_dash (py_slice_to t max_len)
  else t.

Definition slugify (title : string) (max_len : Z) : string :=
  match slug_chars title max_len with
  | [] => "untitled"%string
  | t => string_of_list_ascii t
  end.

(** ** [parse_toc_titles] *)

(** The text of the file, like a title, is a string of code points below
    256.  Neither [\s+] nor the title group of [TOC_RE] can match at a shorter
    length than its longest one and let the rest of the pattern match, so
    the pattern is matched from left to right without going back. *)
Definition double_quote : ascii := ascii_of_nat 34.

(** A literal of the pattern at the head of the text; what follows it. *)
Fixpoint eat_literal (lit s : list ascii) : option (list ascii) :=
  match lit with
  | [] => Some s
  | a :: lit' =>
      match s with
      | [] => None
      | c :: s' => if Ascii.eqb c a then eat_literal lit' s' else None
      end
  end.

(** [\s+] at the head of the text: a longest run of white space, of one
    character at least. *)
Definition eat_spaces (s : list ascii) : option (list ascii) :=
  match s with
  | [] => None
  | c :: s' => if is_space c then Some (lstrip is_space s') else None
  end.

(** The longest run of characters other than the double quote, and the
    rest. *)
Fixpoint until_quote (s : list ascii) : list ascii * list ascii :=
  match s with
  | [] => ([], [])
  | c :: s' =>
      if Ascii.eqb c double_quote then ([], s)
      else let tr := until_quote s' in (c :: fst tr, snd tr)
  end.

(** [([^"]+)"] at the head of the text: the group and what follows the
    closing quote. *)
Definition eat_title (s : list ascii) : option (list ascii * list ascii) :=
  match until_quote s with
  | ((_ :: _) as t, _ :: rest) => Some (t, rest)
  | _ => None
  end.

(** [TOC_RE] at the head of the text. *)
Definition match_toc_item (s : list ascii) : option (list ascii * list ascii) :=
  match eat_literal (list_ascii_of_string "\tocItem") s with
  | None => None
  | Some s1 =>
  match eat_spaces s1 with
  | None => None
  | Some s2 =>
  match eat_literal (list_ascii_of_string "\markup") s2 with
  | None => None
  | Some s3 =>
  match eat_spaces s3 with
  | None => None
  | Some s4 =>
  match eat_literal [double_quote] s4 with
  | None => None
  | Some s5 => eat_title s5
  end end end end end.

(** [TOC_RE.findall]: the groups of the matches found from left to right,
    the search resuming where a match ends; [skip] counts the characters
    of the last match that are still to be passed. *)
Fixpoint findall_toc (skip : nat) (s : list ascii) : list (list ascii) :=
  match s with
  | [] => []
  | _ :: s' =>
      match skip with
      | S k => findall_toc k s'
      | O =>
          match match_toc_item s with
          | Some (t, rest) => t :: findall_toc (length s' - length rest) s'
          | None => findall_toc 0 s'
          end
      end
  end.

(** [file_text] is the text read from the file, [None] when reading it
    raises. *)
Definition parse_toc_titles (file_text : option string) : list string :=
  match file_text with
  | None => []
  | Some txt => map string_of_list_ascii (findall_toc 0 (list_ascii_of_string txt))
  end.

(** ** Definitions used to state the properties *)

(** The index at which a beat reads [order], when it is not skipped. *)
Definition selected_index (w : Walk) (pcs : list Z) : option Z :=
  match held_pcset pcs w with
  | None => None
  | Some pcs_tuple => Some (idx (observe pcs_tuple w))
  end.

(** The indices selected beat after beat along a run of the loop. *)
Fixpoint selected_indices (chords_inst : Instrument) (w : Walk) (wins : list (Q * Q))
  : list Z :=
  match wins with
  | [] => []
  | win :: wins' =>
      let pcs := window_pcs chords_inst win in
      match walk_beat w (fst win) (snd win) pcs with
      | Ok r =>
          match selected_index w pcs with
          | Some i => i :: selected_indices chords_inst (fst r) wins'
          | None => selected_indices chords_inst (fst r) wins'
          end
      | Raise _ => []
      end
  end.

(** The ping-pong sequence 0,1,...,k-1,k-2,...,1,0,1,... of a chord with
    [k] tones, as a function of the beat number; it has period
    [2 * (k - 1)]. *)
Definition ping_pong (k n : Z) : Z :=
  if k <=? 1 then 0
  else
    let m := n mod (2 * (k - 1)) in
    if m <? k then m else 2 * (k - 1) - m.

(** The set of pitch classes of a list of notes, as a predicate. *)
Definition sounds (ns : list Note) (pc : Z) : Prop :=
  exists n, In n ns /\ pc = pitch n mod 12.

(** What the walk keeps true once a chord is active. *)
Definition walk_ok (w : Walk) : Prop :=
  match prev_pcset w with
  | None => True
  | Some s => s <> [] /\ order w = s /\ 0 <= idx w < Z.of_nat (length s)
  end.

(** The walk is at beat [n] of the ping-pong traversal of a chord with [k]
    tones: the index is the one of the sequence, and strictly between the
    two ends the direction is the one of the current half period. *)
Definition on_ping_pong (k n : Z) (w : Walk) : Prop :=
  idx w = ping_pong k n /\
  (2 <= k ->
   let m := n mod (2 * (k - 1)) in
   (0 < m < k - 1 -> dir_up w = true) /\ (k - 1 < m -> dir_up w = false)).

(** The windows of a run from the initial walk that emit a note: all of
    them from the first one that is not silent. *)
Fixpoint drop_silent (chords_inst : Instrument) (wins : list (Q * Q)) : list (Q * Q) :=
  match wins with
  | [] => []
  | win :: wins' =>
      match window_pcs chords_inst win with
      | [] => drop_silent chords_inst wins'
      | _ :: _ => wins
      end
  end.

(** The note of the Track Emitter for a window. *)
Definition emitted_for (n : Note) (win : Q * Q) : Prop :=
  velocity n = VEL /\
  start n = fst win /\
  end_ n = (fst win + (snd win - fst win) * (98 # 100))%Q /\
  (end_ n == fst win + (98 # 100) * (snd win - fst win))%Q /\
  C1 <= pitch n <= C3.

(** What of a note the program leaves alone when it rescales velocities. *)
Definition note_shape (n : Note) : Z * Q * Q := (pitch n, start n, end_ n).


(** The score of an instrument in the scan of lines 187-191. *)
Definition score_of (inst : Instrument) : Q :=
  match avg_simultaneity inst default_slices with
  | Ok q => q
  | Raise _ => 0%Q
  end.


(** ** Example scores *)

(** A chord track that holds a C major triad for four beats and a D minor
    triad for three, one beat per second. *)
Definition triad (p1 p2 p3 : Z) (t0 t1 : Q) : list Note :=
  [mkNote 80 p1 t0 t1; mkNote 80 p2 t0 t1; mkNote 80 p3 t0 t1].

Definition example_chords : Instrument :=
  mkInstrument 0 "Piano, Chords:Voice" (triad 60 64 67 0 4 ++ triad 62 65 69 4 7).

Definition example_score : PrettyMIDI :=
  mkPrettyMIDI [mkInstrument 0 "Piano, Melody:Voice" [mkNote 90 72 0 7]; example_chords]
               [mkTimeSignature 4 4 0]
               (map inject_Z [0; 1; 2; 3; 4; 5; 6; 7])
               [0%Q; 4%Q].


(** ** Definitions used to state the further properties *)

(** The walk is sound, the active set holds pitch classes and the last
    bass pitch lies in the bass range. *)
Definition walk_in_range (w : Walk) : Prop :=
  walk_ok w /\
  (forall s, prev_pcset w = Some s -> Forall (fun pc => 0 <= pc < 12) s) /\
  (forall m, prev_midi w = Some m -> C1 <= m <= C3).

(** The reference pitch of the next bass note (line 259). *)
Definition reference_pitch (w : Walk) : Z :=
  match prev_midi w with
  | Some m => m
  | None => 36
  end.

(** Two consecutive bass notes less than an octave apart. *)
Definition within_octave (a b : Note) : Prop := Z.abs (pitch b - pitch a) <= 11.


(** What a rescaled MIDI velocity has to satisfy: it lies between 1 and
    89, it is not above the velocity it comes from unless that is 0, and
    from 1 on it is seven tenths of it rounded to an integer. *)
Definition rescaled_ok (v : Z) : bool :=
  match scaled_velocity v CHORD_VEL_SCALE with
  | Ok r =>
      (1 <=? r) && (r <=? 89) && (r <=? Z.max 1 v) &&
      ((v <=? 0) || (Z.abs (10 * r - 7 * v) <=? 5))
  | Raise _ => false
  end.


(** A score in 2/2 without timeline whose harmony track is one note of
    length zero. *)
Definition degenerate_score : PrettyMIDI :=
  mkPrettyMIDI [mkInstrument 0 "Piano, Chords:Voice" [mkNote 80 60 1 1]]
               [mkTimeSignature 2 2 0] [0%Q] [0%Q].

(** What [retarget_melody_to_sax] leaves alone in a track. *)
Definition track_music (t : Track) : string * list Note * bool :=
  (name (fst t), notes (fst t), snd t).

(** Two instruments that differ at most in their program. *)
Definition same_music (a b : Instrument) : Prop :=
  name a = name b /\ notes a = notes b.

(** A track that the fallback scan of [retarget_melody_to_sax] considers. *)
Definition melodic (t : Track) : Prop := is_drum t = false /\ notes (fst t) <> [].

(** The same instrument found at the same position, up to programs. *)
Definition same_found (f1 f2 : option (nat * Instrument)) : Prop :=
  match f1, f2 with
  | Some (c1, a), Some (c2, b) => c1 = c2 /\ same_music a b
  | None, None => True
  | _, _ => False
  end.

(** Two scores with the same tempo and meter data. *)
Definition same_timeline (pm1 pm2 : PrettyMIDI) : Prop :=
  time_signature_changes pm1 = time_signature_changes pm2 /\
  get_beats pm1 = get_beats pm2 /\
  get_downbeats pm1 = get_downbeats pm2.

(** The outcomes of [add_bassline] on two scores [pm1] and [pm2] agree up
    to programs: the same exception, or both scores returned as they were,
    or the same bass track appended to instruments that agree up to
    programs, each keeping the programs of its input. *)
Definition same_outcome (pm1 pm2 : PrettyMIDI) (r1 r2 : result PrettyMIDI) : Prop :=
  match r1, r2 with
  | Raise e1, Raise e2 => e1 = e2
  | Ok p1, Ok p2 =>
      (p1 = pm1 /\ p2 = pm2) \/
      exists old1 old2 bass,
        instruments p1 = old1 ++ [bass] /\ instruments p2 = old2 ++ [bass] /\
        Forall2 same_music old1 old2 /\
        map program old1 = map program (instruments pm1) /\
        map program old2 = map program (instruments pm2)
  | _, _ => False
  end.

(** A letter, a digit, a dash or an underscore. *)
Definition slug_char (c : ascii) : bool :=
  char_in 65 90 c || char_in 97 122 c || char_in 48 57 c ||
  Ascii.eqb c "-" || Ascii.eqb c "_".

(** The first character, if any, does not satisfy [p]. *)
Definition no_lead (p : ascii -> bool) (s : list ascii) : Prop :=
  match s with
  | [] => True
  | c :: _ => p c = false
  end.

(** A table-of-contents entry as text: [junk] before it, then
    [\tocItem], white space, [\markup], white space and the quoted title. *)
Record TocEntry : Type := mkTocEntry {
  junk : list ascii;
  gap1 : list ascii;
  gap2 : list ascii;
  toc_title : list ascii
}.

Definition toc_item (g1 g2 t : list ascii) : list ascii :=
  list_ascii_of_string "\tocItem" ++ g1 ++
  list_ascii_of_string "\markup" ++ g2 ++
  [double_quote] ++ t ++ [double_quote].

Definition render_entry (e : TocEntry) : list ascii :=
  junk e ++ toc_item (gap1 e) (gap2 e) (toc_title e).

Definition render_toc (es : list TocEntry) (tail : list ascii) : string :=
  string_of_list_ascii (concat (map render_entry es) ++ tail).

Definition is_gap (g : list ascii) : Prop :=
  g <> [] /\ Forall (fun c => is_space c = true) g.

Definition is_title (t : list ascii) : Prop :=
  t <> [] /\ Forall (fun c => c <> double_quote) t.

Definition well_formed_entry (e : TocEntry) : Prop :=
  Forall (fun c => c <> "\"%char) (junk e) /\
  is_gap (gap1 e) /\ is_gap (gap2 e) /\ is_title (toc_title e).

(** The title [t] stands in the text as the quoted argument of a
    [\tocItem ... \markup]. *)
Definition quoted_in (txt : list ascii) (t : list ascii) : Prop :=
  exists pre g1 g2 rest,
    txt = pre ++ toc_item g1 g2 t ++ rest /\
    is_gap g1 /\ is_gap g2 /\ is_title t.

(** * The program in binary64

    The model above computes with exact times, which settles everything
    that depends on the order of times only.  The values the program
    computes with floats are rounded: the sample points of [np.linspace],
    the boundaries of [np.arange], the scores of [avg_simultaneity] and the
    ends of the bass notes.  This module is the same program with times as
    binary64 numbers, every operation on them being the IEEE 754 operation
    of the executable specification [SpecFloat].  Arrays are assumed to
    fit in memory. *)

Module Binary64.

Definition float : Type := spec_float.

Definition fadd : float -> float -> float := SFadd prec emax.
Definition fsub : float -> float -> float := SFsub prec emax.
Definition fmul : float -> float -> float := SFmul prec emax.
Definition fdiv : float -> float -> float := SFdiv prec emax.

(** The float of an integer, as numpy converts the indices of an array. *)
Definition of_int (z : Z) : float := binary_normalize prec emax z 0 false.

(** The literals [0.0], [0.5], [0.98] and [-1.0] of the program. *)
Definition zero : float := S754_zero false.
Definition half : float := S754_finite false 4503599627370496 (-53).
Definition f0_98 : float := S754_finite false 8827055269646172 (-53).
Definition minus_one : float := S754_finite true 4503599627370496 (-52).

(** ** Data model *)

Record Note : Type := mkNote {
  velocity : Z;
  pitch : Z;
  start : float;
  end_ : float
}.

Record Instrument : Type := mkInstrument {
  program : Z;
  name : string;
  notes : list Note
}.

Record TimeSignature : Type := mkTimeSignature {
  numerator : Z;
  denominator : Z;
  time : float
}.

Record PrettyMIDI : Type := mkPrettyMIDI {
  instruments : list Instrument;
  time_signature_changes : list TimeSignature;
  get_beats : list float;
  get_downbeats : list float
}.

(** ** Harmony Extractor *)

(** [n.start < end and n.end > start] *)
Definition overlaps (t0 t1 : float) (n : Note) : bool :=
  SFltb (start n) t1 && SFltb t0 (end_ n).

Definition notes_overlapping (instrument : Instrument) (t0 t1 : float) : list Note :=
  filter (overlaps t0 t1) (notes instrument).

Definition chord_pitch_classes (ns : list Note) : list Z :=
  sorted (nodup Z.eq_dec (map (fun n => pitch n mod 12) ns)).

(** ** numpy *)

(** [y[-1] = stop] *)
Definition set_last (y : list float) (stop : float) : list float :=
  removelast y ++ [stop].

(** [np.linspace(start, stop, num)], as numpy computes it: the indices
    [0 .. num-1] as floats are multiplied by [step = (stop - start) / div]
    with [div = num - 1], or divided by [div] and multiplied by
    [stop - start] when the step is zero, then [start] is added, and the
    last sample is set to [stop]; a negative [num] raises. *)
Definition linspace (start stop : float) (num : Z) : result (list float) :=
  if num <? 0 then Raise ValueError
  else
    let div := num - 1 in
    let delta := fsub stop start in
    let y := map (fun i => of_int (Z.of_nat i)) (seq 0 (Z.to_nat num)) in
    let y :=
      if 0 <? div then
        let step := fdiv delta (of_int div) in
        if SFeqb step zero
        then map (fun v => fmul (fdiv v (of_int div)) delta) y
        else map (fun v => fmul v step) y
      else map (fun v => fmul v delta) y in
    let y := map (fun v => fadd v start) y in
    Ok (if 1 <? num then set_last y stop else y).

(** [ceil] of a finite float, as an integer. *)
Definition ceil (x : float) : option Z :=
  match x with
  | S754_zero _ => Some 0
  | S754_finite s m e =>
      let v := if s then Z.neg m else Z.pos m in
      Some (if 0 <=? e then v * 2 ^ e else - ((- v) / 2 ^ (- e)))
  | _ => None
  end.

(** [np.arange(start, stop, step)] on floats, as numpy computes it: the
    length is the ceiling of [(stop - start) / step]; the first two values
    are [start] and [start + step], and value [i] from the third on is
    [start + i * delta] with [delta = (start + step) - start]. *)
Definition arange (start stop step : float) : result (list float) :=
  match fdiv (fsub stop start) step with
  | S754_nan => Raise ValueError
  | value =>
      match ceil value with
      | None => Raise OverflowError
      | Some len =>
          let next := fadd start step in
          let delta := fsub next start in
          Ok (map (fun i =>
                     match i with
                     | O => start
                     | S O => next
                     | _ => fadd start (fmul (of_int (Z.of_nat i)) delta)
                     end)
                  (seq 0 (Z.to_nat len)))
      end
  end.

(** ** Python built-ins *)

Definition py_min (x : float) (l : list float) : float :=
  fold_left (fun best y => if SFltb y best then y else best) l x.

Definition py_max (x : float) (l : list float) : float :=
  fold_left (fun best y => if SFltb best y then y else best) l x.

Fixpoint windows {A} (l : list A) : list (A * A) :=
  match l with
  | [] => []
  | a :: l' =>
      match l' with
      | [] => []
      | b :: _ => (a, b) :: windows l'
      end
  end.

(** [x + k] and [x / d] for a float [x] and an integer: the integer is
    converted first, which raises when it is too large. *)
Definition py_add_int (x : float) (k : Z) : result float :=
  y <- float_of_int k;;
  Ok (fadd x y).

Definition py_truediv (x : float) (d : Z) : result float :=
  y <- float_of_int d;;
  if d =? 0 then Raise ZeroDivisionError else Ok (fdiv x y).

(** ** Track Selector helper: [avg_simultaneity] *)

Definition earliest_start (ns : list Note) : result float :=
  match ns with
  | [] => Raise ValueError
  | n :: ns' => Ok (py_min (start n) (map start ns'))
  end.

Definition latest_end (ns : list Note) : result float :=
  match ns with
  | [] => Raise ValueError
  | n :: ns' => Ok (py_max (end_ n) (map end_ ns'))
  end.

Definition count_overlapping (ns : list Note) (a b : float) : Z :=
  Z.of_nat (length (filter (overlaps a b) ns)).

(** Lines 127-129: the loop over the slices. *)
Fixpoint sum_counts (ns : list Note) (wins : list (float * float)) (tot : float)
  : result float :=
  match wins with
  | [] => Ok tot
  | ab :: wins' =>
      tot' <- py_add_int tot (count_overlapping ns (fst ab) (snd ab));;
      sum_counts ns wins' tot'
  end.

Definition avg_simultaneity (inst : Instrument) (slices : Z) : result float :=
  match notes inst with
  | [] => Ok zero
  | _ :: _ =>
      t0 <- earliest_start (notes inst);;
      t1 <- latest_end (notes inst);;
      if SFleb t1 t0 then Ok zero
      else
        times <- linspace t0 t1 slices;;
        tot <- sum_counts (notes inst) (windows times) zero;;
        py_truediv tot (Z.of_nat (length times) - 1)
  end.

(** ** [scale_instrument_velocity] *)

Fixpoint scale_notes (ns : list Note) (scale : spec_float) : result (list Note) :=
  match ns with
  | [] => Ok []
  | n :: ns' =>
      v <- scaled_velocity (velocity n) scale;;
      ns'' <- scale_notes ns' scale;;
      Ok (mkNote v (pitch n) (start n) (end_ n) :: ns'')
  end.

Definition scale_instrument_velocity (inst : Instrument) (scale : spec_float)
  : result Instrument :=
  ns <- scale_notes (notes inst) scale;;
  Ok (mkInstrument (program inst) (name inst) ns).

(** ** Beat Grid Builder *)

Definition effective_note_density (pm : PrettyMIDI) : Z :=
  let dens := NOTE_DENSITY in
  let denom :=
    match time_signature_changes pm with
    | [] => None
    | ts :: _ => Some (denominator ts)
    end in
  match denom with
  | Some d => if d =? 2 then dens * 2 else dens
  | None => dens
  end.

(** Lines 221-223: the loop over the pairs of adjacent boundaries. *)
Fixpoint subdivide_loop (wins : list (float * float)) (dens : Z) (new_beats : list float)
  : result (list float) :=
  match wins with
  | [] => Ok new_beats
  | ab :: wins' =>
      seg <- linspace (fst ab) (snd ab) (dens + 1);;
      subdivide_loop wins' dens (new_beats ++ removelast seg)
  end.

(** Lines 218-225 of [add_bassline], for [dens > 1]. *)
Definition subdivide (beats : list float) (dens : Z) : result (list float) :=
  new_beats <- subdivide_loop (windows beats) dens [];;
  final <- py_getitem beats (-1);;
  Ok (new_beats ++ [final]).

(** Lines 204-215 of [add_bassline]. *)
Definition native_beats (pm : PrettyMIDI) (chords_inst : Instrument)
  : result (list float) :=
  if (length (get_beats pm) <? 2)%nat then
    if (2 <=? length (get_downbeats pm))%nat then Ok (get_downbeats pm)
    else
      t0 <- earliest_start (notes chords_inst);;
      t1 <- latest_end (notes chords_inst);;
      arange t0 t1 half
  else Ok (get_beats pm).

(** Lines 204-225 of [add_bassline]. *)
Definition beat_grid (pm : PrettyMIDI) (chords_inst : Instrument) : result (list float) :=
  beats <- native_beats pm chords_inst;;
  let dens := effective_note_density pm in
  if 1 <? dens then subdivide beats dens else Ok beats.

(** ** Track Selector *)

Definition has_notes (inst : Instrument) : bool :=
  match notes inst with
  | [] => false
  | _ :: _ => true
  end.

Fixpoint find_from (p : Instrument -> bool) (l : list Instrument) (i : nat)
  : option (nat * Instrument) :=
  match l with
  | [] => None
  | inst :: l' => if p inst then Some (i, inst) else find_from p l' (S i)
  end.

Definition name_has_prefix (chord_instr_name_prefix : string) (inst : Instrument) : bool :=
  truthy (name inst) && startswith (name inst) chord_instr_name_prefix.

Definition name_mentions_chords (inst : Instrument) : bool :=
  truthy (name inst) && contains "chords" (lower (name inst)).

(** Lines 187-191: [score > best_score and inst.notes] *)
Fixpoint most_polyphonic_from (l : list Instrument) (i : nat)
    (best : option (nat * Instrument)) (best_score : float)
  : result (option (nat * Instrument)) :=
  match l with
  | [] => Ok best
  | inst :: l' =>
      score <- avg_simultaneity inst default_slices;;
      if SFltb best_score score && has_notes inst
      then most_polyphonic_from l' (S i) (Some (i, inst)) score
      else most_polyphonic_from l' (S i) best best_score
  end.

Definition find_chords_inst (insts : list Instrument) (chord_instr_name_prefix : string)
  : result (option (nat * Instrument)) :=
  match find_from (name_has_prefix chord_instr_name_prefix) insts 0 with
  | Some c => Ok (Some c)
  | None =>
      match find_from name_mentions_chords insts 0 with
      | Some c => Ok (Some c)
      | None => most_polyphonic_from insts 0 None minus_one
      end
  end.

(** ** Chord walk and Track Emitter

    The state of the walk holds no time: it is the [Walk] of the model
    above, with its [observe], [advance] and [held_pcset]. *)

(** Lines 258-266: [dur = (t1 - t0) * 0.98] and [end = t0 + dur], each
    operation rounded. *)
Definition emit (w : Walk) (t0 t1 : float) : result (Walk * Note) :=
  pc <- py_getitem (order w) (idx w);;
  let midi_pitch :=
    pc_to_midi_near pc (Some (match prev_midi w with Some m => m | None => 36 end)) in
  let dur := fmul (fsub t1 t0) f0_98 in
  Ok (mkWalk (prev_pcset w) (order w) (idx w) (dir_up w) (Some midi_pitch),
      mkNote VEL midi_pitch t0 (fadd t0 dur)).

Definition walk_beat (w : Walk) (t0 t1 : float) (pcs : list Z) : result (Walk * list Note) :=
  match held_pcset pcs w with
  | None => Ok (w, [])
  | Some pcs_tuple =>
      r <- emit (observe pcs_tuple w) t0 t1;;
      Ok (advance (fst r), [snd r])
  end.

Definition window_pcs (chords_inst : Instrument) (win : float * float) : list Z :=
  let win_notes := notes_overlapping chords_inst (fst win) (snd win) in
  chord_pitch_classes win_notes.

Fixpoint walk_loop (chords_inst : Instrument) (w : Walk) (bass : list Note)
    (wins : list (float * float)) : result (Walk * list Note) :=
  match wins with
  | [] => Ok (w, bass)
  | win :: wins' =>
      let pcs := window_pcs chords_inst win in
      r <- walk_beat w (fst win) (snd win) pcs;;
      walk_loop chords_inst (fst r) (bass ++ snd r) wins'
  end.

(** ** [add_bassline] *)

Definition with_instruments (pm : PrettyMIDI) (insts : list Instrument) : PrettyMIDI :=
  mkPrettyMIDI insts (time_signature_changes pm) (get_beats pm) (get_downbeats pm).

Definition add_bassline (pm : PrettyMIDI) (chord_instr_name_prefix : string)
  : result PrettyMIDI :=
  found <- find_chords_inst (instruments pm) chord_instr_name_prefix;;
  match found with
  | None => Ok pm
  | Some (c, chords_inst) =>
      if negb (has_notes chords_inst) then Ok pm
      else
        chords_inst <- scale_instrument_velocity chords_inst CHORD_VEL_SCALE;;
        let pm := with_instruments pm (replace_nth (instruments pm) c chords_inst) in
        beats <- beat_grid pm chords_inst;;
        r <- walk_loop chords_inst walk_init [] (windows beats);;
        let bass := mkInstrument BASS_PROGRAM bass_name (snd r) in
        Ok (with_instruments pm (instruments pm ++ [bass]))
  end.

(** ** Definitions used to state the properties *)


(** A mantissa shifted left by [k] bits, and the number of bits by which
    the mantissa of an integer below 2^53 is shifted to fill 53 bits. *)
Definition shift (m : positive) (k : nat) : positive := Nat.iter k xO m.

Definition lead (p : positive) : nat := Z.to_nat (53 - Z.pos (digits2_pos p)).

(** Sample [i] of [np.linspace(t0, t1, div + 1)] before the last, for
    [div > 0]. *)
Definition interpolate (t0 t1 : float) (div : Z) (i : nat) : float :=
  let delta := fsub t1 t0 in
  let step := fdiv delta (of_int div) in
  fadd (if SFeqb step zero
        then fmul (fdiv (of_int (Z.of_nat i)) (of_int div)) delta
        else fmul (of_int (Z.of_nat i)) step)
       t0.

(** Sample point [i] of [slices] points from [t0] to [t1]: the last one
    is [t1] itself. *)
Definition sample_point (t0 t1 : float) (slices : Z) (i : nat) : float :=
  if Z.of_nat i =? slices - 1 then t1 else interpolate t0 t1 (slices - 1) i.

(** The number of (note, slice) pairs that overlap, the slices being the
    [slices - 1] intervals between consecutive sample points. *)
Definition slice_count_sum (ns : list Note) (t0 t1 : float) (slices : Z) : Z :=
  fold_right Z.add 0
    (map (fun i => count_overlapping ns (sample_point t0 t1 slices i)
                                        (sample_point t0 t1 slices (S i)))
         (seq 0 (Z.to_nat (slices - 1)))).

(** The score as the specification words it: the mean, over [slices]
    sample points from the earliest start to the latest end, of the number
    of notes whose interval contains the point. *)
Definition spec_avg_simultaneity (inst : Instrument) (slices : Z) : float :=
  match earliest_start (notes inst), latest_end (notes inst) with
  | Ok t0, Ok t1 =>
      let containing p :=
        filter (fun n => SFleb (start n) p && SFleb p (end_ n)) (notes inst) in
      let total :=
        fold_right Z.add 0
          (map (fun i => Z.of_nat (length (containing (sample_point t0 t1 slices i))))
               (seq 0 (Z.to_nat slices))) in
      fdiv (of_int total) (of_int slices)
  | _, _ => zero
  end.

(** The windows of a run from the initial walk that emit a note: all of
    them from the first one that is not silent. *)
Fixpoint drop_silent (chords_inst : Instrument) (wins : list (float * float))
  : list (float * float) :=
  match wins with
  | [] => []
  | win :: wins' =>
      match window_pcs chords_inst win with
      | [] => drop_silent chords_inst wins'
      | _ :: _ => wins
      end
  end.

(** The note of the Track Emitter for a window: the fixed velocity, the
    start of the window, and the end the program computes, the binary64
    value of start + 0.98 x (end - start). *)
Definition emitted_for (n : Note) (win : float * float) : Prop :=
  velocity n = VEL /\
  start n = fst win /\
  end_ n = fadd (fst win) (fmul (fsub (snd win) (fst win)) f0_98) /\
  C1 <= pitch n <= C3.

(** What of a note the program leaves alone when it rescales velocities. *)
Definition note_shape (n : Note) : Z * float * float := (pitch n, start n, end_ n).

(** ** Example scores *)

Definition triad (p1 p2 p3 t0 t1 : Z) : list Note :=
  [mkNote 80 p1 (of_int t0) (of_int t1); mkNote 80 p2 (of_int t0) (of_int t1);
   mkNote 80 p3 (of_int t0) (of_int t1)].

(** A chord track that holds a C major triad for four beats and a D minor
    triad for three, one beat per second. *)
Definition example_chords : Instrument :=
  mkInstrument 0 "Piano, Chords:Voice" (triad 60 64 67 0 4 ++ triad 62 65 69 4 7).

Definition example_score : PrettyMIDI :=
  mkPrettyMIDI [mkInstrument 0 "Piano, Melody:Voice" [mkNote 90 72 (of_int 0) (of_int 7)];
                example_chords]
               [mkTimeSignature 4 4 zero]
               (map of_int [0; 1; 2; 3; 4; 5; 6; 7])
               [of_int 0; of_int 4].

(** A track with one long note and one short note, from 0.25 to 0.75,
    that lies strictly between two sample points. *)
Definition two_note_track : Instrument :=
  mkInstrument 0 "Piano, Chords:"
    [mkNote 80 60 (of_int 0) (of_int 511);
     mkNote 80 64 (fdiv (of_int 1) (of_int 4)) (fdiv (of_int 3) (of_int 4))].

(** A score in 2/2 without timeline whose harmony track is one note of
    length zero. *)
Definition degenerate_score : PrettyMIDI :=
  mkPrettyMIDI [mkInstrument 0 "Piano, Chords:Voice" [mkNote 80 60 (of_int 1) (of_int 1)]]
               [mkTimeSignature 2 2 zero] [zero] [zero].

End Binary64.

(** * Properties *)

(** ** Times *)

Lemma Qltb_lt x y : Qltb x y = true <-> (x < y)%Q.
Proof.
  unfold Qltb. rewrite negb_true_iff.
  split; intro H.
  - apply Qnot_le_lt. intro Hle. apply Qle_bool_iff in Hle. congruence.
  - destruct (Qle_bool y x) eqn:E; [|reflexivity].
    apply Qle_bool_iff in E. exfalso. revert E. apply Qlt_not_le. exact H.
Qed.

Lemma Qltb_ge x y : Qltb x y = false <-> (y <= x)%Q.
Proof.
  unfold Qltb. rewrite negb_false_iff. apply Qle_bool_iff.
Qed.

(** ** Range Projector *)

Lemma min_by_key_preserves (P : Z -> Prop) key best l :
  P best -> Forall P l -> P (min_by_key key best l).
Proof.
  revert best. induction l as [|m l IH]; intros best Hb Hl; simpl.
  - exact Hb.
  - inversion Hl; subst. apply IH; [destruct (key m <? key best)|]; assumption.
Qed.

Lemma raise_into_range_spec chosen :
  C1 <= raise_into_range chosen /\
  (raise_into_range chosen - chosen) mod 12 = 0 /\
  (raise_into_range chosen = chosen \/ raise_into_range chosen < C1 + 12).
Proof.
  funelim (raise_into_range chosen).
  - destruct H as (Hlo & Hmod & Hhi). unfold C1 in *.
    repeat split; [lia | | lia].
    replace (raise_into_range (chosen + 12) - chosen)
      with (raise_into_range (chosen + 12) - (chosen + 12) + 1 * 12) by lia.
    rewrite Z.mod_add by lia. exact Hmod.
  - repeat split; [lia | | left; reflexivity].
    rewrite Z.sub_diag. reflexivity.
Qed.

Lemma lower_into_range_spec chosen :
  lower_into_range chosen <= C3 /\
  (lower_into_range chosen - chosen) mod 12 = 0 /\
  (lower_into_range chosen = chosen \/ C3 - 12 < lower_into_range chosen).
Proof.
  funelim (lower_into_range chosen).
  - destruct H as (Hhi & Hmod & Hlo). unfold C3 in *.
    repeat split; [lia | | lia].
    replace (lower_into_range (chosen - 12) - chosen)
      with (lower_into_range (chosen - 12) - (chosen - 12) + (-1) * 12) by lia.
    rewrite Z.mod_add by lia. exact Hmod.
  - repeat split; [lia | | left; reflexivity].
    rewrite Z.sub_diag. reflexivity.
Qed.

Lemma candidates_class pc :
  Forall (fun m => (m - pc) mod 12 = 0) (candidates pc).
Proof.
  unfold candidates. apply Forall_forall. intros m Hm.
  apply in_map_iff in Hm. destruct Hm as (o & <- & _).
  replace (pc + 12 * Z.of_nat o - pc) with (Z.of_nat o * 12) by lia.
  apply Z.mod_mul. lia.
Qed.

Lemma mod12_of_difference a b :
  (a - b) mod 12 = 0 -> a mod 12 = b mod 12.
Proof.
  intro H. apply Z.mod_divide in H; [|lia]. destruct H as [k Hk].
  replace a with (b + k * 12) by lia. apply Z.mod_add. lia.
Qed.

Lemma pc_to_midi_near_bounds pc ref_midi :
  C1 <= pc_to_midi_near pc ref_midi <= C3.
Proof.
  unfold pc_to_midi_near.
  set (chosen := match candidates pc with [] => 0 | m :: l => _ end).
  destruct (raise_into_range_spec chosen) as (Hlo & _ & _).
  destruct (lower_into_range_spec (raise_into_range chosen)) as (Hhi & _ & Hst).
  unfold C1, C3 in *. lia.
Qed.

Lemma pc_to_midi_near_class pc ref_midi :
  pc_to_midi_near pc ref_midi mod 12 = pc mod 12.
Proof.
  unfold pc_to_midi_near.
  set (base := match ref_midi with None => 36 | Some r => r end).
  assert (Hc : (match candidates pc with
                | [] => 0
                | m :: l => min_by_key (fun m => Z.abs (m - base)) m l
                end - pc) mod 12 = 0).
  { pose proof (candidates_class pc) as HF.
    destruct (candidates pc) as [|m l] eqn:E; [discriminate|].
    inversion HF; subst.
    apply (min_by_key_preserves (fun m => (m - pc) mod 12 = 0)); assumption. }
  set (chosen := match candidates pc with [] => 0 | m :: l => _ end) in *.
  destruct (raise_into_range_spec chosen) as (_ & Hr & _).
  destruct (lower_into_range_spec (raise_into_range chosen)) as (_ & Hl & _).
  apply mod12_of_difference in Hc, Hr, Hl. congruence.
Qed.

(** C4. For every pitch class [pc] in [0,12) and every reference pitch,
    given or absent, the pitch returned by [pc_to_midi_near] lies in the
    closed range [C1, C3] = [24, 48] and has pitch class [pc]; with
    reference 36 and pitch class 0 it is exactly 36. *)
Theorem pc_to_midi_near_in_range_same_class (pc : Z) (ref_midi : option Z) :
  0 <= pc < 12 ->
  (C1 <= pc_to_midi_near pc ref_midi <= C3 /\
   pc_to_midi_near pc ref_midi mod 12 = pc) /\
  (C1 = 24 /\ C3 = 48 /\ pc_to_midi_near 0 (Some 36) = 36).
Proof.
  intro Hpc. split; [split|].
  - apply pc_to_midi_near_bounds.
  - rewrite pc_to_midi_near_class. apply Z.mod_small. exact Hpc.
  - repeat split.
Qed.

Lemma pc_to_midi_near_in_range_same_class_witness :
  (C1 <= pc_to_midi_near 7 (Some 90) <= C3 /\
   pc_to_midi_near 7 (Some 90) mod 12 = 7) /\
  (C1 = 24 /\ C3 = 48 /\ pc_to_midi_near 0 (Some 36) = 36).
Proof.
  apply (pc_to_midi_near_in_range_same_class 7 (Some 90)). lia.
Defined.

(** ** Harmony Extractor *)

Lemma insert_sorted_In x y l : In y (insert_sorted x l) <-> y = x \/ In y l.
Proof.
  induction l as [|z l IH]; simpl.
  - intuition.
  - destruct (x <=? z); simpl; [intuition | rewrite IH; intuition].
Qed.

Lemma sorted_In y l : In y (sorted l) <-> In y l.
Proof.
  induction l as [|x l IH]; simpl; [reflexivity|].
  rewrite insert_sorted_In, IH. intuition.
Qed.

Lemma insert_sorted_lt x l :
  StronglySorted Z.lt l -> ~ In x l -> StronglySorted Z.lt (insert_sorted x l).
Proof.
  induction l as [|z l IH]; intros Hs Hn; simpl.
  - constructor; constructor.
  - inversion Hs as [|? ? Hs' Hall]; subst.
    destruct (x <=? z) eqn:E.
    + apply Z.leb_le in E.
      assert (x < z) by (simpl in Hn; lia).
      constructor; [exact Hs|].
      constructor; [assumption|].
      eapply Forall_impl; [|exact Hall]. simpl. intros; lia.
    + apply Z.leb_gt in E.
      constructor.
      * apply IH; [assumption | intro; apply Hn; right; assumption].
      * apply Forall_forall. intros y Hy. apply insert_sorted_In in Hy.
        destruct Hy as [->|Hy]; [assumption|].
        rewrite Forall_forall in Hall. apply Hall. assumption.
Qed.

Lemma sorted_lt l : NoDup l -> StronglySorted Z.lt (sorted l).
Proof.
  induction 1 as [|x l Hx Hnd IH]; simpl; [constructor|].
  apply insert_sorted_lt; [exact IH|]. rewrite sorted_In. exact Hx.
Qed.

Lemma chord_pitch_classes_In ns pc :
  In pc (chord_pitch_classes ns) <-> sounds ns pc.
Proof.
  unfold chord_pitch_classes, sounds.
  rewrite sorted_In, nodup_In, in_map_iff.
  split; intros (n & H1 & H2); exists n; intuition.
Qed.

Lemma chord_pitch_classes_sorted ns :
  StronglySorted Z.lt (chord_pitch_classes ns).
Proof.
  apply sorted_lt, NoDup_nodup.
Qed.

Lemma chord_pitch_classes_range ns pc :
  In pc (chord_pitch_classes ns) -> 0 <= pc < 12.
Proof.
  rewrite chord_pitch_classes_In. intros (n & _ & ->).
  apply Z.mod_pos_bound. lia.
Qed.

(** Two strictly ascending lists with the same elements are the same list. *)
Lemma strictly_sorted_ext (l1 l2 : list Z) :
  StronglySorted Z.lt l1 -> StronglySorted Z.lt l2 ->
  (forall x, In x l1 <-> In x l2) -> l1 = l2.
Proof.
  revert l2. induction l1 as [|a l1 IH]; intros l2 H1 H2 Hext.
  - destruct l2 as [|b l2]; [reflexivity|].
    exfalso. apply (proj2 (Hext b)). left; reflexivity.
  - destruct l2 as [|b l2].
    + exfalso. apply (proj1 (Hext a)). left; reflexivity.
    + inversion H1 as [|? ? H1' Ha]; subst.
      inversion H2 as [|? ? H2' Hb]; subst.
      rewrite Forall_forall in Ha, Hb.
      assert (a = b).
      { destruct (proj1 (Hext a) (or_introl eq_refl)) as [Hab|Hab]; [congruence|].
        destruct (proj2 (Hext b) (or_introl eq_refl)) as [Hba|Hba]; [congruence|].
        specialize (Ha _ Hba). specialize (Hb _ Hab). lia. }
      subst b. f_equal. apply IH; [assumption..|].
      intro x. split; intro Hx.
      * destruct (proj1 (Hext x) (or_intror Hx)) as [<-|]; [|assumption].
        specialize (Ha _ Hx). lia.
      * destruct (proj2 (Hext x) (or_intror Hx)) as [<-|]; [|assumption].
        specialize (Hb _ Hx). lia.
Qed.

Lemma chord_pitch_classes_eq_iff ns1 ns2 :
  chord_pitch_classes ns1 = chord_pitch_classes ns2 <->
  (forall pc, sounds ns1 pc <-> sounds ns2 pc).
Proof.
  split.
  - intros E pc. rewrite <- !chord_pitch_classes_In, E. reflexivity.
  - intro H. apply strictly_sorted_ext; try apply chord_pitch_classes_sorted.
    intro pc. rewrite !chord_pitch_classes_In. apply H.
Qed.

(** ** Chord Walk State Machine *)

Lemma pcset_eqb_eq a b : pcset_eqb a b = true <-> a = b.
Proof.
  destruct a as [x|], b as [y|]; simpl; try (split; [discriminate | congruence]).
  - destruct (list_eq_dec Z.eq_dec x y); split; congruence.
  - split; reflexivity.
Qed.

Lemma chord_changed_false pcs_tuple w :
  chord_changed pcs_tuple w = false <-> prev_pcset w = Some pcs_tuple.
Proof.
  unfold chord_changed. rewrite negb_false_iff, pcset_eqb_eq.
  split; congruence.
Qed.

Lemma chord_changed_true pcs_tuple w :
  chord_changed pcs_tuple w = true <-> prev_pcset w <> Some pcs_tuple.
Proof.
  rewrite <- chord_changed_false. destruct (chord_changed pcs_tuple w); split; congruence.
Qed.

Lemma observe_prev_pcset pcs_tuple w :
  prev_pcset (observe pcs_tuple w) = Some pcs_tuple.
Proof.
  unfold observe. destruct (chord_changed pcs_tuple w) eqn:E; [reflexivity|].
  apply chord_changed_false. exact E.
Qed.

Lemma observe_prev_midi pcs_tuple w :
  prev_midi (observe pcs_tuple w) = prev_midi w.
Proof.
  unfold observe. destruct (chord_changed pcs_tuple w); reflexivity.
Qed.

Lemma py_getitem_in_range {A} (l : list A) (i : Z) :
  0 <= i < Z.of_nat (length l) ->
  exists x, py_getitem l i = Ok x /\ nth_error l (Z.to_nat i) = Some x.
Proof.
  intro Hi. unfold py_getitem.
  destruct (i <? 0) eqn:E; [apply Z.ltb_lt in E; lia|].
  replace ((0 <=? i) && (i <? Z.of_nat (length l))) with true
    by (symmetry; apply andb_true_iff; split; [apply Z.leb_le | apply Z.ltb_lt]; lia).
  destruct (nth_error l (Z.to_nat i)) as [x|] eqn:En.
  - exists x. split; reflexivity.
  - apply nth_error_None in En. lia.
Qed.

Lemma advance_fields w :
  prev_pcset (advance w) = prev_pcset w /\
  order (advance w) = order w /\
  prev_midi (advance w) = prev_midi w.
Proof.
  unfold advance.
  destruct (dir_up w);
    [destruct (idx w + 1 <? Z.of_nat (length (order w)))
    |destruct (0 <=? idx w - 1)];
    repeat split.
Qed.

Lemma advance_in_range w :
  0 <= idx w < Z.of_nat (length (order w)) ->
  0 <= idx (advance w) < Z.of_nat (length (order w)).
Proof.
  intro H. unfold advance.
  destruct (dir_up w).
  - destruct (idx w + 1 <? Z.of_nat (length (order w))) eqn:E1; simpl.
    + apply Z.ltb_lt in E1. lia.
    + apply Z.ltb_ge in E1.
      destruct (1 <? Z.of_nat (length (order w))) eqn:E2;
        [apply Z.ltb_lt in E2 | apply Z.ltb_ge in E2]; lia.
  - destruct (0 <=? idx w - 1) eqn:E1; simpl.
    + apply Z.leb_le in E1. lia.
    + apply Z.leb_gt in E1.
      destruct (1 <? Z.of_nat (length (order w))) eqn:E2;
        [apply Z.ltb_lt in E2 | apply Z.ltb_ge in E2]; lia.
Qed.

Lemma held_pcset_nonempty pcs w pcs_tuple :
  walk_ok w -> held_pcset pcs w = Some pcs_tuple -> pcs_tuple <> [].
Proof.
  unfold held_pcset, walk_ok. intros Hw H.
  destruct pcs as [|p pcs].
  - rewrite H in Hw. apply Hw.
  - injection H as <-. discriminate.
Qed.

Lemma observe_ok pcs_tuple w :
  walk_ok w -> pcs_tuple <> [] ->
  order (observe pcs_tuple w) = pcs_tuple /\
  0 <= idx (observe pcs_tuple w) < Z.of_nat (length pcs_tuple).
Proof.
  intros Hw Hne. unfold observe.
  destruct (chord_changed pcs_tuple w) eqn:E; simpl.
  - split; [reflexivity|]. destruct pcs_tuple; [congruence | simpl; lia].
  - apply chord_changed_false in E. unfold walk_ok in Hw. rewrite E in Hw.
    destruct Hw as (_ & Ho & Hi). split; assumption.
Qed.

(** A beat that starts from a sound walk reads [order] in range, emits a
    note of the selected pitch class and leaves a sound walk. *)
Lemma walk_beat_ok w t0 t1 pcs :
  walk_ok w ->
  exists w' ns, walk_beat w t0 t1 pcs = Ok (w', ns) /\ walk_ok w' /\
    match held_pcset pcs w with
    | None => w' = w /\ ns = []
    | Some pcs_tuple =>
        let wo := observe pcs_tuple w in
        order wo = pcs_tuple /\ pcs_tuple <> [] /\
        0 <= idx wo < Z.of_nat (length (order wo)) /\
        prev_pcset w' = Some pcs_tuple /\ order w' = pcs_tuple /\
        exists pc,
          py_getitem (order wo) (idx wo) = Ok pc /\
          nth_error pcs_tuple (Z.to_nat (idx wo)) = Some pc /\
          ns = [mkNote VEL (pc_to_midi_near pc
                  (Some (match prev_midi w with Some m => m | None => 36 end)))
                  t0 (t0 + (t1 - t0) * (98 # 100))%Q] /\
          idx w' = idx (advance wo) /\ dir_up w' = dir_up (advance wo)
    end.
Proof.
  intro Hw. unfold walk_beat.
  destruct (held_pcset pcs w) as [pcs_tuple|] eqn:Eh.
  - pose proof (held_pcset_nonempty _ _ _ Hw Eh) as Hne.
    destruct (observe_ok pcs_tuple w Hw Hne) as (Ho & Hi).
    set (wo := observe pcs_tuple w) in *.
    assert (Hi' : 0 <= idx wo < Z.of_nat (length (order wo))) by (rewrite Ho; exact Hi).
    destruct (py_getitem_in_range (order wo) (idx wo) Hi') as (pc & Hget & Hnth).
    unfold emit. rewrite Hget. simpl.
    eexists. eexists. split; [reflexivity|].
    set (we := mkWalk _ _ _ _ _).
    destruct (advance_fields we) as (Hp & Hord & _).
    pose proof (advance_in_range we) as Hrange. simpl in Hp, Hord, Hrange.
    specialize (Hrange Hi').
    assert (Hprev : prev_pcset wo = Some pcs_tuple) by apply observe_prev_pcset.
    split.
    + unfold walk_ok. rewrite Hp, Hprev. rewrite Hord, Ho in *.
      repeat split; try assumption; lia.
    + repeat split; try assumption; try lia.
      * rewrite Hp. exact Hprev.
      * rewrite Hord. exact Ho.
      * exists pc. rewrite Ho in Hnth.
        assert (Hm : prev_midi wo = prev_midi w) by apply observe_prev_midi.
        rewrite Hm.
        repeat split; try assumption; unfold advance, we; simpl;
          destruct (dir_up wo);
          [destruct (idx wo + 1 <? Z.of_nat (length (order wo)))
          |destruct (0 <=? idx wo - 1)
          |destruct (idx wo + 1 <? Z.of_nat (length (order wo)))
          |destruct (0 <=? idx wo - 1)];
          reflexivity.
  - exists w, []. repeat split. exact Hw.
Qed.

Lemma walk_loop_ok chords_inst wins : forall w bass,
  walk_ok w ->
  exists w' bass', walk_loop chords_inst w bass wins = Ok (w', bass') /\ walk_ok w'.
Proof.
  induction wins as [|win wins IH]; intros w bass Hw; simpl.
  - exists w, bass. split; [reflexivity | exact Hw].
  - destruct (walk_beat_ok w (fst win) (snd win) (window_pcs chords_inst win) Hw)
      as (w1 & ns & Hb & Hw1 & _).
    rewrite Hb. simpl. apply IH. exact Hw1.
Qed.

Lemma walk_init_ok : walk_ok walk_init.
Proof. exact I. Qed.

Lemma held_pcset_None pcs w :
  held_pcset pcs w = None <-> pcs = [] /\ prev_pcset w = None.
Proof.
  unfold held_pcset. destruct pcs; split; intros; try tauto; try discriminate.
  - destruct H; discriminate.
Qed.

Lemma walk_beat_prev_pcset w t0 t1 pcs w' ns :
  pcs <> [] -> walk_beat w t0 t1 pcs = Ok (w', ns) -> prev_pcset w' = Some pcs.
Proof.
  intros Hne H. unfold walk_beat, held_pcset in H.
  destruct pcs as [|p pcs]; [congruence|].
  unfold emit in H.
  destruct (py_getitem _ _) as [pc|e]; simpl in H; [|discriminate].
  injection H as <- _.
  destruct (advance_fields
    (mkWalk (prev_pcset (observe (p :: pcs) w)) (order (observe (p :: pcs) w))
            (idx (observe (p :: pcs) w)) (dir_up (observe (p :: pcs) w))
            (Some (pc_to_midi_near pc
               (Some match prev_midi (observe (p :: pcs) w) with
                     | Some m => m | None => 36 end))))) as (Hp & _).
  rewrite Hp. simpl. apply observe_prev_pcset.
Qed.

(** C2. After a beat that observed the non-empty pitch-class set of the
    notes [ns1], a beat observing the non-empty set of [ns2] takes the
    reset branch (line 251) exactly when the two sets differ as sets of
    pitch classes; the reset installs the observed tuple, which is sorted
    ascending, as [order] and as active set, with index 0 and direction
    up; observing the active set again leaves the walk as it is. *)
Theorem reset_iff_sets_differ
    (w0 w1 : Walk) (t0 t1 : Q) (ns1 ns2 emitted : list Note) :
  chord_pitch_classes ns1 <> [] ->
  chord_pitch_classes ns2 <> [] ->
  walk_beat w0 t0 t1 (chord_pitch_classes ns1) = Ok (w1, emitted) ->
  let observed := chord_pitch_classes ns2 in
  held_pcset observed w1 = Some observed /\
  (chord_changed observed w1 = true <->
   ~ (forall pc, sounds ns1 pc <-> sounds ns2 pc)) /\
  (chord_changed observed w1 = true ->
   observe observed w1 = mkWalk (Some observed) observed 0 true (prev_midi w1) /\
   StronglySorted Z.lt observed) /\
  (chord_changed observed w1 = false -> observe observed w1 = w1) /\
  (forall w pcs_tuple, prev_pcset w = Some pcs_tuple -> observe pcs_tuple w = w).
Proof.
  intros H1 H2 Hb observed.
  pose proof (walk_beat_prev_pcset _ _ _ _ _ _ H1 Hb) as Hprev.
  split; [|split; [|split; [|split]]].
  - subst observed. unfold held_pcset.
    destruct (chord_pitch_classes ns2) eqn:E; [congruence | reflexivity].
  - rewrite chord_changed_true, Hprev, <- chord_pitch_classes_eq_iff.
    subst observed. split; intros H E; apply H; congruence.
  - intro Hc. unfold observe. rewrite Hc. split; [reflexivity|].
    apply chord_pitch_classes_sorted.
  - intro Hc. unfold observe. rewrite Hc. reflexivity.
  - intros w pcs_tuple Hw. unfold observe.
    apply chord_changed_false in Hw. rewrite Hw. reflexivity.
Qed.

(** The active set is still absent after a run exactly when the run
    started without one and every window was silent, and then nothing has
    changed. *)
Lemma walk_loop_silent chords_inst wins : forall w bass w' bass',
  walk_ok w ->
  walk_loop chords_inst w bass wins = Ok (w', bass') ->
  (prev_pcset w' = None <->
   prev_pcset w = None /\ Forall (fun win => window_pcs chords_inst win = []) wins) /\
  (prev_pcset w' = None -> w' = w /\ bass' = bass).
Proof.
  induction wins as [|win wins IH]; intros w bass w' bass' Hw H; simpl in H.
  - injection H as <- <-. split; [|intros; split; reflexivity].
    split; [intro; split; [assumption | constructor] | tauto].
  - destruct (walk_beat_ok w (fst win) (snd win) (window_pcs chords_inst win) Hw)
      as (w1 & ns & Hb & Hw1 & Hm).
    rewrite Hb in H. simpl in H.
    destruct (IH _ _ _ _ Hw1 H) as (IH1 & IH2).
    destruct (held_pcset (window_pcs chords_inst win) w) as [t|] eqn:Eh.
    + destruct Hm as (_ & _ & _ & Hp & _).
      assert (Hn : prev_pcset w' <> None) by (rewrite IH1, Hp; intros [? _]; discriminate).
      split; [|intro; contradiction].
      split; [intro; contradiction|].
      intros (Hp0 & Hall). inversion Hall as [|? ? Hsil _]; subst.
      unfold held_pcset in Eh. rewrite Hsil in Eh. congruence.
    + destruct Hm as (-> & ->). apply held_pcset_None in Eh. destruct Eh as (Hs & Hp0).
      rewrite app_nil_r in *.
      split; [|exact IH2].
      rewrite IH1. split.
      * intros (? & ?). split; [assumption | constructor; assumption].
      * intros (? & Hall). inversion Hall; subst. split; assumption.
Qed.

(** C3. A beat whose window is silent: with no active set the beat is
    skipped, no note is emitted and the walk is unchanged; with an active
    set the beat takes no reset and does what a beat observing that set
    does.  An active set is absent after a run from the initial walk
    exactly when every window so far was silent, and then the walk is
    still the initial one and the bass track is empty. *)
Theorem silent_beat_skips_or_sustains
    (w : Walk) (t0 t1 : Q) (chords_inst : Instrument) (wins : list (Q * Q)) :
  match prev_pcset w with
  | None => walk_beat w t0 t1 [] = Ok (w, [])
  | Some held =>
      chord_changed held w = false /\ observe held w = w /\
      walk_beat w t0 t1 [] = walk_beat w t0 t1 held
  end /\
  exists w' bass,
    walk_loop chords_inst walk_init [] wins = Ok (w', bass) /\
    (prev_pcset w' = None <->
     Forall (fun win => window_pcs chords_inst win = []) wins) /\
    (prev_pcset w' = None -> w' = walk_init /\ bass = []).
Proof.
  split.
  - destruct (prev_pcset w) as [held|] eqn:E.
    + assert (Hc : chord_changed held w = false) by (apply chord_changed_false; exact E).
      split; [exact Hc|]. split.
      * unfold observe. rewrite Hc. reflexivity.
      * unfold walk_beat, held_pcset. rewrite E. destruct held; reflexivity.
    + unfold walk_beat, held_pcset. rewrite E. reflexivity.
  - destruct (walk_loop_ok chords_inst wins walk_init [] walk_init_ok) as (w' & bass & H & _).
    exists w', bass. split; [exact H|].
    destruct (walk_loop_silent chords_inst wins _ _ _ _ walk_init_ok H) as (H1 & H2).
    split; [|exact H2].
    rewrite H1. simpl. tauto.
Qed.

(** C10. Along every run of the loop from the initial walk, a beat that
    is not skipped reads [order], a non-empty list, at an index within
    [0, len(order)): the lookup returns a pitch class and no beat
    raises; and the ping-pong step keeps an index that is in range in
    range, whatever the size of the chord. *)
Theorem walk_index_in_range
    (chords_inst : Instrument) (wins : list (Q * Q)) (win : Q * Q) :
  (forall w, 0 <= idx w < Z.of_nat (length (order w)) ->
             order (advance w) = order w /\
             0 <= idx (advance w) < Z.of_nat (length (order w))) /\
  exists w bass,
    walk_loop chords_inst walk_init [] wins = Ok (w, bass) /\
    match held_pcset (window_pcs chords_inst win) w with
    | None => True
    | Some pcs_tuple =>
        let wo := observe pcs_tuple w in
        order wo <> [] /\
        0 <= idx wo < Z.of_nat (length (order wo)) /\
        exists pc, py_getitem (order wo) (idx wo) = Ok pc /\ In pc (order wo)
    end.
Proof.
  split.
  - intros w Hi. split; [apply advance_fields | apply advance_in_range; exact Hi].
  - destruct (walk_loop_ok chords_inst wins walk_init [] walk_init_ok) as (w & bass & H & Hw).
    exists w, bass. split; [exact H|].
    destruct (walk_beat_ok w (fst win) (snd win) (window_pcs chords_inst win) Hw)
      as (w1 & ns & _ & _ & Hm).
    destruct (held_pcset (window_pcs chords_inst win) w) as [t|]; [|exact I].
    cbv zeta in *. destruct Hm as (Ho & Hne & Hi & _ & _ & pc & Hget & Hnth & _).
    split; [rewrite Ho; exact Hne|]. split; [exact Hi|].
    exists pc. split; [exact Hget|]. rewrite Ho.
    eapply nth_error_In. exact Hnth.
Qed.

Lemma reset_iff_sets_differ_witness :
  let ns1 := [mkNote 80 60 0 1; mkNote 80 72 0 1] in
  let ns2 := [mkNote 80 67 1 2; mkNote 80 64 1 2] in
  let w1 := mkWalk (Some [0]) [0] 0 false (Some 36) in
  let observed := chord_pitch_classes ns2 in
  held_pcset observed w1 = Some observed /\
  (chord_changed observed w1 = true <->
   ~ (forall pc, sounds ns1 pc <-> sounds ns2 pc)) /\
  (chord_changed observed w1 = true ->
   observe observed w1 = mkWalk (Some observed) observed 0 true (prev_midi w1) /\
   StronglySorted Z.lt observed) /\
  (chord_changed observed w1 = false -> observe observed w1 = w1) /\
  (forall w pcs_tuple, prev_pcset w = Some pcs_tuple -> observe pcs_tuple w = w).
Proof.
  apply (reset_iff_sets_differ walk_init
           (mkWalk (Some [0]) [0] 0 false (Some 36)) 0 1
           [mkNote 80 60 0 1; mkNote 80 72 0 1]
           [mkNote 80 67 1 2; mkNote 80 64 1 2]
           [mkNote VEL 36 0 (0 + (1 - 0) * (98 # 100))]).
  - vm_compute. discriminate.
  - vm_compute. discriminate.
  - reflexivity.
Defined.

(** ** The ping-pong sequence *)

Example ping_pong_3 :
  map (ping_pong 3) [0; 1; 2; 3; 4; 5; 6; 7; 8] = [0; 1; 2; 1; 0; 1; 2; 1; 0].
Proof. reflexivity. Qed.

Example ping_pong_2 : map (ping_pong 2) [0; 1; 2; 3; 4] = [0; 1; 0; 1; 0].
Proof. reflexivity. Qed.

Lemma succ_mod (n p : Z) :
  0 < p -> 0 <= n ->
  (n + 1) mod p = if n mod p + 1 =? p then 0 else n mod p + 1.
Proof.
  intros Hp Hn.
  pose proof (Z.mod_pos_bound n p Hp) as Hm.
  pose proof (Z.div_mod n p ltac:(lia)) as Hd.
  destruct (n mod p + 1 =? p) eqn:E.
  - apply Z.eqb_eq in E. symmetry.
    apply (Z.mod_unique (n + 1) p (n / p + 1) 0); [left; lia | nia].
  - apply Z.eqb_neq in E. symmetry.
    apply (Z.mod_unique (n + 1) p (n / p) (n mod p + 1)); [left; lia | nia].
Qed.

Lemma ping_pong_range k n : 1 <= k -> 0 <= ping_pong k n < k.
Proof.
  intro Hk. unfold ping_pong.
  destruct (k <=? 1) eqn:E; [lia|]. apply Z.leb_gt in E.
  pose proof (Z.mod_pos_bound n (2 * (k - 1)) ltac:(lia)) as Hm.
  destruct (n mod (2 * (k - 1)) <? k) eqn:E2;
    [apply Z.ltb_lt in E2 | apply Z.ltb_ge in E2]; lia.
Qed.

Lemma advance_on_ping_pong k n w :
  1 <= k -> 0 <= n ->
  Z.of_nat (length (order w)) = k ->
  on_ping_pong k n w -> on_ping_pong k (n + 1) (advance w).
Proof.
  intros Hk Hn Hlen (Hidx & Hdir).
  destruct (Z.eq_dec k 1) as [->|Hk1].
  - split; [|intro; lia].
    unfold ping_pong in *. simpl in *. unfold advance. rewrite Hlen, Hidx.
    destruct (dir_up w); reflexivity.
  - assert (Hk2 : 2 <= k) by lia. specialize (Hdir Hk2). cbv zeta in Hdir.
    pose proof (succ_mod n (2 * (k - 1)) ltac:(lia) Hn) as Hs.
    pose proof (Z.mod_pos_bound n (2 * (k - 1)) ltac:(lia)) as Hm.
    unfold on_ping_pong, ping_pong in *.
    replace (k <=? 1) with false in * by (symmetry; apply Z.leb_gt; lia).
    rewrite Hs. clear Hs.
    set (m := n mod (2 * (k - 1))) in *.
    unfold advance. rewrite Hlen.
    destruct Hdir as (Hup & Hdown).
    destruct (m <? k) eqn:Em; [apply Z.ltb_lt in Em | apply Z.ltb_ge in Em];
    destruct (m + 1 =? 2 * (k - 1)) eqn:Ew;
      [apply Z.eqb_eq in Ew | apply Z.eqb_neq in Ew
      |apply Z.eqb_eq in Ew | apply Z.eqb_neq in Ew];
    destruct (dir_up w) eqn:Ed;
    repeat match goal with
    | |- context [?a <? ?b] =>
        let E := fresh "E" in
        destruct (a <? b) eqn:E; [apply Z.ltb_lt in E | apply Z.ltb_ge in E]
    | |- context [?a <=? ?b] =>
        let E := fresh "E" in
        destruct (a <=? b) eqn:E; [apply Z.leb_le in E | apply Z.leb_gt in E]
    end; cbn [idx dir_up order];
    try (split; [lia | intros _; split; intro; try reflexivity; lia]);
    try (exfalso; lia);
    try (exfalso; assert (true = false) by (apply Hdown; lia); discriminate);
    try (exfalso; assert (false = true) by (apply Hup; lia); discriminate).
Qed.

Lemma observe_same pcs_tuple w :
  prev_pcset w = Some pcs_tuple -> observe pcs_tuple w = w.
Proof.
  intro H. unfold observe. apply chord_changed_false in H. rewrite H. reflexivity.
Qed.

Lemma held_pcset_sustained chord pcs w :
  chord <> [] -> prev_pcset w = Some chord ->
  pcs = chord \/ pcs = [] -> held_pcset pcs w = Some chord.
Proof.
  intros Hne Hp [->| ->]; unfold held_pcset.
  - destruct chord; [congruence | reflexivity].
  - exact Hp.
Qed.

Lemma on_ping_pong_transfer k n w w' :
  idx w' = idx w -> dir_up w' = dir_up w ->
  on_ping_pong k n w -> on_ping_pong k n w'.
Proof.
  unfold on_ping_pong. intros -> ->. tauto.
Qed.

Lemma walk_loop_ping_pong chords_inst chord wins : forall w bass n,
  chord <> [] ->
  prev_pcset w = Some chord -> order w = chord ->
  on_ping_pong (Z.of_nat (length chord)) (Z.of_nat n) w ->
  Forall (fun win => window_pcs chords_inst win = chord \/
                     window_pcs chords_inst win = []) wins ->
  exists w' new,
    walk_loop chords_inst w bass wins = Ok (w', bass ++ new) /\
    selected_indices chords_inst w wins =
      map (fun i => ping_pong (Z.of_nat (length chord)) (Z.of_nat i))
          (seq n (length wins)) /\
    map (fun x => pitch x mod 12) new =
      map (fun i => nth (Z.to_nat (ping_pong (Z.of_nat (length chord)) (Z.of_nat i)))
                        chord 0 mod 12)
          (seq n (length wins)).
Proof.
  induction wins as [|win wins IH]; intros w bass n Hne Hp Ho Hpp Hall.
  - exists w, []. simpl. rewrite app_nil_r. repeat split.
  - apply Forall_cons_iff in Hall. destruct Hall as (Hwin & Hall').
    set (k := Z.of_nat (length chord)) in *.
    assert (Hk : 1 <= k) by (subst k; destruct chord; [congruence | simpl; lia]).
    pose proof (ping_pong_range k (Z.of_nat n) Hk) as Hr.
    assert (Hok : walk_ok w).
    { unfold walk_ok. rewrite Hp. repeat split; try assumption.
      - destruct Hpp as (-> & _). lia.
      - destruct Hpp as (-> & _). fold k. lia. }
    pose proof (held_pcset_sustained chord _ w Hne Hp Hwin) as Hheld.
    destruct (walk_beat_ok w (fst win) (snd win) (window_pcs chords_inst win) Hok)
      as (w1 & ns & Hb & Hw1 & Hm).
    rewrite Hheld in Hm. cbv zeta in Hm. rewrite (observe_same chord w Hp) in Hm.
    destruct Hm as (_ & _ & Hi & Hp1 & Ho1 & pc & _ & Hnth & Hns & Hidx1 & Hdir1).
    assert (Hpp1 : on_ping_pong k (Z.of_nat (S n)) w1).
    { apply (on_ping_pong_transfer k _ (advance w)); [assumption..|].
      rewrite Nat2Z.inj_succ. apply advance_on_ping_pong; try assumption; try lia.
      rewrite Ho. reflexivity. }
    destruct (IH w1 (bass ++ ns) (S n) Hne Hp1 Ho1 Hpp1 Hall') as (w' & new & Hl & Hsel & Hpcs).
    exists w', (ns ++ new).
    split; [|split].
    + simpl. rewrite Hb. simpl. rewrite Hl, app_assoc. reflexivity.
    + simpl. rewrite Hb. unfold selected_index. rewrite Hheld.
      rewrite (observe_same chord w Hp). simpl. rewrite Hsel.
      destruct Hpp as (-> & _). reflexivity.
    + rewrite map_app, Hpcs. simpl. f_equal.
      rewrite Hns. simpl. rewrite pc_to_midi_near_class.
      destruct Hpp as (Hidx & _). rewrite Hidx in Hnth.
      rewrite (nth_error_nth _ _ 0 Hnth). reflexivity.
Qed.

Lemma walk_loop_first_beat chords_inst w0 chord win wins bass :
  chord <> [] -> window_pcs chords_inst win = chord ->
  walk_loop chords_inst w0 bass (win :: wins) =
    walk_loop chords_inst (observe chord w0) bass (win :: wins) /\
  selected_indices chords_inst w0 (win :: wins) =
    selected_indices chords_inst (observe chord w0) (win :: wins).
Proof.
  intros Hne Hwin.
  assert (Hh : forall w, held_pcset chord w = Some chord)
    by (intro w; unfold held_pcset; destruct chord; [congruence | reflexivity]).
  assert (Hoo : observe chord (observe chord w0) = observe chord w0)
    by (apply observe_same, observe_prev_pcset).
  simpl. unfold walk_beat, selected_index. rewrite Hwin, !Hh, Hoo.
  split; reflexivity.
Qed.

Lemma map_ext_seq {A} (f g : nat -> A) n len :
  (forall i, (n <= i < n + len)%nat -> f i = g i) ->
  map f (seq n len) = map g (seq n len).
Proof.
  intro H. apply map_ext_in. intros i Hi. apply in_seq in Hi. apply H. exact Hi.
Qed.

(** C1. Take a chord of [k] tones that comes in on a beat (the beat's
    window sounds the chord, which is not the active set), followed by
    beats whose windows sound the same chord or are silent.  Over these
    [N] beats the indices at which the walk reads [order] are the first
    [N] terms of the ping-pong sequence 0,1,...,k-1,k-2,...,1,0,1,...,
    and the pitch classes of the emitted notes are the chord tones at
    these indices; for [k = 1] every emitted note has the one pitch class
    of the chord. *)
Theorem ping_pong_index_sequence
    (chords_inst : Instrument) (w0 : Walk) (chord : list Z)
    (win : Q * Q) (wins : list (Q * Q)) :
  chord <> [] ->
  prev_pcset w0 <> Some chord ->
  window_pcs chords_inst win = chord ->
  Forall (fun win' => window_pcs chords_inst win' = chord \/
                      window_pcs chords_inst win' = []) wins ->
  let k := Z.of_nat (length chord) in
  let beats := seq 0 (S (length wins)) in
  exists w bass,
    walk_loop chords_inst w0 [] (win :: wins) = Ok (w, bass) /\
    selected_indices chords_inst w0 (win :: wins) =
      map (fun i => ping_pong k (Z.of_nat i)) beats /\
    map (fun x => pitch x mod 12) bass =
      map (fun i => nth (Z.to_nat (ping_pong k (Z.of_nat i))) chord 0) beats /\
    (k = 1 -> exists pc, chord = [pc] /\ Forall (fun x => pitch x mod 12 = pc) bass).
Proof.
  intros Hne Hchg Hwin Hall k beats.
  destruct (walk_loop_first_beat chords_inst w0 chord win wins [] Hne Hwin) as (E1 & E2).
  rewrite E1, E2.
  assert (Hk : 1 <= k) by (subst k; destruct chord; [congruence | simpl; lia]).
  assert (Hreset : observe chord w0 = mkWalk (Some chord) chord 0 true (prev_midi w0)).
  { unfold observe. apply chord_changed_true in Hchg. rewrite Hchg. reflexivity. }
  assert (Hpp : on_ping_pong k (Z.of_nat 0) (observe chord w0)).
  { rewrite Hreset. unfold on_ping_pong, ping_pong.
    change (Z.of_nat 0) with 0. cbn [idx dir_up].
    destruct (k <=? 1) eqn:E; [split; [reflexivity | intro; apply Z.leb_le in E; lia]|].
    apply Z.leb_gt in E. rewrite Z.mod_0_l by lia.
    replace (0 <? k) with true by (symmetry; apply Z.ltb_lt; lia).
    split; [reflexivity | intros _; split; lia]. }
  destruct (walk_loop_ping_pong chords_inst chord (win :: wins) (observe chord w0) [] 0%nat
              Hne (observe_prev_pcset _ _) ltac:(rewrite Hreset; reflexivity) Hpp
              ltac:(constructor; [left; exact Hwin | exact Hall]))
    as (w & new & Hl & Hsel & Hpcs).
  exists w, new. simpl app in Hl.
  assert (Hrange : forall i, 0 <= nth (Z.to_nat (ping_pong k (Z.of_nat i))) chord 0 < 12).
  { intro i. apply (chord_pitch_classes_range (notes_overlapping chords_inst (fst win) (snd win))).
    fold (window_pcs chords_inst win). rewrite Hwin.
    apply nth_In. pose proof (ping_pong_range k (Z.of_nat i) Hk). subst k. lia. }
  assert (Hpcs' : map (fun x => pitch x mod 12) new =
                  map (fun i => nth (Z.to_nat (ping_pong k (Z.of_nat i))) chord 0) beats).
  { rewrite Hpcs. apply map_ext_seq. intros i _. apply Z.mod_small, Hrange. }
  split; [exact Hl|]. split; [exact Hsel|]. split; [exact Hpcs'|].
  intro Hk1. destruct chord as [|pc [|pc' chord]]; [congruence | | subst k; simpl in Hk1; lia].
  exists pc. split; [reflexivity|].
  assert (Hall2 : Forall (fun v => v = pc) (map (fun x => pitch x mod 12) new)).
  { rewrite Hpcs'. apply Forall_forall. intros v Hv. apply in_map_iff in Hv.
    destruct Hv as (i & <- & _). subst k. reflexivity. }
  rewrite Forall_map in Hall2. exact Hall2.
Qed.

Lemma ping_pong_index_sequence_witness :
  let chord := [0; 4; 7] in
  let wins := [(1%Q, 2%Q); (2%Q, 3%Q); (3%Q, 4%Q)] in
  let k := Z.of_nat (length chord) in
  let beats := seq 0 (S (length wins)) in
  exists w bass,
    walk_loop example_chords walk_init [] ((0%Q, 1%Q) :: wins) = Ok (w, bass) /\
    selected_indices example_chords walk_init ((0%Q, 1%Q) :: wins) =
      map (fun i => ping_pong k (Z.of_nat i)) beats /\
    map (fun x => pitch x mod 12) bass =
      map (fun i => nth (Z.to_nat (ping_pong k (Z.of_nat i))) chord 0) beats /\
    (k = 1 -> exists pc, chord = [pc] /\ Forall (fun x => pitch x mod 12 = pc) bass).
Proof.
  apply (ping_pong_index_sequence example_chords walk_init [0; 4; 7]
           (0%Q, 1%Q) [(1%Q, 2%Q); (2%Q, 3%Q); (3%Q, 4%Q)]).
  - discriminate.
  - discriminate.
  - reflexivity.
  - repeat (apply Forall_cons; [left; reflexivity|]). apply Forall_nil.
Defined.

(** The scenario of the specification: four beats of C major, then three
    of D minor. *)
Example walk_of_example_score :
  exists pm,
    add_bassline example_score "Piano, Chords:" = Ok pm /\
    map (fun x => pitch x mod 12) (notes (last (instruments pm) example_chords)) =
      [0; 4; 7; 4; 2; 5; 9] /\
    map pitch (notes (last (instruments pm) example_chords)) =
      [36; 40; 43; 40; 38; 41; 45].
Proof.
  eexists. split; [vm_compute; reflexivity|]. split; reflexivity.
Qed.

(** ** Overlap of a note with a window *)

Lemma overlaps_iff t0 t1 n :
  overlaps t0 t1 n = true <-> (start n < t1)%Q /\ (t0 < end_ n)%Q.
Proof.
  unfold overlaps. rewrite andb_true_iff, !Qltb_lt. reflexivity.
Qed.

Lemma notes_overlapping_In chords_inst t0 t1 n :
  In n (notes_overlapping chords_inst t0 t1) <->
  In n (notes chords_inst) /\ (start n < t1)%Q /\ (t0 < end_ n)%Q.
Proof.
  unfold notes_overlapping. rewrite filter_In, overlaps_iff. reflexivity.
Qed.

(** C6, as the program has it.  The only filter between a note and a
    window is the overlap test [note.start < window.end and note.end >
    window.start]; there is no test of [start < end].  A pitch class is in
    the set of a window exactly when some note passing the test has it, so
    every note passing the test contributes; a note with [start >= end]
    passes it exactly for the windows with
    [window.start < note.end <= note.start < window.end]; and the walk
    over any list of windows returns, whatever the notes are. *)
Theorem overlap_is_the_only_filter (chords_inst : Instrument) (win : Q * Q) :
  (forall pc,
     In pc (window_pcs chords_inst win) <->
     exists n, In n (notes chords_inst) /\
               (start n < snd win)%Q /\ (fst win < end_ n)%Q /\
               pc = pitch n mod 12) /\
  (forall n,
     In n (notes chords_inst) -> (end_ n <= start n)%Q ->
     (In n (notes_overlapping chords_inst (fst win) (snd win)) <->
      (fst win < end_ n)%Q /\ (end_ n <= start n)%Q /\ (start n < snd win)%Q)) /\
  (forall wins, exists w bass,
     walk_loop chords_inst walk_init [] wins = Ok (w, bass)).
Proof.
  split; [|split].
  - intro pc. unfold window_pcs. rewrite chord_pitch_classes_In. unfold sounds.
    split.
    + intros (n & Hn & ->). apply notes_overlapping_In in Hn.
      exists n. tauto.
    + intros (n & Hn & H1 & H2 & ->). exists n. split; [|reflexivity].
      apply notes_overlapping_In. tauto.
  - intros n Hn Hbad. rewrite notes_overlapping_In. tauto.
  - intro wins.
    destruct (walk_loop_ok chords_inst wins walk_init [] walk_init_ok) as (w & bass & H & _).
    exists w, bass. exact H.
Qed.

(** C6, counterexample: a note that ends before it starts, and a note of
    length zero, each inside the window from 0 to 4, contribute their pitch
    classes. *)
Lemma malformed_note_contributes :
  let reversed := mkNote 80 61 3 1 in
  let empty := mkNote 80 64 2 2 in
  (end_ reversed <= start reversed)%Q /\
  (end_ empty <= start empty)%Q /\
  window_pcs (mkInstrument 0 "Piano, Chords:" [reversed]) (0%Q, 4%Q) = [1] /\
  window_pcs (mkInstrument 0 "Piano, Chords:" [empty]) (0%Q, 4%Q) = [4] /\
  window_pcs (mkInstrument 0 "Piano, Chords:" [mkNote 80 60 0 4; reversed; empty])
             (0%Q, 4%Q) = [0; 1; 4].
Proof.
  cbv zeta. repeat split; try reflexivity; discriminate.
Qed.

(** ** Track Emitter *)

Lemma walk_loop_active chords_inst wins : forall w bass,
  walk_ok w -> prev_pcset w <> None ->
  exists w' new,
    walk_loop chords_inst w bass wins = Ok (w', bass ++ new) /\
    Forall2 emitted_for new wins.
Proof.
  induction wins as [|win wins IH]; intros w bass Hw Hp.
  - exists w, []. simpl. rewrite app_nil_r. split; [reflexivity | constructor].
  - destruct (walk_beat_ok w (fst win) (snd win) (window_pcs chords_inst win) Hw)
      as (w1 & ns & Hb & Hw1 & Hm).
    destruct (held_pcset (window_pcs chords_inst win) w) as [t|] eqn:Eh.
    + cbv zeta in Hm.
      destruct Hm as (_ & _ & _ & Hp1 & _ & pc & _ & _ & Hns & _).
      destruct (IH w1 (bass ++ ns) Hw1 ltac:(congruence)) as (w' & new & Hl & Hf).
      exists w', (ns ++ new). split.
      * simpl. rewrite Hb. simpl. rewrite Hl, app_assoc. reflexivity.
      * rewrite Hns. simpl. constructor; [|exact Hf].
        unfold emitted_for. simpl. repeat split; try reflexivity.
        -- ring.
        -- apply pc_to_midi_near_bounds.
        -- apply pc_to_midi_near_bounds.
    + apply held_pcset_None in Eh. destruct Eh as (_ & Eh). contradiction.
Qed.

Lemma walk_loop_emits chords_inst wins : forall w bass,
  walk_ok w -> prev_pcset w = None ->
  exists w' new,
    walk_loop chords_inst w bass wins = Ok (w', bass ++ new) /\
    Forall2 emitted_for new (drop_silent chords_inst wins).
Proof.
  induction wins as [|win wins IH]; intros w bass Hw Hp.
  - exists w, []. simpl. rewrite app_nil_r. split; [reflexivity | constructor].
  - simpl drop_silent.
    destruct (window_pcs chords_inst win) as [|p pcs] eqn:Epcs.
    + destruct (IH w bass Hw Hp) as (w' & new & Hl & Hf).
      exists w', new. split; [|exact Hf].
      simpl. rewrite Epcs. unfold walk_beat, held_pcset. rewrite Hp. simpl.
      rewrite app_nil_r. exact Hl.
    + destruct (walk_beat_ok w (fst win) (snd win) (p :: pcs) Hw)
        as (w1 & ns & Hb & Hw1 & Hm).
      simpl held_pcset in Hm. cbv zeta in Hm.
      destruct Hm as (_ & _ & _ & Hp1 & _ & pc & _ & _ & Hns & _).
      destruct (walk_loop_active chords_inst wins w1 (bass ++ ns) Hw1 ltac:(congruence))
        as (w' & new & Hl & Hf).
      exists w', (ns ++ new). split.
      * simpl. rewrite Epcs, Hb. simpl. rewrite Hl, app_assoc. reflexivity.
      * rewrite Hns. simpl. constructor; [|exact Hf].
        unfold emitted_for. simpl. repeat split; try reflexivity.
        -- ring.
        -- apply pc_to_midi_near_bounds.
        -- apply pc_to_midi_near_bounds.
Qed.



Lemma replace_nth_length {A} (l : list A) i x :
  length (replace_nth l i x) = length l.
Proof.
  revert i. induction l as [|y l IH]; intros [|i]; simpl; try reflexivity.
  rewrite IH. reflexivity.
Qed.

Lemma replace_nth_same {A} (l : list A) i x y :
  nth_error l i = Some y -> nth_error (replace_nth l i x) i = Some x.
Proof.
  revert i. induction l as [|z l IH]; intros [|i] H; simpl in *; try discriminate.
  - reflexivity.
  - apply IH. exact H.
Qed.

Lemma replace_nth_other {A} (l : list A) i j x :
  i <> j -> nth_error (replace_nth l i x) j = nth_error l j.
Proof.
  revert i j. induction l as [|z l IH]; intros [|i] [|j] H; simpl; try reflexivity.
  - congruence.
  - apply IH. congruence.
Qed.

Lemma find_from_nth p l : forall i c inst,
  find_from p l i = Some (c, inst) ->
  (i <= c)%nat /\ nth_error l (c - i) = Some inst /\ p inst = true /\
  (forall j y, (j < c - i)%nat -> nth_error l j = Some y -> p y = false).
Proof.
  induction l as [|x l IH]; intros i c inst H; simpl in H; [discriminate|].
  destruct (p x) eqn:E.
  - injection H as <- <-. rewrite Nat.sub_diag. repeat split; try assumption; lia.
  - destruct (IH _ _ _ H) as (Hle & Hn & Hp & Hfirst).
    replace (c - i)%nat with (S (c - S i)) by lia.
    repeat split; try assumption; try lia.
    intros [|j] y Hj Hy; simpl in Hy.
    + congruence.
    + apply (Hfirst j); [lia | exact Hy].
Qed.


(** ** Average simultaneity *)

Lemma linspace_length a b num : length (linspace a b num) = num.
Proof.
  destruct num as [|[|m]]; simpl; try reflexivity.
  rewrite length_app, length_map, length_seq. simpl. lia.
Qed.

Lemma py_min_spec x l :
  In (py_min x l) (x :: l) /\ forall y, In y (x :: l) -> (py_min x l <= y)%Q.
Proof.
  unfold py_min. revert x. induction l as [|z l IH]; intro x; simpl.
  - split; [left; reflexivity|]. intros y [<-|[]]. apply Qle_refl.
  - destruct (Qltb z x) eqn:E.
    + apply Qltb_lt in E. destruct (IH z) as (Hin & Hle). split.
      * simpl in Hin. tauto.
      * intros y [<-|[<-|Hy]].
        -- apply Qle_trans with z; [apply Hle; left; reflexivity | apply Qlt_le_weak, E].
        -- apply Hle. left. reflexivity.
        -- apply Hle. right. exact Hy.
    + apply Qltb_ge in E. destruct (IH x) as (Hin & Hle). split.
      * simpl in Hin. tauto.
      * intros y [<-|[<-|Hy]].
        -- apply Hle. left. reflexivity.
        -- apply Qle_trans with x; [apply Hle; left; reflexivity | exact E].
        -- apply Hle. right. exact Hy.
Qed.

Lemma py_max_spec x l :
  In (py_max x l) (x :: l) /\ forall y, In y (x :: l) -> (y <= py_max x l)%Q.
Proof.
  unfold py_max. revert x. induction l as [|z l IH]; intro x; simpl.
  - split; [left; reflexivity|]. intros y [<-|[]]. apply Qle_refl.
  - destruct (Qltb x z) eqn:E.
    + apply Qltb_lt in E. destruct (IH z) as (Hin & Hle). split.
      * simpl in Hin. tauto.
      * intros y [<-|[<-|Hy]].
        -- apply Qle_trans with z; [apply Qlt_le_weak, E | apply Hle; left; reflexivity].
        -- apply Hle. left. reflexivity.
        -- apply Hle. right. exact Hy.
    + apply Qltb_ge in E. destruct (IH x) as (Hin & Hle). split.
      * simpl in Hin. tauto.
      * intros y [<-|[<-|Hy]].
        -- apply Hle. left. reflexivity.
        -- apply Qle_trans with x; [exact E | apply Hle; left; reflexivity].
        -- apply Hle. right. exact Hy.
Qed.

Lemma earliest_start_spec ns t0 :
  earliest_start ns = Ok t0 ->
  In t0 (map start ns) /\ forall n, In n ns -> (t0 <= start n)%Q.
Proof.
  destruct ns as [|n ns]; simpl; [discriminate|]. intro H. injection H as <-.
  destruct (py_min_spec (start n) (map start ns)) as (Hin & Hle).
  split; [exact Hin|]. intros n' Hn'. apply Hle.
  change (In (start n') (map start (n :: ns))). apply in_map. exact Hn'.
Qed.

Lemma latest_end_spec ns t1 :
  latest_end ns = Ok t1 ->
  In t1 (map end_ ns) /\ forall n, In n ns -> (end_ n <= t1)%Q.
Proof.
  destruct ns as [|n ns]; simpl; [discriminate|]. intro H. injection H as <-.
  destruct (py_max_spec (end_ n) (map end_ ns)) as (Hin & Hle).
  split; [exact Hin|]. intros n' Hn'. apply Hle.
  change (In (end_ n') (map end_ (n :: ns))). apply in_map. exact Hn'.
Qed.

Lemma Qltb_Qeq a a' b b' : (a == a')%Q -> (b == b')%Q -> Qltb a b = Qltb a' b'.
Proof.
  intros Ha Hb.
  destruct (Qltb a b) eqn:E1, (Qltb a' b') eqn:E2; try reflexivity.
  - apply Qltb_lt in E1. apply Qltb_ge in E2. rewrite Ha, Hb in E1.
    exfalso. revert E2. apply Qlt_not_le. exact E1.
  - apply Qltb_ge in E1. apply Qltb_lt in E2. rewrite Ha, Hb in E1.
    exfalso. revert E1. apply Qlt_not_le. exact E2.
Qed.

Lemma count_overlapping_Qeq ns a a' b b' :
  (a == a')%Q -> (b == b')%Q -> count_overlapping ns a b = count_overlapping ns a' b'.
Proof.
  intros Ha Hb. unfold count_overlapping. do 2 f_equal.
  apply filter_ext. intro n. unfold overlaps.
  rewrite (Qltb_Qeq (start n) (start n) b b' (Qeq_refl _) Hb).
  rewrite (Qltb_Qeq a a' (end_ n) (end_ n) Ha (Qeq_refl _)).
  reflexivity.
Qed.

Lemma count_overlapping_nonneg ns a b : 0 <= count_overlapping ns a b.
Proof. unfold count_overlapping. lia. Qed.


Lemma Forall2_map_seq (p f : nat -> Q) n len :
  (forall i, (f i == p i)%Q) ->
  Forall2 (fun x i => (x == p i)%Q) (map f (seq n len)) (seq n len).
Proof.
  intro H. revert n. induction len as [|len IH]; intro n; simpl; constructor.
  - apply H.
  - apply IH.
Qed.

Lemma inject_Z_of_nat_S_nonzero m : ~ (inject_Z (Z.of_nat (S m)) == 0)%Q.
Proof.
  change 0%Q with (inject_Z 0). rewrite inject_Z_injective. lia.
Qed.

Lemma fold_slice_counts_nonneg ns wl : forall acc,
  (0 <= acc)%Q ->
  (0 <= fold_left (fun tot ab => tot + inject_Z (count_overlapping ns (fst ab) (snd ab)))
                  wl acc)%Q.
Proof.
  induction wl as [|ab wl IH]; intros acc Hacc; simpl; [exact Hacc|].
  apply IH.
  setoid_replace 0%Q with (0 + 0)%Q by ring.
  apply Qplus_le_compat; [exact Hacc|].
  change 0%Q with (inject_Z 0). rewrite <- Zle_Qle. apply count_overlapping_nonneg.
Qed.

Lemma avg_simultaneity_returns inst slices :
  2 <= slices ->
  exists q, avg_simultaneity inst slices = Ok q /\ (0 <= q)%Q.
Proof.
  intro Hs. unfold avg_simultaneity.
  destruct (notes inst) as [|n ns]; [exists 0%Q; split; [reflexivity | apply Qle_refl]|].
  cbn [earliest_start latest_end bind].
  destruct (Qle_bool _ _); [exists 0%Q; split; [reflexivity | apply Qle_refl]|].
  unfold np_linspace.
  replace (slices <? 0) with false by (symmetry; apply Z.ltb_ge; lia).
  cbn [bind]. cbv zeta. rewrite linspace_length. unfold py_truediv.
  replace (Z.of_nat (Z.to_nat slices) - 1 =? 0) with false
    by (symmetry; apply Z.eqb_neq; lia).
  eexists. split; [reflexivity|].
  apply Qle_shift_div_l.
  - change 0%Q with (inject_Z 0). rewrite <- Zlt_Qlt. lia.
  - rewrite Qmult_0_l. apply fold_slice_counts_nonneg. apply Qle_refl.
Qed.

Lemma default_slices_ge_2 : 2 <= default_slices.
Proof. unfold default_slices. lia. Qed.

Lemma score_of_spec inst :
  avg_simultaneity inst default_slices = Ok (score_of inst) /\ (0 <= score_of inst)%Q.
Proof.
  unfold score_of.
  destruct (avg_simultaneity_returns inst default_slices default_slices_ge_2) as (q & -> & Hq).
  split; [reflexivity | exact Hq].
Qed.

(** The scan for the most polyphonic instrument: what it returns, given
    what it holds when it reaches the instruments [l], which start at
    position [i] of the list. *)
Lemma most_polyphonic_from_spec l : forall i best best_score,
  exists found,
    most_polyphonic_from l i best best_score = Ok found /\
    ((found = best /\
      forall x, In x l -> has_notes x = true -> (score_of x <= best_score)%Q) \/
     (exists c inst,
        found = Some (c, inst) /\ (i <= c)%nat /\
        nth_error l (c - i) = Some inst /\ has_notes inst = true /\
        (best_score < score_of inst)%Q /\
        (forall j x, nth_error l j = Some x -> has_notes x = true ->
                     (score_of x <= score_of inst)%Q /\
                     ((j < c - i)%nat -> (score_of x < score_of inst)%Q)))).
Proof.
  induction l as [|y l IH]; intros i best best_score; simpl.
  - exists best. split; [reflexivity|]. left. split; [reflexivity | intros ? []].
  - destruct (score_of_spec y) as (-> & _). cbn [bind].
    destruct (Qltb best_score (score_of y) && has_notes y) eqn:E.
    + apply andb_true_iff in E. destruct E as (Eb & Eh). apply Qltb_lt in Eb.
      destruct (IH (S i) (Some (i, y)) (score_of y)) as (found & Hf & [(-> & Hall)|Hex]).
      * exists (Some (i, y)). split; [exact Hf|]. right.
        exists i, y. rewrite Nat.sub_diag. repeat split; try assumption; try lia.
        destruct j as [|j]; simpl in H; [injection H as <-; apply Qle_refl|].
        apply Hall; [eapply nth_error_In; exact H | exact H0].
      * destruct Hex as (c & inst & -> & Hle & Hn & Hh & Hlt & Hmax).
        exists (Some (c, inst)). split; [exact Hf|]. right.
        exists c, inst. replace (c - i)%nat with (S (c - S i)) by lia.
        repeat split; try assumption; try lia.
        -- apply Qlt_trans with (score_of y); assumption.
        -- destruct j as [|j]; simpl in H.
           ++ injection H as <-. apply Qlt_le_weak. exact Hlt.
           ++ apply (Hmax j x H H0).
        -- intro Hj. destruct j as [|j]; simpl in H.
           ++ injection H as <-. exact Hlt.
           ++ apply (Hmax j x H H0). lia.
    + destruct (IH (S i) best best_score) as (found & Hf & [(-> & Hall)|Hex]).
      * exists best. split; [exact Hf|]. left. split; [reflexivity|].
        intros x [<-|Hx] Hh; [|apply Hall; assumption].
        rewrite Hh, andb_true_r in E. apply Qltb_ge in E. exact E.
      * destruct Hex as (c & inst & -> & Hle & Hn & Hh & Hlt & Hmax).
        exists (Some (c, inst)). split; [exact Hf|]. right.
        exists c, inst. replace (c - i)%nat with (S (c - S i)) by lia.
        repeat split; try assumption; try lia.
        -- destruct j as [|j]; simpl in H.
           ++ injection H as <-. rewrite H0, andb_true_r in E. apply Qltb_ge in E.
              apply Qle_trans with best_score; [exact E | apply Qlt_le_weak; exact Hlt].
           ++ apply (Hmax j x H H0).
        -- intro Hj. destruct j as [|j]; simpl in H.
           ++ injection H as <-. rewrite H0, andb_true_r in E. apply Qltb_ge in E.
              apply Qle_lt_trans with best_score; assumption.
           ++ apply (Hmax j x H H0). lia.
Qed.

(** ** Track Selector *)



Example lower_example : lower "Piano, CHORDS:Voice [2]" = "piano, chords:voice [2]"%string.
Proof. reflexivity. Qed.

(** The capital letters of Latin-1 are lowered as well: E acute, code
    point 201, becomes code point 233; the multiplication sign 215 and the
    sharp s 223 stay. *)
Example lower_latin1 :
  lower (String (ascii_of_nat 201) "COLE") = String (ascii_of_nat 233) "cole" /\
  lower (String (ascii_of_nat 215) (String (ascii_of_nat 223) "Z")) =
    String (ascii_of_nat 215) (String (ascii_of_nat 223) "z").
Proof. split; reflexivity. Qed.





Lemma find_chords_inst_nth insts chord_instr_name_prefix c inst :
  find_chords_inst insts chord_instr_name_prefix = Ok (Some (c, inst)) ->
  nth_error insts c = Some inst.
Proof.
  unfold find_chords_inst. intro H.
  destruct (find_from (name_has_prefix _) insts 0) as [[c1 i1]|] eqn:E1.
  - injection H as <- <-. apply find_from_nth in E1. rewrite Nat.sub_0_r in E1. tauto.
  - destruct (find_from name_mentions_chords insts 0) as [[c2 i2]|] eqn:E2.
    + injection H as <- <-. apply find_from_nth in E2. rewrite Nat.sub_0_r in E2. tauto.
    + destruct (most_polyphonic_from_spec insts 0 None (-1 # 1)) as (found & Hf & Hcase).
      rewrite Hf in H. injection H as ->.
      destruct Hcase as [(Hb & _)|(c' & inst' & Hfound & _ & Hn & _)]; [discriminate|].
      injection Hfound as <- <-. rewrite Nat.sub_0_r in Hn. exact Hn.
Qed.

(** ** [add_bassline] as a whole *)





Lemma has_notes_true x : notes x <> [] <-> has_notes x = true.
Proof.
  unfold has_notes. destruct (notes x); split; congruence.
Qed.




(** The velocities of the harmony track after the pass: 80 x 0.7 = 56. *)
Example chord_velocities_after_pass :
  exists pm',
    add_bassline example_score "Piano, Chords:" = Ok pm' /\
    map (fun inst => map velocity (notes inst)) (instruments pm') =
      [[90]; [56; 56; 56; 56; 56; 56]; [85; 85; 85; 85; 85; 85; 85]].
Proof.
  eexists. split; [vm_compute; reflexivity | reflexivity].
Qed.

(** [CHORD_VEL_SCALE] is the binary64 quotient of 7 by 10, within 2^-54 of
    seven tenths. *)
Example CHORD_VEL_SCALE_is_0_7 :
  SFdiv prec emax (S754_finite false 7 0) (S754_finite false 10 0) = CHORD_VEL_SCALE /\
  ((7 # 10) - (1 # 2 ^ 54) <= 6305039478318694 # 2 ^ 53 <= 7 # 10)%Q.
Proof. split; [reflexivity | split; vm_compute; discriminate]. Qed.

Example scaled_velocity_examples :
  map (fun v => scaled_velocity v CHORD_VEL_SCALE) [0; 1; 5; 15; 45; 100; 127; 200] =
  map Ok [1; 1; 4; 10; 31; 70; 89; 127].
Proof. reflexivity. Qed.

(** ** Beat Grid Builder *)









Lemma effective_note_density_cases pm :
  ((exists ts rest, time_signature_changes pm = ts :: rest /\ denominator ts = 2) ->
   effective_note_density pm = NOTE_DENSITY * 2) /\
  (~ (exists ts rest, time_signature_changes pm = ts :: rest /\ denominator ts = 2) ->
   effective_note_density pm = NOTE_DENSITY).
Proof.
  unfold effective_note_density. split.
  - intros (ts & rest & -> & ->). reflexivity.
  - intro H. destruct (time_signature_changes pm) as [|ts rest]; [reflexivity|].
    destruct (denominator ts =? 2) eqn:E; [|reflexivity].
    exfalso. apply H. exists ts, rest. split; [reflexivity | apply Z.eqb_eq; exact E].
Qed.

(** A grid in 2/2: the density is 2 and every beat is halved. *)
Example beat_grid_cut_time :
  exists grid,
    beat_grid (mkPrettyMIDI [example_chords] [mkTimeSignature 2 2 0]
                            [0%Q; 1%Q; 3%Q] [0%Q]) example_chords = Ok grid /\
    Forall2 Qeq grid [0; 1 # 2; 1; 2; 3]%Q.
Proof.
  eexists. split; [vm_compute; reflexivity|].
  repeat (constructor; [reflexivity|]). constructor.
Qed.

(** The corner the subdivision does not cover: with no boundary at all
    and a density above 1, [beats[-1]] raises. *)
Example subdivide_empty_grid : subdivide [] 2 = Raise IndexError.
Proof. reflexivity. Qed.

(** * Further properties of the program *)

(** ** Nearest octave placement *)

Lemma min_by_key_In key best l : In (min_by_key key best l) (best :: l).
Proof.
  revert best. induction l as [|m l IH]; intro best; simpl.
  - left. reflexivity.
  - destruct (IH (if key m <? key best then m else best)) as [H|H].
    + destruct (key m <? key best); [right; left | left]; exact H.
    + right. right. exact H.
Qed.

Lemma min_by_key_least key l : forall best x,
  In x (best :: l) -> key (min_by_key key best l) <= key x.
Proof.
  induction l as [|m l IH]; intros best x Hx; simpl.
  - destruct Hx as [<-|[]]. lia.
  - destruct (key m <? key best) eqn:E;
      [apply Z.ltb_lt in E | apply Z.ltb_ge in E].
    + destruct Hx as [Hx|[Hx|Hx]]; subst.
      * specialize (IH m m (or_introl eq_refl)). lia.
      * apply IH. left. reflexivity.
      * apply IH. right. exact Hx.
    + destruct Hx as [Hx|[Hx|Hx]]; subst.
      * apply IH. left. reflexivity.
      * specialize (IH best best (or_introl eq_refl)). lia.
      * apply IH. right. exact Hx.
Qed.

Lemma candidates_In pc m :
  In m (candidates pc) <-> exists o, 0 <= o <= 9 /\ m = pc + 12 * o.
Proof.
  unfold candidates. rewrite in_map_iff. split.
  - intros (o & <- & Ho). apply in_seq in Ho. exists (Z.of_nat o). split; [lia | reflexivity].
  - intros (o & Ho & ->). exists (Z.to_nat o). split; [f_equal; lia | apply in_seq; lia].
Qed.

Lemma raise_into_range_id chosen : C1 <= chosen -> raise_into_range chosen = chosen.
Proof.
  intro H. funelim (raise_into_range chosen); [lia | reflexivity].
Qed.

Lemma lower_into_range_id chosen : chosen <= C3 -> lower_into_range chosen = chosen.
Proof.
  intro H. funelim (lower_into_range chosen); [lia | reflexivity].
Qed.

Lemma mod12_zero x : x mod 12 = 0 -> exists k, x = 12 * k.
Proof.
  intro H. exists (x / 12). pose proof (Z.div_mod x 12 ltac:(lia)). lia.
Qed.

Lemma pc_to_midi_near_is_nearest_in_range_aux (pc : Z) (ref_midi : option Z) (p : Z) :
  0 <= pc < 12 ->
  C1 <= p <= C3 ->
  p mod 12 = pc ->
  let base := match ref_midi with None => 36 | Some r => r end in
  Z.abs (pc_to_midi_near pc ref_midi - base) <= Z.abs (p - base).
Proof.
  intros Hpc Hp Hclass base.
  unfold pc_to_midi_near. fold base.
  pose proof (candidates_class pc) as Hcls.
  destruct (candidates pc) as [|m0 l] eqn:Ecand; [discriminate|].
  set (key := fun m => Z.abs (m - base)).
  set (c := min_by_key key m0 l).
  assert (Hin : In c (candidates pc)) by (rewrite Ecand; apply min_by_key_In).
  assert (Hleast : forall x, In x (candidates pc) -> key c <= key x)
    by (intros x Hx; rewrite Ecand in Hx; apply min_by_key_least; exact Hx).
  clearbody c. clear Ecand Hcls m0 l.
  apply candidates_In in Hin. destruct Hin as (oc & Hoc & Hc).
  assert (Hpk : exists k, p = pc + 12 * k).
  { destruct (mod12_zero (p - pc)) as (k & Hk).
    - rewrite <- Hclass. rewrite Zminus_mod, Z.mod_mod, Z.sub_diag by lia. reflexivity.
    - exists k. lia. }
  destruct Hpk as (kp & Hkp).
  unfold C1, C3 in Hp.
  destruct (Z_lt_dec c C1) as [Hlow|Hnlow].
  - destruct (raise_into_range_spec c) as (Hr1 & Hr2 & Hr3).
    apply mod12_zero in Hr2. destruct Hr2 as (kr & Hkr).
    assert (Hnext : key c <= key (c + 12))
      by (apply Hleast, candidates_In; exists (oc + 1); unfold C1 in *; lia).
    rewrite lower_into_range_id by (unfold C1, C3 in *; lia).
    unfold key in Hnext. unfold C1 in *. lia.
  - rewrite raise_into_range_id by lia.
    destruct (Z_gt_dec c C3) as [Hhigh|Hnhigh].
    + destruct (lower_into_range_spec c) as (Hl1 & Hl2 & Hl3).
      apply mod12_zero in Hl2. destruct Hl2 as (kl & Hkl).
      assert (Hprev : key c <= key (c - 12))
        by (apply Hleast, candidates_In; exists (oc - 1); unfold C3 in *; lia).
      unfold key in Hprev. unfold C3 in *. lia.
    + rewrite lower_into_range_id by lia.
      apply (Hleast p). apply candidates_In. exists kp. lia.
Qed.

Lemma pc_to_midi_near_leap pc ref :
  0 <= pc < 12 -> C1 <= ref <= C3 ->
  Z.abs (pc_to_midi_near pc (Some ref) - ref) <= 11.
Proof.
  intros Hpc Href.
  pose proof (Z.mod_pos_bound (ref - pc) 12 ltac:(lia)) as Hm.
  pose proof (Z.div_mod (ref - pc) 12 ltac:(lia)) as Hd.
  remember (ref - (ref - pc) mod 12) as q eqn:Eq.
  assert (Hq : q mod 12 = pc).
  { replace q with (pc + ((ref - pc) / 12) * 12) by lia.
    rewrite Z.mod_add by lia. apply Z.mod_small. exact Hpc. }
  destruct (Z_lt_dec q C1) as [Hlt|Hge].
  - assert (Hq' : (q + 12) mod 12 = pc).
    { replace (q + 12) with (q + 1 * 12) by lia. rewrite Z.mod_add by lia. exact Hq. }
    assert (Hin : C1 <= q + 12 <= C3) by (unfold C1, C3 in *; lia).
    pose proof (pc_to_midi_near_is_nearest_in_range_aux pc (Some ref) (q + 12) Hpc Hin Hq')
      as H.
    cbv beta iota zeta in H. unfold C1, C3 in *. lia.
  - assert (Hin : C1 <= q <= C3) by (unfold C1, C3 in *; lia).
    pose proof (pc_to_midi_near_is_nearest_in_range_aux pc (Some ref) q Hpc Hin Hq) as H.
    cbv beta iota zeta in H. lia.
Qed.

(** X1.  The pitch returned for a pitch class in [0,12) is a nearest one
    to the reference among the pitches of that class in [C1, C3]: no pitch
    of the class within the range is closer to the reference.  When the
    reference itself lies in the range, as every previous bass pitch does,
    the returned pitch is less than an octave away from it. *)
Theorem pc_to_midi_near_is_nearest_in_range (pc : Z) (ref_midi : option Z) (p : Z) :
  0 <= pc < 12 ->
  C1 <= p <= C3 ->
  p mod 12 = pc ->
  let base := match ref_midi with None => 36 | Some r => r end in
  Z.abs (pc_to_midi_near pc ref_midi - base) <= Z.abs (p - base) /\
  (C1 <= base <= C3 -> Z.abs (pc_to_midi_near pc ref_midi - base) <= 11).
Proof.
  intros Hpc Hp Hclass base. split.
  - apply pc_to_midi_near_is_nearest_in_range_aux; assumption.
  - intro Hbase. destruct ref_midi as [r|].
    + apply pc_to_midi_near_leap; assumption.
    + change (pc_to_midi_near pc None) with (pc_to_midi_near pc (Some 36)).
      apply pc_to_midi_near_leap; assumption.
Qed.

Lemma pc_to_midi_near_is_nearest_in_range_witness :
  let base := match Some 20 with None => 36 | Some r => r end in
  Z.abs (pc_to_midi_near 11 (Some 20) - base) <= Z.abs (47 - base) /\
  (C1 <= base <= C3 -> Z.abs (pc_to_midi_near 11 (Some 20) - base) <= 11).
Proof.
  apply (pc_to_midi_near_is_nearest_in_range 11 (Some 20) 47).
  - lia.
  - unfold C1, C3. lia.
  - reflexivity.
Defined.

(** ** Smooth bass motion *)

Lemma walk_beat_prev_midi w t0 t1 pcs w' ns :
  walk_beat w t0 t1 pcs = Ok (w', ns) ->
  match ns with
  | [] => w' = w
  | n :: _ =>
      prev_midi w' = Some (pitch n) /\
      exists pc pcs_tuple,
        held_pcset pcs w = Some pcs_tuple /\
        py_getitem (order (observe pcs_tuple w)) (idx (observe pcs_tuple w)) = Ok pc /\
        pitch n = pc_to_midi_near pc (Some (reference_pitch w))
  end.
Proof.
  unfold walk_beat. destruct (held_pcset pcs w) as [t|] eqn:Eh.
  - unfold emit. destruct (py_getitem _ _) as [pc|e] eqn:Eg; cbn [bind]; [|discriminate].
    intro H. injection H as <- <-. split.
    + match goal with |- prev_midi (advance ?x) = _ =>
        destruct (advance_fields x) as (_ & _ & Hm); rewrite Hm end.
      reflexivity.
    + exists pc, t. split; [reflexivity|]. split; [exact Eg|].
      cbn [snd pitch]. rewrite observe_prev_midi. reflexivity.
  - intro H. injection H as <- <-. reflexivity.
Qed.

Lemma walk_init_in_range : walk_in_range walk_init.
Proof.
  split; [exact I|]. split; intros ? H; discriminate.
Qed.

Lemma walk_beat_in_range w t0 t1 pcs :
  walk_in_range w -> Forall (fun pc => 0 <= pc < 12) pcs ->
  exists w' ns,
    walk_beat w t0 t1 pcs = Ok (w', ns) /\ walk_in_range w' /\
    match ns with
    | [] => w' = w
    | n :: ns' =>
        ns' = [] /\ prev_midi w' = Some (pitch n) /\
        Z.abs (pitch n - reference_pitch w) <= 11
    end.
Proof.
  intros (Hok & Hpcs & Hmidi) Hrange.
  destruct (walk_beat_ok w t0 t1 pcs Hok) as (w' & ns & Hb & Hok' & Hm).
  exists w', ns. split; [exact Hb|].
  pose proof (walk_beat_prev_midi _ _ _ _ _ _ Hb) as Hpm.
  assert (Href : C1 <= reference_pitch w <= C3).
  { unfold reference_pitch. destruct (prev_midi w) as [m|] eqn:E.
    - apply Hmidi. reflexivity.
    - unfold C1, C3. lia. }
  destruct (held_pcset pcs w) as [t|] eqn:Eh.
  - cbv zeta in Hm.
    destruct Hm as (Ho & _ & _ & Hp' & _ & pc & Hget & Hnth & Hns & _).
    assert (Ht : Forall (fun pc => 0 <= pc < 12) t).
    { unfold held_pcset in Eh. destruct pcs as [|p pcs'].
      - apply Hpcs. exact Eh.
      - injection Eh as <-. exact Hrange. }
    assert (Hpc : 0 <= pc < 12).
    { rewrite Forall_forall in Ht. apply Ht. eapply nth_error_In. exact Hnth. }
    subst ns. destruct Hpm as (Hpm & _). cbn [pitch] in *.
    split; [split; [exact Hok'|split]|].
    + intros s Hs. rewrite Hp' in Hs. injection Hs as <-. exact Ht.
    + intros m Hmm. rewrite Hpm in Hmm. injection Hmm as <-.
      apply pc_to_midi_near_bounds.
    + split; [reflexivity|]. split; [exact Hpm|].
      fold (reference_pitch w). apply pc_to_midi_near_leap; assumption.
  - destruct Hm as (-> & ->). split; [|reflexivity].
    split; [exact Hok | split; assumption].
Qed.

Lemma walk_loop_within_octave chords_inst wins : forall w bass,
  walk_in_range w ->
  exists w' new,
    walk_loop chords_inst w bass wins = Ok (w', bass ++ new) /\
    Sorted within_octave new /\
    match new with
    | [] => True
    | n :: _ => Z.abs (pitch n - reference_pitch w) <= 11
    end.
Proof.
  induction wins as [|win wins IH]; intros w bass Hw.
  - exists w, []. simpl. rewrite app_nil_r. repeat split. constructor.
  - assert (Hr : Forall (fun pc => 0 <= pc < 12) (window_pcs chords_inst win))
      by (apply Forall_forall; intros pc Hpc; eapply chord_pitch_classes_range; exact Hpc).
    destruct (walk_beat_in_range w (fst win) (snd win) _ Hw Hr)
      as (w1 & ns & Hb & Hw1 & Hns).
    destruct (IH w1 (bass ++ ns) Hw1) as (w' & new & Hl & Hs & Hhd).
    exists w', (ns ++ new). split; [simpl; rewrite Hb; simpl; rewrite Hl, app_assoc; reflexivity|].
    destruct ns as [|n ns'].
    + subst w1. simpl. split; assumption.
    + destruct Hns as (-> & Hpm & Hleap). simpl. split; [|exact Hleap].
      constructor; [exact Hs|].
      destruct new as [|n' new']; constructor.
      unfold within_octave. unfold reference_pitch in Hhd. rewrite Hpm in Hhd. exact Hhd.
Qed.

(** X2.  Every run of the walk returns a bass line whose pitches lie in
    [C1, C3] and in which two consecutive notes are never an octave or more
    apart. *)
Theorem bass_line_moves_within_octave (chords_inst : Instrument) (wins : list (Q * Q)) :
  exists w bass,
    walk_loop chords_inst walk_init [] wins = Ok (w, bass) /\
    Forall (fun n => C1 <= pitch n <= C3) bass /\
    Sorted within_octave bass /\
    (forall i a b,
       nth_error bass i = Some a -> nth_error bass (S i) = Some b ->
       Z.abs (pitch b - pitch a) <= 11).
Proof.
  destruct (walk_loop_within_octave chords_inst wins walk_init [] walk_init_in_range)
    as (w & bass & Hl & Hs & _).
  simpl app in Hl. exists w, bass. split; [exact Hl|].
  destruct (walk_loop_emits chords_inst wins walk_init [] walk_init_ok eq_refl)
    as (w2 & bass2 & Hl2 & Hf).
  rewrite Hl in Hl2. simpl in Hl2. injection Hl2 as _ <-.
  split; [|split; [exact Hs|]].
  - clear -Hf. induction Hf as [|n win ns ws Hn _ IH]; constructor; [|exact IH].
    apply Hn.
  - clear -Hs. induction Hs as [|a l Hs IH Hhd]; intros i x y Hx Hy.
    + destruct i; discriminate.
    + destruct i as [|i]; simpl in Hx, Hy.
      * injection Hx as <-. destruct l as [|b l]; [discriminate|].
        injection Hy as <-. inversion Hhd; subst. assumption.
      * apply (IH i x y Hx Hy).
Qed.

(** ** Grids in strictly increasing order *)















(** ** The first note of a chord *)

(** X4.  On a beat whose sounding pitch-class set is not the active one,
    whatever the walk was doing, the bass note has the least pitch class
    that sounds in the window: the lowest in the numbering 0..11, which
    need not be the class of the lowest sounding note. *)
Theorem chord_change_starts_on_least_pitch_class
    (w : Walk) (t0 t1 : Q) (ns : list Note) :
  chord_pitch_classes ns <> [] ->
  prev_pcset w <> Some (chord_pitch_classes ns) ->
  exists w' n,
    walk_beat w t0 t1 (chord_pitch_classes ns) = Ok (w', [n]) /\
    sounds ns (pitch n mod 12) /\
    (forall pc, sounds ns pc -> pitch n mod 12 <= pc) /\
    idx w' = (if 1 <? Z.of_nat (length (chord_pitch_classes ns)) then 1 else 0).
Proof.
  intros Hne Hchg.
  pose proof (chord_pitch_classes_sorted ns) as Hsorted.
  assert (Hin : forall pc, In pc (chord_pitch_classes ns) <-> sounds ns pc)
    by (intro pc; apply chord_pitch_classes_In).
  assert (Hrange : forall pc, In pc (chord_pitch_classes ns) -> 0 <= pc < 12)
    by (intro pc; apply chord_pitch_classes_range).
  apply chord_changed_true in Hchg.
  destruct (chord_pitch_classes ns) as [|p rest] eqn:E; [congruence|].
  unfold walk_beat, held_pcset, emit, observe. rewrite Hchg.
  cbn [order idx prev_midi dir_up prev_pcset].
  change (py_getitem (p :: rest) 0) with (@Ok Z p). cbn [bind fst snd].
  eexists. eexists. split; [reflexivity|].
  cbn [pitch]. rewrite pc_to_midi_near_class.
  rewrite (Z.mod_small p 12) by (apply Hrange; left; reflexivity).
  split; [apply Hin; left; reflexivity|]. split.
  - intros pc Hpc. apply Hin in Hpc. destruct Hpc as [<-|Hpc]; [lia|].
    inversion Hsorted as [|? ? _ Hall]; subst. rewrite Forall_forall in Hall.
    specialize (Hall pc Hpc). lia.
  - unfold advance. cbn [order idx dir_up].
    change (0 + 1) with 1.
    destruct (1 <? Z.of_nat (length (p :: rest))); reflexivity.
Qed.

Lemma chord_change_starts_on_least_pitch_class_witness :
  let ns := triad 53 57 60 0 1 in
  exists w' n,
    walk_beat walk_init 0 1 (chord_pitch_classes ns) = Ok (w', [n]) /\
    sounds ns (pitch n mod 12) /\
    (forall pc, sounds ns pc -> pitch n mod 12 <= pc) /\
    idx w' = (if 1 <? Z.of_nat (length (chord_pitch_classes ns)) then 1 else 0).
Proof.
  apply (chord_change_starts_on_least_pitch_class walk_init 0 1 (triad 53 57 60 0 1)).
  - discriminate.
  - discriminate.
Defined.

(** F major over F: the bass starts on C. *)
Example f_major_starts_on_c :
  exists w', walk_beat walk_init 0 1 (chord_pitch_classes (triad 53 57 60 0 1)) =
             Ok (w', [mkNote VEL 36 0 (0 + (1 - 0) * (98 # 100))%Q]).
Proof. eexists. reflexivity. Qed.

(** ** Rescaled velocities *)

Lemma midi_range_enumerated (P : Z -> Prop) :
  Forall P (map Z.of_nat (seq 0 128)) -> forall v, 0 <= v <= 127 -> P v.
Proof.
  intros H v Hv. rewrite Forall_forall in H. apply H.
  apply in_map_iff. exists (Z.to_nat v). split; [lia | apply in_seq; lia].
Qed.

Lemma rescaled_ok_midi v : 0 <= v <= 127 -> rescaled_ok v = true.
Proof.
  apply (midi_range_enumerated (fun v => rescaled_ok v = true)).
  apply Forall_forall. apply forallb_forall. vm_compute. reflexivity.
Qed.

(** X6.  A velocity in the MIDI range 0..127 is rescaled without an
    exception to a velocity between 1 and 89 that is not above the
    original one (unless that was 0, which becomes 1) and that, from 1 on,
    is seven tenths of the original rounded to an integer; and whatever the
    velocity and the factor, a rescaled velocity lies between 1 and 127. *)
Theorem scaled_velocity_in_midi_range (v : Z) :
  0 <= v <= 127 ->
  (exists r,
     scaled_velocity v CHORD_VEL_SCALE = Ok r /\
     1 <= r <= 89 /\ r <= Z.max 1 v /\
     (1 <= v -> Z.abs (10 * r - 7 * v) <= 5)) /\
  (forall v' scale r', scaled_velocity v' scale = Ok r' -> 1 <= r' <= 127).
Proof.
  intro Hv. split.
  - pose proof (rescaled_ok_midi v Hv) as H. unfold rescaled_ok in H.
    destruct (scaled_velocity v CHORD_VEL_SCALE) as [r|]; [|discriminate].
    exists r. split; [reflexivity|].
    repeat (apply andb_true_iff in H; destruct H as (H & ?)).
    repeat match goal with
    | H : (_ <=? _) = true |- _ => apply Z.leb_le in H
    end.
    repeat split; lia.
  - intros v' scale r' H. unfold scaled_velocity in H.
    destruct (float_of_int v') as [f|]; cbn [bind] in H; [|discriminate].
    destruct (py_round _) as [r|]; cbn [bind] in H; [|discriminate].
    injection H as <-. lia.
Qed.

Lemma scaled_velocity_in_midi_range_witness :
  (exists r,
     scaled_velocity 45 CHORD_VEL_SCALE = Ok r /\
     1 <= r <= 89 /\ r <= Z.max 1 45 /\
     (1 <= 45 -> Z.abs (10 * r - 7 * 45) <= 5)) /\
  (forall v' scale r', scaled_velocity v' scale = Ok r' -> 1 <= r' <= 127).
Proof.
  apply (scaled_velocity_in_midi_range 45). lia.
Defined.

(** ** When [add_bassline] raises *)





Lemma add_bassline_with_track pm chord_instr_name_prefix c chords_inst scaled :
  find_chords_inst (instruments pm) chord_instr_name_prefix = Ok (Some (c, chords_inst)) ->
  has_notes chords_inst = true ->
  scale_instrument_velocity chords_inst CHORD_VEL_SCALE = Ok scaled ->
  add_bassline pm chord_instr_name_prefix =
  (beats <- beat_grid pm scaled;;
   r <- walk_loop scaled walk_init [] (windows beats);;
   Ok (with_instruments pm
         (replace_nth (instruments pm) c scaled ++
          [mkInstrument BASS_PROGRAM bass_name (snd r)]))).
Proof.
  intros Hf Hn Hs. unfold add_bassline. rewrite Hf. cbn [bind].
  rewrite Hn. cbn [negb]. rewrite Hs. reflexivity.
Qed.





(** The score with a harmony note of length zero, in 2/2 and without a
    timeline, makes [add_bassline] raise. *)
Example add_bassline_degenerate_score :
  add_bassline degenerate_score "Piano, Chords:" = Raise IndexError.
Proof. reflexivity. Qed.

(** ** Outcomes of [avg_simultaneity] *)




(** The three kinds of outcome on one track: too few samples, a negative
    number of them, and none at all. *)
Example avg_simultaneity_few_slices :
  avg_simultaneity example_chords 1 = Raise ZeroDivisionError /\
  avg_simultaneity example_chords (-3) = Raise ValueError /\
  avg_simultaneity example_chords 0 = Ok (0 / -1)%Q.
Proof. repeat split. Qed.

Lemma strictly_sorted_length (l : list Z) : forall a b,
  StronglySorted Z.lt l -> Forall (fun x => a <= x < b) l ->
  Z.of_nat (length l) <= Z.max 0 (b - a).
Proof.
  induction l as [|x l IH]; intros a b Hs Hr; [simpl; lia|].
  inversion Hs as [|? ? Hs' Hall]; subst. inversion Hr as [|? ? Hx Hr']; subst.
  assert (Hr2 : Forall (fun y => x + 1 <= y < b) l).
  { rewrite Forall_forall in *. intros y Hy.
    specialize (Hall y Hy). specialize (Hr' y Hy). lia. }
  specialize (IH (x + 1) b Hs' Hr2). simpl length. lia.
Qed.

(** X9.  [chord_pitch_classes] returns the pitch classes of the notes as a
    strictly ascending list of at most 12 numbers of [0,12); the list is
    empty only for no notes, and it depends only on which pitch classes
    occur, not on the order, the octaves or the number of the notes. *)
Theorem chord_pitch_classes_canonical (ns1 ns2 : list Note) :
  StronglySorted Z.lt (chord_pitch_classes ns1) /\
  Forall (fun pc => 0 <= pc < 12) (chord_pitch_classes ns1) /\
  (length (chord_pitch_classes ns1) <= 12)%nat /\
  (forall pc, In pc (chord_pitch_classes ns1) <-> exists n, In n ns1 /\ pc = pitch n mod 12) /\
  (chord_pitch_classes ns1 = [] <-> ns1 = []) /\
  ((forall pc, (exists n, In n ns1 /\ pc = pitch n mod 12) <->
               (exists n, In n ns2 /\ pc = pitch n mod 12)) ->
   chord_pitch_classes ns1 = chord_pitch_classes ns2).
Proof.
  pose proof (chord_pitch_classes_sorted ns1) as Hs.
  assert (Hr : Forall (fun pc => 0 <= pc < 12) (chord_pitch_classes ns1))
    by (apply Forall_forall; intros pc Hpc; eapply chord_pitch_classes_range; exact Hpc).
  split; [exact Hs|]. split; [exact Hr|]. split; [|split; [|split]].
  - pose proof (strictly_sorted_length _ 0 12 Hs Hr). lia.
  - intro pc. apply chord_pitch_classes_In.
  - split.
    + intro E. destruct ns1 as [|n ns]; [reflexivity|]. exfalso.
      assert (Hin : In (pitch n mod 12) (chord_pitch_classes (n :: ns)))
        by (apply chord_pitch_classes_In; exists n; split; [left|]; reflexivity).
      rewrite E in Hin. exact Hin.
    + intros ->. reflexivity.
  - intro H. apply chord_pitch_classes_eq_iff. exact H.
Qed.

(** ** [retarget_melody_to_sax] *)

Lemma find_track_from_spec p l : forall i,
  match find_track_from p l i with
  | Some (c, t) =>
      (i <= c)%nat /\ nth_error l (c - i) = Some t /\ p (fst t) = true /\
      forall j y, (j < c - i)%nat -> nth_error l j = Some y -> p (fst y) = false
  | None => forall y, In y l -> p (fst y) = false
  end.
Proof.
  induction l as [|x l IH]; intro i; simpl.
  - intros y [].
  - destruct (p (fst x)) eqn:E.
    + rewrite Nat.sub_diag. repeat split; try assumption; lia.
    + specialize (IH (S i)).
      destruct (find_track_from p l (S i)) as [[c t]|].
      * destruct IH as (Hle & Hn & Hp & Hfirst).
        replace (c - i)%nat with (S (c - S i)) by lia.
        repeat split; try assumption; try lia.
        intros [|j] y Hj Hy; simpl in Hy.
        -- congruence.
        -- apply (Hfirst j); [lia | exact Hy].
      * intros y [<-|Hy]; [exact E | apply IH, Hy].
Qed.

Lemma melodic_dec t : (is_drum t || negb (has_notes (fst t))) = false <-> melodic t.
Proof.
  unfold melodic. rewrite orb_false_iff, negb_false_iff, <- has_notes_true. tauto.
Qed.

Lemma least_polyphonic_from_spec l : forall i best best_score,
  exists found,
    least_polyphonic_from l i best best_score = Ok found /\
    ((found = best /\
      forall x, In x l -> melodic x ->
        match best_score with
        | None => False
        | Some b => (b <= score_of (fst x))%Q
        end) \/
     (exists c t,
        found = Some (c, t) /\ (i <= c)%nat /\
        nth_error l (c - i) = Some t /\ melodic t /\
        match best_score with
        | None => True
        | Some b => (score_of (fst t) < b)%Q
        end /\
        (forall j x, nth_error l j = Some x -> melodic x ->
                     (score_of (fst t) <= score_of (fst x))%Q /\
                     ((j < c - i)%nat -> (score_of (fst t) < score_of (fst x))%Q)))).
Proof.
  induction l as [|y l IH]; intros i best best_score; simpl.
  - exists best. split; [reflexivity|]. left. split; [reflexivity | intros ? []].
  - destruct (is_drum y || negb (has_notes (fst y))) eqn:Em.
    + destruct (IH (S i) best best_score) as (found & Hf & [(-> & Hall)|Hex]).
      * exists best. split; [exact Hf|]. left. split; [reflexivity|].
        intros x [<-|Hx] Hmel; [|apply Hall; assumption].
        apply melodic_dec in Hmel. congruence.
      * destruct Hex as (c & t & -> & Hle & Hn & (Hm1 & Hm2) & Hlt & Hmin).
        exists (Some (c, t)). split; [exact Hf|]. right.
        exists c, t. replace (c - i)%nat with (S (c - S i)) by lia.
        repeat split; try assumption; try lia.
        -- destruct j as [|j]; simpl in H.
           ++ injection H as <-. apply melodic_dec in H0. congruence.
           ++ apply (Hmin j x H H0).
        -- intro Hj. destruct j as [|j]; simpl in H.
           ++ injection H as <-. apply melodic_dec in H0. congruence.
           ++ apply (Hmin j x H H0). lia.
    + apply melodic_dec in Em. pose proof Em as (Em1 & Em2).
      destruct (score_of_spec (fst y)) as (-> & _). cbn [bind].
      destruct (match best_score with None => true | Some b => Qltb (score_of (fst y)) b end)
        eqn:E.
      * assert (Hlt0 : match best_score with
                       | None => True
                       | Some b => (score_of (fst y) < b)%Q
                       end)
          by (destruct best_score; [apply Qltb_lt; exact E | exact I]).
        destruct (IH (S i) (Some (i, y)) (Some (score_of (fst y))))
          as (found & Hf & [(-> & Hall)|Hex]).
        -- exists (Some (i, y)). split; [exact Hf|]. right.
           exists i, y. rewrite Nat.sub_diag. repeat split; try assumption; try lia.
           destruct j as [|j]; simpl in H; [injection H as <-; apply Qle_refl|].
           apply Hall; [eapply nth_error_In; exact H | exact H0].
        -- destruct Hex as (c & t & -> & Hle & Hn & (Hm1 & Hm2) & Hlt & Hmin).
           exists (Some (c, t)). split; [exact Hf|]. right.
           exists c, t. replace (c - i)%nat with (S (c - S i)) by lia.
           repeat split; try assumption; try lia.
           ++ destruct best_score as [b|]; [|exact I].
              apply Qlt_trans with (score_of (fst y)); assumption.
           ++ destruct j as [|j]; simpl in H.
              ** injection H as <-. apply Qlt_le_weak. exact Hlt.
              ** apply (Hmin j x H H0).
           ++ intro Hj. destruct j as [|j]; simpl in H.
              ** injection H as <-. exact Hlt.
              ** apply (Hmin j x H H0). lia.
      * destruct best_score as [b|]; [|discriminate]. apply Qltb_ge in E.
        destruct (IH (S i) best (Some b)) as (found & Hf & [(-> & Hall)|Hex]).
        -- exists best. split; [exact Hf|]. left. split; [reflexivity|].
           intros x [<-|Hx] Hmel; [exact E | apply Hall; assumption].
        -- destruct Hex as (c & t & -> & Hle & Hn & (Hm1 & Hm2) & Hlt & Hmin).
           exists (Some (c, t)). split; [exact Hf|]. right.
           exists c, t. replace (c - i)%nat with (S (c - S i)) by lia.
           repeat split; try assumption; try lia.
           ++ destruct j as [|j]; simpl in H.
              ** injection H as <-.
                 apply Qle_trans with b; [apply Qlt_le_weak; exact Hlt | exact E].
              ** apply (Hmin j x H H0).
           ++ intro Hj. destruct j as [|j]; simpl in H.
              ** injection H as <-. apply Qlt_le_trans with b; assumption.
              ** apply (Hmin j x H H0). lia.
Qed.

Lemma replace_nth_map_same {A B} (f : A -> B) (l : list A) : forall i x y,
  nth_error l i = Some y -> f x = f y -> map f (replace_nth l i x) = map f l.
Proof.
  induction l as [|z l IH]; intros [|i] x y H E; simpl in *; try discriminate.
  - injection H as ->. rewrite E. reflexivity.
  - rewrite (IH i x y H E). reflexivity.
Qed.


(** ** [add_bassline] does not read programs *)

Lemma avg_simultaneity_same a b slices :
  same_music a b -> avg_simultaneity a slices = avg_simultaneity b slices.
Proof.
  intros (_ & H). unfold avg_simultaneity. rewrite H. reflexivity.
Qed.

Lemma find_from_same p l1 l2 :
  (forall a b, same_music a b -> p a = p b) ->
  Forall2 same_music l1 l2 ->
  forall i, same_found (find_from p l1 i) (find_from p l2 i).
Proof.
  intros Hp. induction 1 as [|a b l1 l2 Hab _ IH]; intro i; simpl.
  - exact I.
  - rewrite (Hp a b Hab). destruct (p b).
    + split; [reflexivity | exact Hab].
    + apply IH.
Qed.

Lemma most_polyphonic_from_same l1 l2 :
  Forall2 same_music l1 l2 ->
  forall i best1 best2 best_score,
    same_found best1 best2 ->
    match most_polyphonic_from l1 i best1 best_score,
          most_polyphonic_from l2 i best2 best_score with
    | Ok f1, Ok f2 => same_found f1 f2
    | Raise e1, Raise e2 => e1 = e2
    | _, _ => False
    end.
Proof.
  induction 1 as [|a b l1 l2 Hab _ IH]; intros i best1 best2 best_score Hbest; simpl.
  - exact Hbest.
  - rewrite (avg_simultaneity_same a b default_slices Hab).
    destruct (avg_simultaneity b default_slices) as [score|e]; cbn [bind]; [|reflexivity].
    assert (Hh : has_notes a = has_notes b)
      by (unfold has_notes; rewrite (proj2 Hab); reflexivity).
    rewrite Hh.
    destruct (Qltb best_score score && has_notes b).
    + apply IH. split; [reflexivity | exact Hab].
    + apply IH. exact Hbest.
Qed.

Lemma find_chords_inst_same l1 l2 chord_instr_name_prefix :
  Forall2 same_music l1 l2 ->
  match find_chords_inst l1 chord_instr_name_prefix,
        find_chords_inst l2 chord_instr_name_prefix with
  | Ok f1, Ok f2 => same_found f1 f2
  | Raise e1, Raise e2 => e1 = e2
  | _, _ => False
  end.
Proof.
  intro H. unfold find_chords_inst.
  pose proof (find_from_same (name_has_prefix chord_instr_name_prefix) l1 l2
                ltac:(intros a b (Hn & _); unfold name_has_prefix; rewrite Hn; reflexivity)
                H 0%nat) as H1.
  destruct (find_from (name_has_prefix _) l1 0) as [[c1 a1]|],
           (find_from (name_has_prefix _) l2 0) as [[c2 a2]|];
    try contradiction; [exact H1|].
  pose proof (find_from_same name_mentions_chords l1 l2
                ltac:(intros a b (Hn & _); unfold name_mentions_chords; rewrite Hn; reflexivity)
                H 0%nat) as H2.
  destruct (find_from name_mentions_chords l1 0) as [[c1 a1]|],
           (find_from name_mentions_chords l2 0) as [[c2 a2]|];
    try contradiction; [exact H2|].
  apply most_polyphonic_from_same; [exact H | exact I].
Qed.

Lemma scale_instrument_velocity_same a b scale :
  same_music a b ->
  match scale_instrument_velocity a scale, scale_instrument_velocity b scale with
  | Ok a', Ok b' =>
      same_music a' b' /\ notes a' = notes b' /\
      program a' = program a /\ program b' = program b
  | Raise e1, Raise e2 => e1 = e2
  | _, _ => False
  end.
Proof.
  intros (Hn & Hs). unfold scale_instrument_velocity. rewrite Hs.
  destruct (scale_notes (notes b) scale); cbn [bind]; [|reflexivity].
  repeat split. exact Hn.
Qed.

Lemma walk_loop_same a b wins : forall w bass,
  notes a = notes b -> walk_loop a w bass wins = walk_loop b w bass wins.
Proof.
  induction wins as [|win wins IH]; intros w bass H; [reflexivity|].
  simpl. unfold window_pcs, notes_overlapping. rewrite H.
  destruct (walk_beat _ _ _ _) as [r|]; cbn [bind]; [|reflexivity].
  apply IH. exact H.
Qed.

Lemma beat_grid_same pm1 pm2 a b :
  same_timeline pm1 pm2 -> notes a = notes b -> beat_grid pm1 a = beat_grid pm2 b.
Proof.
  intros (H1 & H2 & H3) H.
  unfold beat_grid, native_beats, effective_note_density.
  rewrite H1, H2, H3, H. reflexivity.
Qed.

Lemma replace_nth_Forall2 {A} (R : A -> A -> Prop) l1 l2 x y :
  Forall2 R l1 l2 -> R x y ->
  forall i, Forall2 R (replace_nth l1 i x) (replace_nth l2 i y).
Proof.
  intros H Hxy. induction H as [|a b l1 l2 Hab H IH]; intros [|i]; simpl.
  - constructor.
  - constructor.
  - constructor; assumption.
  - constructor; [exact Hab | apply IH].
Qed.

Lemma replace_nth_map_program l : forall c chords_inst scaled,
  nth_error l c = Some chords_inst -> program scaled = program chords_inst ->
  map program (replace_nth l c scaled) = map program l.
Proof.
  intros c chords_inst scaled H E.
  apply (replace_nth_map_same program l c scaled chords_inst H E).
Qed.

Lemma add_bassline_same_music pm1 pm2 chord_instr_name_prefix :
  same_timeline pm1 pm2 ->
  Forall2 same_music (instruments pm1) (instruments pm2) ->
  same_outcome pm1 pm2 (add_bassline pm1 chord_instr_name_prefix)
                       (add_bassline pm2 chord_instr_name_prefix).
Proof.
  intros Ht Hm.
  pose proof (find_chords_inst_same _ _ chord_instr_name_prefix Hm) as Hf.
  destruct (find_chords_inst (instruments pm1) chord_instr_name_prefix) as [f1|e1] eqn:E1,
           (find_chords_inst (instruments pm2) chord_instr_name_prefix) as [f2|e2] eqn:E2;
    try contradiction.
  2:{ unfold add_bassline. rewrite E1, E2. exact Hf. }
  destruct f1 as [[c1 a]|], f2 as [[c2 b]|]; try contradiction.
  2:{ unfold add_bassline. rewrite E1, E2. left. split; reflexivity. }
  destruct Hf as (<- & Hab).
  assert (Hh : has_notes a = has_notes b)
    by (unfold has_notes; rewrite (proj2 Hab); reflexivity).
  destruct (has_notes b) eqn:Hb.
  2:{ unfold add_bassline. rewrite E1, E2. cbn [bind]. rewrite Hh, Hb. left.
      split; reflexivity. }
  pose proof (scale_instrument_velocity_same a b CHORD_VEL_SCALE Hab) as Hs.
  destruct (scale_instrument_velocity a CHORD_VEL_SCALE) as [a'|ea] eqn:Ea,
           (scale_instrument_velocity b CHORD_VEL_SCALE) as [b'|eb] eqn:Eb;
    try contradiction.
  2:{ unfold add_bassline. rewrite E1, E2. cbn [bind]. rewrite Hh, Hb. cbn [negb].
      rewrite Ea, Eb. exact Hs. }
  destruct Hs as (Hab' & Hn' & Hpa & Hpb).
  rewrite (add_bassline_with_track _ _ _ _ _ E1 Hh Ea).
  rewrite (add_bassline_with_track _ _ _ _ _ E2 Hb Eb).
  rewrite (beat_grid_same pm1 pm2 a' b' Ht Hn').
  destruct (beat_grid pm2 b') as [beats|e]; cbn [bind]; [|reflexivity].
  rewrite (walk_loop_same a' b' (windows beats) walk_init [] Hn').
  destruct (walk_loop b' walk_init [] (windows beats)) as [r|e]; cbn [bind]; [|reflexivity].
  right. eexists. eexists. eexists.
  split; [reflexivity|]. split; [reflexivity|].
  split; [apply replace_nth_Forall2; assumption|].
  split.
  - apply (replace_nth_map_program _ c1 a a'); [|exact Hpa].
    apply (find_chords_inst_nth _ _ _ _ E1).
  - apply (replace_nth_map_program _ c1 b b'); [|exact Hpb].
    apply (find_chords_inst_nth _ _ _ _ E2).
Qed.

Lemma retarget_melody_to_sax_returns tracks melody_name_hint :
  exists tracks',
    retarget_melody_to_sax tracks melody_name_hint = Ok tracks' /\
    map track_music tracks' = map track_music tracks.
Proof.
  unfold retarget_melody_to_sax.
  pose proof (find_track_from_spec (name_mentions melody_name_hint) tracks 0) as Hfind.
  destruct (find_track_from (name_mentions melody_name_hint) tracks 0) as [[i t]|].
  - destruct Hfind as (_ & Hn & _). rewrite Nat.sub_0_r in Hn.
    cbn [bind]. eexists. split; [reflexivity|].
    apply (replace_nth_map_same track_music tracks i _ t Hn). reflexivity.
  - destruct (least_polyphonic_from_spec tracks 0 None None) as (found & Hf & Hcase).
    rewrite Hf. cbn [bind].
    destruct Hcase as [(-> & _)|(c & t & -> & _ & Hn & _)].
    + exists tracks. split; reflexivity.
    + rewrite Nat.sub_0_r in Hn. eexists. split; [reflexivity|].
      apply (replace_nth_map_same track_music tracks c _ t Hn). reflexivity.
Qed.

Lemma same_music_of_track_music l1 : forall l2,
  map track_music l1 = map track_music l2 ->
  Forall2 same_music (map fst l1) (map fst l2).
Proof.
  induction l1 as [|a l1 IH]; intros [|b l2] H; simpl in H; try discriminate.
  - constructor.
  - injection H as H1 H2 H3 H4. simpl. constructor; [split; assumption|].
    apply IH. exact H4.
Qed.

(** X11.  Retargeting the melody before adding the bass line, as
    [process_all] does, does not change what [add_bassline] does with the
    score: it raises the same exception, or returns the score as it is in
    both cases, or appends the very same bass track; the other tracks
    agree in names and notes and keep the programs of their input. *)
Theorem bass_line_unchanged_by_retarget
    (pm : PrettyMIDI) (tracks : list Track)
    (melody_name_hint chord_instr_name_prefix : string) :
  instruments pm = map fst tracks ->
  exists tracks',
    retarget_melody_to_sax tracks melody_name_hint = Ok tracks' /\
    let pm_sax := with_instruments pm (map fst tracks') in
    same_outcome pm pm_sax
      (add_bassline pm chord_instr_name_prefix)
      (add_bassline pm_sax chord_instr_name_prefix).
Proof.
  intro Hpm.
  destruct (retarget_melody_to_sax_returns tracks melody_name_hint) as (tracks' & Hr & Hm).
  exists tracks'. split; [exact Hr|]. cbv zeta.
  apply add_bassline_same_music.
  - repeat split.
  - simpl. rewrite Hpm. apply same_music_of_track_music. symmetry. exact Hm.
Qed.

Lemma bass_line_unchanged_by_retarget_witness :
  let tracks := map (fun inst => (inst, false)) (instruments example_score) in
  exists tracks',
    retarget_melody_to_sax tracks "Melody" = Ok tracks' /\
    let pm_sax := with_instruments example_score (map fst tracks') in
    same_outcome example_score pm_sax
      (add_bassline example_score "Piano, Chords:")
      (add_bassline pm_sax "Piano, Chords:").
Proof.
  apply (bass_line_unchanged_by_retarget example_score
           (map (fun inst => (inst, false)) (instruments example_score))
           "Melody" "Piano, Chords:").
  reflexivity.
Defined.

(** The melody of the example score is moved to program 65; the harmony
    track keeps its program. *)
Example retarget_example_score :
  exists tracks',
    retarget_melody_to_sax (map (fun inst => (inst, false)) (instruments example_score))
                           "Melody" = Ok tracks' /\
    map (fun t => program (fst t)) tracks' = [65; 0].
Proof. eexists. split; reflexivity. Qed.

(** A hint in capital letters with an E acute matches a track name in
    small letters: the second track is retargeted, not the first, which
    the fallback would choose. *)
Example retarget_latin1_hint :
  let melodie := String "m" (String (ascii_of_nat 233) "lodie") in
  let hint := String "M" (String (ascii_of_nat 201) "LODIE") in
  exists tracks',
    retarget_melody_to_sax
      [(mkInstrument 1 "Piano" [mkNote 80 60 0 1], false);
       (mkInstrument 2 melodie [mkNote 80 72 0 1; mkNote 80 76 0 1], false)]
      hint = Ok tracks' /\
    map (fun t => program (fst t)) tracks' = [1; 65].
Proof. eexists. split; reflexivity. Qed.

(** ** [slugify] *)

Example slugify_examples :
  slugify "All Of Me / Gerald Marks: take 2" 80 = "All_Of_Me_-_Gerald_Marks-_take_2"%string /\
  slugify "  __What's   New?__ " 80 = "Whats_New"%string /\
  slugify "!!!" 80 = "untitled"%string /\
  slugify "Autumn Leaves" 7 = "Autumn"%string.
Proof. repeat split. Qed.

Lemma char_classes c :
  (slug_char c = true -> kept c = true /\ is_space c = false /\
                         Ascii.eqb c "/" = false /\ Ascii.eqb c ":" = false) /\
  (kept c = true -> is_space c = false -> slug_char c = true).
Proof.
  destruct c as [[] [] [] [] [] [] [] []]; vm_compute; repeat split; congruence.
Qed.

Lemma sub_spaces_slug s : forall in_run,
  Forall (fun c => kept c = true) s ->
  Forall (fun c => slug_char c = true) (sub_spaces in_run s).
Proof.
  induction s as [|c s IH]; intros in_run H; simpl; [constructor|].
  inversion H as [|? ? Hc Hs]; subst.
  destruct (is_space c) eqn:E.
  - destruct in_run; [apply IH; exact Hs|]. constructor; [reflexivity | apply IH; exact Hs].
  - constructor; [apply (proj2 (char_classes c)); assumption | apply IH; exact Hs].
Qed.

Lemma lstrip_suffix p s : exists pre, s = pre ++ lstrip p s.
Proof.
  induction s as [|c s (pre & IH)]; simpl.
  - exists []. reflexivity.
  - destruct (p c).
    + exists (c :: pre). simpl. f_equal. exact IH.
    + exists []. reflexivity.
Qed.

Lemma rstrip_prefix p s : exists suf, s = rstrip p s ++ suf.
Proof.
  unfold rstrip. destruct (lstrip_suffix p (rev s)) as (pre & H).
  exists (rev pre). rewrite <- rev_app_distr, <- H, rev_involutive. reflexivity.
Qed.

Lemma lstrip_no_lead p s : no_lead p (lstrip p s).
Proof.
  induction s as [|c s IH]; simpl; [exact I|].
  destruct (p c) eqn:E; [exact IH | exact E].
Qed.

Lemma rstrip_no_trail p s : no_lead p (rev (rstrip p s)).
Proof.
  unfold rstrip. rewrite rev_involutive. apply lstrip_no_lead.
Qed.

Lemma no_lead_prefix p s1 s2 : no_lead p (s1 ++ s2) -> no_lead p s1.
Proof.
  destruct s1; simpl; [intros _; exact I | tauto].
Qed.

Lemma no_lead_weaken (p q : ascii -> bool) s :
  (forall c, q c = false -> p c = false) -> no_lead q s -> no_lead p s.
Proof.
  intro H. destruct s; simpl; [tauto | apply H].
Qed.

Lemma lstrip_id p s : no_lead p s -> lstrip p s = s.
Proof.
  destruct s as [|c s]; simpl; [reflexivity|]. intros ->. reflexivity.
Qed.

Lemma rstrip_id p s : no_lead p (rev s) -> rstrip p s = s.
Proof.
  intro H. unfold rstrip. rewrite (lstrip_id p _ H). apply rev_involutive.
Qed.

Lemma Forall_prefix {A} (P : A -> Prop) l1 l2 : Forall P (l1 ++ l2) -> Forall P l1.
Proof.
  intro H. apply Forall_app in H. tauto.
Qed.

Lemma Forall_suffix {A} (P : A -> Prop) l1 l2 : Forall P (l1 ++ l2) -> Forall P l2.
Proof.
  intro H. apply Forall_app in H. tauto.
Qed.

Lemma sub_spaces_length s : forall in_run,
  (length (sub_spaces in_run s) <= length s)%nat.
Proof.
  induction s as [|c s IH]; intro in_run; simpl; [lia|].
  destruct (is_space c).
  - destruct in_run; [specialize (IH true) | specialize (IH true); simpl]; lia.
  - specialize (IH false). simpl. lia.
Qed.

Lemma py_slice_to_firstn {A} (s : list A) (k : Z) :
  exists n, py_slice_to s k = firstn n s /\
            (0 <= k -> Z.of_nat n <= k) /\
            (k < 0 -> Z.of_nat n <= Z.max 0 (Z.of_nat (length s) + k)).
Proof.
  unfold py_slice_to. destruct (k <? 0) eqn:E; [apply Z.ltb_lt in E | apply Z.ltb_ge in E].
  - exists (Z.to_nat (Z.of_nat (length s) + k)). split; [reflexivity|]. lia.
  - exists (Z.to_nat k). split; [reflexivity|]. lia.
Qed.

(** The characters of the slug before the fallback: what they are, how
    many, and how they begin and end. *)
Lemma slug_chars_spec title max_len :
  Forall (fun c => slug_char c = true) (slug_chars title max_len) /\
  (0 <= max_len -> Z.of_nat (length (slug_chars title max_len)) <= max_len) /\
  (max_len < 0 ->
   Z.of_nat (length (slug_chars title max_len)) <=
   Z.max 0 (Z.of_nat (length (list_ascii_of_string title)) + max_len)) /\
  no_lead is_underscore (slug_chars title max_len) /\
  no_lead is_underscore (rev (slug_chars title max_len)).
Proof.
  unfold slug_chars.
  set (t := list_ascii_of_string title).
  set (t0 := filter kept _).
  assert (Hlen0 : (length t0 <= length t)%nat).
  { unfold t0. etransitivity; [apply filter_length_le|].
    unfold replace_char. rewrite !length_map. lia. }
  assert (H0 : Forall (fun c => kept c = true) t0)
    by (apply Forall_forall; intros c Hc; apply filter_In in Hc; tauto).
  pose proof (sub_spaces_slug t0 false H0) as H1.
  pose proof (sub_spaces_length t0 false) as Hlen1.
  set (t1 := sub_spaces false t0) in *.
  unfold strip.
  destruct (lstrip_suffix is_underscore t1) as (pre & Hpre).
  set (t2 := lstrip is_underscore t1) in *.
  assert (H2 : Forall (fun c => slug_char c = true) t2)
    by (rewrite Hpre in H1; apply Forall_suffix in H1; exact H1).
  pose proof (lstrip_no_lead is_underscore t1) as L2. fold t2 in L2.
  destruct (rstrip_prefix is_underscore t2) as (suf & Hsuf).
  set (t3 := rstrip is_underscore t2) in *.
  assert (Hlen3 : (length t3 <= length t)%nat).
  { apply (f_equal (@length ascii)) in Hpre, Hsuf. rewrite length_app in Hpre, Hsuf. lia. }
  assert (H3 : Forall (fun c => slug_char c = true) t3)
    by (rewrite Hsuf in H2; apply Forall_prefix in H2; exact H2).
  assert (L3 : no_lead is_underscore t3)
    by (rewrite Hsuf in L2; apply no_lead_prefix in L2; exact L2).
  pose proof (rstrip_no_trail is_underscore t2) as T3. fold t3 in T3.
  destruct (max_len <? Z.of_nat (length t3)) eqn:E;
    [apply Z.ltb_lt in E | apply Z.ltb_ge in E].
  - destruct (py_slice_to_firstn t3 max_len) as (n & -> & Hn1 & Hn2).
    destruct (rstrip_prefix is_underscore_or_dash (firstn n t3)) as (suf' & Hsuf').
    set (t4 := rstrip is_underscore_or_dash (firstn n t3)) in *.
    assert (Hfirst : t3 = t4 ++ (suf' ++ skipn n t3))
      by (rewrite app_assoc, <- Hsuf'; symmetry; apply firstn_skipn).
    assert (Hl : (length t4 <= n)%nat).
    { pose proof (firstn_le_length n t3) as Hl.
      rewrite Hsuf', length_app in Hl. lia. }
    split; [rewrite Hfirst in H3; apply Forall_prefix in H3; exact H3|].
    split; [intro H; specialize (Hn1 H); lia|].
    split; [intro H; specialize (Hn2 H); lia|].
    split; [rewrite Hfirst in L3; apply no_lead_prefix in L3; exact L3|].
    apply (no_lead_weaken is_underscore is_underscore_or_dash).
    + intros c Hc. unfold is_underscore_or_dash in Hc. apply orb_false_iff in Hc. apply Hc.
    + apply rstrip_no_trail.
  - split; [exact H3|]. split; [lia|]. split; [lia|]. split; assumption.
Qed.

(** X12.  A slug is never empty; it holds only letters, digits, dashes
    and underscores, hence no slash, colon, dot or white space; it neither
    begins nor ends with an underscore.  For [max_len >= 0] it has at most
    [max_len] characters unless it is the fallback "untitled"; for a
    negative [max_len] the program cuts [-max_len] characters off the end
    instead, so the slug is shorter than the title by that many at least,
    or is the fallback. *)
Theorem slugify_is_a_safe_name (title : string) (max_len : Z) :
  let slug := list_ascii_of_string (slugify title max_len) in
  slug <> [] /\
  Forall (fun c => slug_char c = true) slug /\
  Forall (fun c => c <> "/"%char /\ c <> ":"%char /\ c <> "."%char /\ is_space c = false) slug /\
  hd_error slug <> Some "_"%char /\
  hd_error (rev slug) <> Some "_"%char /\
  (0 <= max_len ->
   Z.of_nat (length slug) <= max_len \/ slugify title max_len = "untitled"%string) /\
  (max_len < 0 ->
   Z.of_nat (length slug) <= Z.of_nat (length (list_ascii_of_string title)) + max_len \/
   slugify title max_len = "untitled"%string).
Proof.
  cbv zeta. unfold slugify.
  destruct (slug_chars_spec title max_len) as (Hc & Hl & Hneg & Hlead & Htrail).
  assert (Hsafe : forall l, Forall (fun c => slug_char c = true) l ->
            Forall (fun c => c <> "/"%char /\ c <> ":"%char /\ c <> "."%char /\
                             is_space c = false) l).
  { intros l H. eapply Forall_impl; [|exact H]. intros c Hsc.
    destruct (proj1 (char_classes c) Hsc) as (_ & Hsp & Hslash & Hcolon).
    repeat split; try assumption; intros ->; discriminate. }
  destruct (slug_chars title max_len) as [|c t] eqn:E.
  - split; [discriminate|]. split; [repeat constructor|].
    split; [apply Hsafe; repeat constructor|].
    split; [discriminate|]. split; [discriminate|].
    split; intros _; right; reflexivity.
  - rewrite list_ascii_of_string_of_list_ascii.
    split; [discriminate|]. split; [exact Hc|]. split; [apply Hsafe; exact Hc|].
    split; [|split; [|split]].
    + simpl. intro H. injection H as ->. simpl in Hlead. discriminate.
    + destruct (rev (c :: t)) as [|d r]; [discriminate|].
      simpl. intro H. injection H as ->. simpl in Htrail. discriminate.
    + intro H. left. apply Hl. exact H.
    + intro H. left. specialize (Hneg H). cbn [length] in *. lia.
Qed.

Lemma replace_char_id a b s :
  Forall (fun c => Ascii.eqb c a = false) s -> replace_char a b s = s.
Proof.
  intro H. unfold replace_char. induction H as [|c s Hc _ IH]; simpl; [reflexivity|].
  rewrite Hc, IH. reflexivity.
Qed.

Lemma filter_id {A} (p : A -> bool) l : Forall (fun x => p x = true) l -> filter p l = l.
Proof.
  induction 1 as [|x l Hx _ IH]; simpl; [reflexivity|]. rewrite Hx, IH. reflexivity.
Qed.

Lemma sub_spaces_id s :
  Forall (fun c => is_space c = false) s -> sub_spaces false s = s.
Proof.
  induction 1 as [|c s Hc _ IH]; simpl; [reflexivity|]. rewrite Hc, IH. reflexivity.
Qed.

(** A list of slug characters that is short enough and neither begins nor
    ends with an underscore is its own slug. *)
Lemma slugify_fixed (r : list ascii) (max_len : Z) :
  r <> [] ->
  Forall (fun c => slug_char c = true) r ->
  Z.of_nat (length r) <= max_len ->
  no_lead is_underscore r -> no_lead is_underscore (rev r) ->
  slugify (string_of_list_ascii r) max_len = string_of_list_ascii r.
Proof.
  intros Hne Hc Hl Hlead Htrail.
  assert (Hslash : Forall (fun c => Ascii.eqb c "/" = false) r)
    by (eapply Forall_impl; [|exact Hc]; intros c H; apply (proj1 (char_classes c) H)).
  assert (Hcolon : Forall (fun c => Ascii.eqb c ":" = false) r)
    by (eapply Forall_impl; [|exact Hc]; intros c H; apply (proj1 (char_classes c) H)).
  assert (Hkept : Forall (fun c => kept c = true) r)
    by (eapply Forall_impl; [|exact Hc]; intros c H; apply (proj1 (char_classes c) H)).
  assert (Hspace : Forall (fun c => is_space c = false) r)
    by (eapply Forall_impl; [|exact Hc]; intros c H; apply (proj1 (char_classes c) H)).
  unfold slugify, slug_chars.
  rewrite list_ascii_of_string_of_list_ascii.
  rewrite (replace_char_id "/" "-" r Hslash), (replace_char_id ":" "-" r Hcolon).
  rewrite (filter_id kept r Hkept), (sub_spaces_id r Hspace).
  unfold strip. rewrite (lstrip_id _ r Hlead), (rstrip_id _ r Htrail).
  replace (max_len <? Z.of_nat (length r)) with false by (symmetry; apply Z.ltb_ge; exact Hl).
  destruct r; [congruence | reflexivity].
Qed.

(** X13.  With room for the fallback name ([max_len >= 8], as the default
    80), a slug is its own slug: [slugify] is idempotent. *)
Theorem slugify_idempotent (title : string) (max_len : Z) :
  8 <= max_len ->
  slugify (slugify title max_len) max_len = slugify title max_len.
Proof.
  intro Hm.
  destruct (slug_chars_spec title max_len) as (Hc & Hl & _ & Hlead & Htrail).
  specialize (Hl ltac:(lia)).
  unfold slugify at 2 3.
  destruct (slug_chars title max_len) as [|c t] eqn:E.
  - change "untitled"%string
      with (string_of_list_ascii (list_ascii_of_string "untitled")).
    apply slugify_fixed.
    + discriminate.
    + repeat constructor.
    + simpl. lia.
    + reflexivity.
    + reflexivity.
  - apply slugify_fixed; try assumption. discriminate.
Qed.

Lemma slugify_idempotent_witness :
  slugify (slugify "All Of Me / Gerald Marks" 80) 80 = slugify "All Of Me / Gerald Marks" 80.
Proof.
  apply (slugify_idempotent "All Of Me / Gerald Marks" 80). lia.
Defined.

(** Without that room the fallback is cut on the second pass. *)
Example slugify_short_fallback :
  slugify "!!!" 5 = "untitled"%string /\ slugify (slugify "!!!" 5) 5 = "untit"%string.
Proof. split; reflexivity. Qed.

(** A negative [max_len] cuts that many characters off the end. *)
Example slugify_negative_max_len :
  slugify "abc" (-1) = "ab"%string /\ slugify "abc" (-3) = "untitled"%string /\
  slugify "a_-b" (-1) = "a"%string.
Proof. repeat split. Qed.

(** ** [parse_toc_titles] *)

Lemma eat_literal_app lit s : eat_literal lit (lit ++ s) = Some s.
Proof.
  induction lit as [|a lit IH]; simpl; [reflexivity|].
  rewrite Ascii.eqb_refl. exact IH.
Qed.

Lemma eat_literal_inv lit : forall s r, eat_literal lit s = Some r -> s = lit ++ r.
Proof.
  induction lit as [|a lit IH]; simpl; intros s r H.
  - congruence.
  - destruct s as [|c s]; [discriminate|].
    destruct (Ascii.eqb c a) eqn:E; [|discriminate].
    apply Ascii.eqb_eq in E. subst c. f_equal. apply IH. exact H.
Qed.

Lemma lstrip_split p s :
  exists pre, s = pre ++ lstrip p s /\ Forall (fun c => p c = true) pre.
Proof.
  induction s as [|c s (pre & IH & Hp)]; simpl.
  - exists []. split; [reflexivity | constructor].
  - destruct (p c) eqn:E.
    + exists (c :: pre). split; [simpl; f_equal; exact IH | constructor; assumption].
    + exists []. split; [reflexivity | constructor].
Qed.

Lemma lstrip_app p g s :
  Forall (fun c => p c = true) g -> lstrip p (g ++ s) = lstrip p s.
Proof.
  induction 1 as [|c g Hc _ IH]; simpl; [reflexivity|].
  rewrite Hc. exact IH.
Qed.

Lemma eat_spaces_gap g s :
  is_gap g -> no_lead is_space s -> eat_spaces (g ++ s) = Some s.
Proof.
  intros [Hne Hg] Hs.
  destruct g as [|c g]; [congruence|].
  apply Forall_cons_iff in Hg. destruct Hg as [Hc Hg].
  simpl. rewrite Hc, (lstrip_app _ _ _ Hg), (lstrip_id _ _ Hs). reflexivity.
Qed.

Lemma eat_spaces_inv s r :
  eat_spaces s = Some r -> exists g, s = g ++ r /\ is_gap g.
Proof.
  destruct s as [|c s]; simpl; [discriminate|].
  destruct (is_space c) eqn:E; [|discriminate].
  intros [= <-].
  destruct (lstrip_split is_space s) as (pre & Hs & Hp).
  exists (c :: pre). split; [simpl; f_equal; exact Hs|].
  split; [discriminate | constructor; assumption].
Qed.

Lemma until_quote_title t rest :
  Forall (fun c => c <> double_quote) t ->
  until_quote (t ++ double_quote :: rest) = (t, double_quote :: rest).
Proof.
  induction 1 as [|c t Hc _ IH]; simpl.
  - reflexivity.
  - apply Ascii.eqb_neq in Hc. rewrite Hc, IH. reflexivity.
Qed.

Lemma until_quote_inv s :
  s = fst (until_quote s) ++ snd (until_quote s) /\
  Forall (fun c => c <> double_quote) (fst (until_quote s)) /\
  (snd (until_quote s) = [] \/
   exists r, snd (until_quote s) = double_quote :: r).
Proof.
  induction s as [|c s (IH1 & IH2 & IH3)]; simpl.
  - split; [reflexivity|]. split; [constructor | left; reflexivity].
  - destruct (Ascii.eqb c double_quote) eqn:E; simpl.
    + apply Ascii.eqb_eq in E. subst c.
      split; [reflexivity|]. split; [constructor|]. right. exists s. reflexivity.
    + apply Ascii.eqb_neq in E.
      split; [f_equal; exact IH1|]. split; [constructor; assumption | exact IH3].
Qed.

Lemma eat_title_title t rest :
  is_title t -> eat_title (t ++ double_quote :: rest) = Some (t, rest).
Proof.
  intros [Hne Hq]. unfold eat_title. rewrite (until_quote_title t rest Hq).
  destruct t; [congruence | reflexivity].
Qed.

Lemma eat_title_inv s t rest :
  eat_title s = Some (t, rest) -> s = t ++ double_quote :: rest /\ is_title t.
Proof.
  unfold eat_title.
  destruct (until_quote_inv s) as (Hs & Hq & Hr).
  destruct (until_quote s) as [t' r']. simpl in Hs, Hq, Hr.
  destruct t' as [|c t']; [discriminate|].
  destruct r' as [|q r']; [discriminate|].
  intros [= <- <-].
  destruct Hr as [Hr | (r & Hr)]; [discriminate|].
  injection Hr as -> ->.
  split; [exact Hs|]. split; [discriminate | exact Hq].
Qed.

(** The pattern matches a well-formed item, whatever follows it. *)
Lemma match_toc_item_item g1 g2 t rest :
  is_gap g1 -> is_gap g2 -> is_title t ->
  match_toc_item (toc_item g1 g2 t ++ rest) = Some (t, rest).
Proof.
  intros H1 H2 Ht. unfold match_toc_item, toc_item.
  rewrite <- !app_assoc.
  rewrite eat_literal_app.
  rewrite (eat_spaces_gap g1 _ H1) by reflexivity.
  rewrite eat_literal_app.
  rewrite (eat_spaces_gap g2 _ H2) by reflexivity.
  change ([double_quote] ++ t ++ [double_quote] ++ rest)
    with ([double_quote] ++ (t ++ double_quote :: rest)).
  rewrite eat_literal_app.
  apply eat_title_title. exact Ht.
Qed.

(** What the pattern matches is a well-formed item. *)
Lemma match_toc_item_inv s t rest :
  match_toc_item s = Some (t, rest) ->
  exists g1 g2, s = toc_item g1 g2 t ++ rest /\ is_gap g1 /\ is_gap g2 /\ is_title t.
Proof.
  unfold match_toc_item.
  destruct (eat_literal _ s) as [s1|] eqn:E1; [|discriminate].
  destruct (eat_spaces s1) as [s2|] eqn:E2; [|discriminate].
  destruct (eat_literal _ s2) as [s3|] eqn:E3; [|discriminate].
  destruct (eat_spaces s3) as [s4|] eqn:E4; [|discriminate].
  destruct (eat_literal _ s4) as [s5|] eqn:E5; [|discriminate].
  intro E6.
  apply eat_literal_inv in E1, E3, E5.
  apply eat_spaces_inv in E2, E4.
  destruct E2 as (g1 & E2 & H1). destruct E4 as (g2 & E4 & H2).
  apply eat_title_inv in E6. destruct E6 as (E6 & Ht).
  exists g1, g2. split; [|auto].
  unfold toc_item. rewrite <- !app_assoc.
  rewrite E1, E2, E3, E4, E5, E6. reflexivity.
Qed.

Lemma match_toc_item_head c s :
  c <> "\"%char -> match_toc_item (c :: s) = None.
Proof.
  intro H. unfold match_toc_item. simpl.
  apply Ascii.eqb_neq in H. rewrite H. reflexivity.
Qed.

Lemma findall_toc_skip pre : forall s,
  findall_toc (length pre) (pre ++ s) = findall_toc 0 s.
Proof.
  induction pre as [|c pre IH]; intro s; simpl; [reflexivity | apply IH].
Qed.

Lemma findall_toc_junk j : forall s,
  Forall (fun c => c <> "\"%char) j ->
  findall_toc 0 (j ++ s) = findall_toc 0 s.
Proof.
  induction j as [|c j IH]; intros s H; [reflexivity|].
  apply Forall_cons_iff in H. destruct H as [Hc Hj].
  change ((c :: j) ++ s) with (c :: (j ++ s)).
  cbn [findall_toc]. rewrite (match_toc_item_head c _ Hc). apply IH. exact Hj.
Qed.

Lemma findall_toc_item g1 g2 t rest :
  is_gap g1 -> is_gap g2 -> is_title t ->
  findall_toc 0 (toc_item g1 g2 t ++ rest) = t :: findall_toc 0 rest.
Proof.
  intros H1 H2 Ht.
  pose proof (match_toc_item_item g1 g2 t rest H1 H2 Ht) as Hm.
  assert (Hc : exists c pre, toc_item g1 g2 t = c :: pre)
    by (unfold toc_item; simpl; eauto).
  destruct Hc as (c & pre & Hc). rewrite Hc in *.
  change ((c :: pre) ++ rest) with (c :: (pre ++ rest)) in *.
  cbn [findall_toc]. rewrite Hm. f_equal.
  replace (length (pre ++ rest) - length rest)%nat with (length pre)
    by (rewrite length_app; lia).
  apply findall_toc_skip.
Qed.

Lemma findall_toc_entries es : forall tail,
  Forall well_formed_entry es ->
  Forall (fun c => c <> "\"%char) tail ->
  findall_toc 0 (concat (map render_entry es) ++ tail) = map toc_title es.
Proof.
  induction es as [|e es IH]; intros tail Hes Htail.
  - simpl. rewrite <- (app_nil_r tail). rewrite (findall_toc_junk tail [] Htail).
    reflexivity.
  - apply Forall_cons_iff in Hes. destruct Hes as [(Hj & H1 & H2 & Ht) Hes].
    cbn [map concat]. unfold render_entry at 1.
    rewrite <- !app_assoc.
    rewrite (findall_toc_junk _ _ Hj).
    rewrite (findall_toc_item _ _ _ _ H1 H2 Ht).
    f_equal. apply IH; assumption.
Qed.

Lemma findall_toc_quoted s : forall skip,
  Forall (quoted_in s) (findall_toc skip s).
Proof.
  induction s as [|c s IH]; intro skip; [constructor|].
  assert (Hlift : forall l, Forall (quoted_in s) l -> Forall (quoted_in (c :: s)) l).
  { intros l H. eapply Forall_impl; [|exact H].
    intros t (pre & g1 & g2 & rest & E & Hg).
    exists (c :: pre), g1, g2, rest. split; [simpl; f_equal; exact E | exact Hg]. }
  cbn [findall_toc]. destruct skip as [|k]; [|apply Hlift, IH].
  destruct (match_toc_item (c :: s)) as [[t rest]|] eqn:E; [|apply Hlift, IH].
  constructor; [|apply Hlift, IH].
  apply match_toc_item_inv in E. destruct E as (g1 & g2 & E & Hg).
  exists [], g1, g2, rest. split; [exact E | exact Hg].
Qed.

(** X14.  Reading back a table of contents: for a text made of
    well-formed items ([\tocItem], white space, [\markup], white space, a
    quoted non-empty title without a double quote), each preceded by text
    without a backslash and the whole followed by such text,
    [parse_toc_titles] returns exactly the titles, in order. *)
Theorem parse_toc_titles_round_trip (es : list TocEntry) (tail : list ascii) :
  Forall well_formed_entry es ->
  Forall (fun c => c <> "\"%char) tail ->
  parse_toc_titles (Some (render_toc es tail)) =
  map (fun e => string_of_list_ascii (toc_title e)) es.
Proof.
  intros Hes Htail. unfold parse_toc_titles, render_toc.
  rewrite list_ascii_of_string_of_list_ascii.
  rewrite (findall_toc_entries es tail Hes Htail).
  apply map_map.
Qed.

Lemma parse_toc_titles_round_trip_witness :
  let nl := [ascii_of_nat 10] in
  let sp := [" "%char] in
  let es := [ mkTocEntry (list_ascii_of_string "% book") (sp ++ sp) sp
                         (list_ascii_of_string "All Of Me");
              mkTocEntry nl nl (sp ++ nl)
                         (list_ascii_of_string "Take the \markup train") ] in
  parse_toc_titles (Some (render_toc es nl)) =
  ["All Of Me"%string; "Take the \markup train"%string].
Proof.
  apply (parse_toc_titles_round_trip
           [ mkTocEntry (list_ascii_of_string "% book") ([" "%char] ++ [" "%char])
                        [" "%char] (list_ascii_of_string "All Of Me");
             mkTocEntry [ascii_of_nat 10] [ascii_of_nat 10]
                        ([" "%char] ++ [ascii_of_nat 10])
                        (list_ascii_of_string "Take the \markup train") ]
           [ascii_of_nat 10]).
  - repeat constructor; simpl; try discriminate.
  - repeat constructor; discriminate.
Defined.

(** X15.  Every title [parse_toc_titles] returns stands in the text as
    the quoted argument of a [\tocItem ... \markup], is not empty and
    holds no double quote; a file that cannot be read gives no title. *)
Theorem parse_toc_titles_sound (file_text : option string) :
  match file_text with
  | None => parse_toc_titles file_text = []
  | Some txt =>
      Forall (fun t => quoted_in (list_ascii_of_string txt) (list_ascii_of_string t))
             (parse_toc_titles file_text)
  end.
Proof.
  destruct file_text as [txt|]; [|reflexivity].
  unfold parse_toc_titles. apply Forall_map.
  eapply Forall_impl; [|apply findall_toc_quoted].
  intros t H. rewrite list_ascii_of_string_of_list_ascii. exact H.
Qed.

(** An item with an empty title, or with no white space before
    [\markup], is passed over. *)
Example parse_toc_titles_passes_over :
  let q := [double_quote] in
  let txt := list_ascii_of_string "\tocItem \markup " ++ q ++ q ++
             list_ascii_of_string " \tocItem\markup " ++ q ++
             list_ascii_of_string "A" ++ q ++
             list_ascii_of_string " \tocItem  \markup " ++ q ++
             list_ascii_of_string "B" ++ q in
  parse_toc_titles (Some (string_of_list_ascii txt)) = ["B"%string].
Proof. reflexivity. Qed.

(** * Properties of the program in binary64 *)

(** ** Integers as floats

    An integer below 2^53 is a float, and the sum of two such integers is
    computed exactly when it is below 2^53 as well. *)

Lemma iter_pos_nat {A} (f : A -> A) p : forall x,
  iter_pos f p x = Nat.iter (Pos.to_nat p) f x.
Proof.
  induction p as [p IH|p IH|]; intro x; simpl iter_pos.
  - rewrite !IH. rewrite Pos2Nat.inj_xI.
    replace (S (2 * Pos.to_nat p))%nat with (Pos.to_nat p + (Pos.to_nat p + 1))%nat by lia.
    rewrite !Nat.iter_add. reflexivity.
  - rewrite !IH. rewrite Pos2Nat.inj_xO.
    replace (2 * Pos.to_nat p)%nat with (Pos.to_nat p + Pos.to_nat p)%nat by lia.
    rewrite Nat.iter_add. reflexivity.
  - reflexivity.
Qed.

Lemma pos_iter_nat {A} (f : A -> A) p x :
  Pos.iter f x p = Nat.iter (Pos.to_nat p) f x.
Proof. apply Pos2Nat.inj_iter. Qed.

Lemma shift_add m a b :
  Binary64.shift (Binary64.shift m a) b = Binary64.shift m (b + a).
Proof. unfold Binary64.shift. symmetry. apply Nat.iter_add. Qed.

Lemma shift_plus k : forall a b,
  (Binary64.shift a k + Binary64.shift b k)%positive = Binary64.shift (a + b) k.
Proof.
  induction k as [|k IH]; intros a b; [reflexivity|].
  unfold Binary64.shift in *. simpl. rewrite <- IH. reflexivity.
Qed.

Lemma digits_shift m k :
  Z.pos (digits2_pos (Binary64.shift m k)) = Z.pos (digits2_pos m) + Z.of_nat k.
Proof.
  induction k as [|k IH]; [simpl; lia|].
  unfold Binary64.shift in *. simpl Nat.iter. simpl digits2_pos. lia.
Qed.

Lemma shr_shift k : forall m,
  Nat.iter k shr_1 (Build_shr_record (Z.pos (Binary64.shift m k)) false false) =
  Build_shr_record (Z.pos m) false false.
Proof.
  induction k as [|k IH]; intro m; [reflexivity|].
  rewrite Nat.iter_succ_r. unfold Binary64.shift. simpl Nat.iter. simpl shr_1. apply IH.
Qed.

Lemma digits_bounds p :
  2 ^ (Z.pos (digits2_pos p) - 1) <= Z.pos p < 2 ^ Z.pos (digits2_pos p).
Proof.
  induction p as [p IH|p IH|]; simpl digits2_pos.
  - rewrite Pos2Z.inj_succ.
    replace (Z.succ (Z.pos (digits2_pos p)) - 1) with (Z.succ (Z.pos (digits2_pos p) - 1)) by lia.
    rewrite !Z.pow_succ_r by lia. lia.
  - rewrite Pos2Z.inj_succ.
    replace (Z.succ (Z.pos (digits2_pos p)) - 1) with (Z.succ (Z.pos (digits2_pos p) - 1)) by lia.
    rewrite !Z.pow_succ_r by lia. lia.
  - simpl. lia.
Qed.

Lemma digits_le_of_lt p n : 0 <= n -> Z.pos p < 2 ^ n -> Z.pos (digits2_pos p) <= n.
Proof.
  intros Hn H. destruct (digits_bounds p) as [Hlo _].
  destruct (Z_le_gt_dec (Z.pos (digits2_pos p)) n) as [|Hgt]; [assumption|].
  exfalso. assert (2 ^ n <= 2 ^ (Z.pos (digits2_pos p) - 1)) by (apply Z.pow_le_mono_r; lia).
  lia.
Qed.

Lemma digits_mono p q : (p <= q)%positive -> Z.pos (digits2_pos p) <= Z.pos (digits2_pos q).
Proof.
  intro H. apply digits_le_of_lt; [lia|].
  destruct (digits_bounds q) as [_ Hq]. lia.
Qed.

(** A mantissa of 53 digits with an exponent in range is its own
    rounding. *)
Lemma round_aux_canonical s m0 E :
  Z.pos (digits2_pos m0) = 53 -> -1074 <= E <= 971 ->
  binary_round_aux prec emax s (Z.pos m0) E loc_Exact = S754_finite s m0 E.
Proof.
  intros Hd HE. unfold binary_round_aux, shr_fexp. cbn [Zdigits2 shr_record_of_loc].
  rewrite Hd.
  assert (Hf : fexp prec emax (53 + E) - E = 0)
    by (unfold fexp, emin, prec, emax; lia).
  rewrite Hf. cbn [shr shr_m loc_of_shr_record round_nearest_even Zdigits2 shr_record_of_loc].
  rewrite Hd, Hf. cbn [shr shr_m].
  replace (E <=? emax - prec) with true
    by (symmetry; apply Z.leb_le; unfold emax, prec; lia).
  reflexivity.
Qed.

(** Rounding a mantissa that is too short shifts it to 53 digits. *)
Lemma round_shl s m k E :
  Z.pos (digits2_pos m) + Z.of_nat k = 53 -> -1074 <= E <= 971 ->
  binary_round prec emax s m (E + Z.of_nat k) = S754_finite s (Binary64.shift m k) E.
Proof.
  intros Hd HE. unfold binary_round.
  assert (Hf : fexp prec emax (Z.pos (digits2_pos m) + (E + Z.of_nat k)) = E)
    by (unfold fexp, emin, prec, emax; lia).
  rewrite Hf. unfold shl_align.
  destruct k as [|k].
  - replace (E - (E + Z.of_nat 0)) with 0 by lia.
    replace (E + Z.of_nat 0) with E by lia.
    change (Binary64.shift m 0) with m. apply round_aux_canonical; [lia | exact HE].
  - change (Z.of_nat (S k)) with (Z.pos (Pos.of_succ_nat k)).
    replace (E - (E + Z.pos (Pos.of_succ_nat k))) with (Z.neg (Pos.of_succ_nat k)) by lia.
    rewrite pos_iter_nat, SuccNat2Pos.id_succ.
    apply round_aux_canonical; [|exact HE].
    change (Nat.iter (S k) xO m) with (Binary64.shift m (S k)). rewrite digits_shift. exact Hd.
Qed.

(** Rounding a mantissa of 53 digits followed by [k] zero bits drops the
    zero bits. *)
Lemma round_shr s m0 k E :
  Z.pos (digits2_pos m0) = 53 -> -1074 <= E <= 971 ->
  binary_round prec emax s (Binary64.shift m0 k) (E - Z.of_nat k) = S754_finite s m0 E.
Proof.
  intros Hd HE. destruct k as [|k].
  - replace (E - Z.of_nat 0) with (E + Z.of_nat 0) by lia.
    change (Binary64.shift m0 0) with m0.
    rewrite (round_shl s m0 0 E); [reflexivity | lia | exact HE].
  - unfold binary_round.
    assert (Hf : fexp prec emax (Z.pos (digits2_pos (Binary64.shift m0 (S k)))
                                 + (E - Z.of_nat (S k))) = E)
      by (rewrite digits_shift; unfold fexp, emin, prec, emax; lia).
    rewrite Hf. unfold shl_align.
    assert (Hsk : Z.of_nat (S k) = Z.pos (Pos.of_succ_nat k)) by reflexivity.
    replace (E - (E - Z.of_nat (S k))) with (Z.pos (Pos.of_succ_nat k)) by lia.
    unfold binary_round_aux, shr_fexp. cbn [Zdigits2 shr_record_of_loc].
    rewrite Hf.
    replace (E - (E - Z.of_nat (S k))) with (Z.pos (Pos.of_succ_nat k)) by lia.
    cbn [shr]. rewrite iter_pos_nat, SuccNat2Pos.id_succ.
    rewrite shr_shift.
    cbn [shr_m loc_of_shr_record round_nearest_even Zdigits2 shr_record_of_loc].
    replace (E - Z.of_nat (S k) + Z.pos (Pos.of_succ_nat k)) with E by lia.
    rewrite Hd.
    assert (Hf' : fexp prec emax (53 + E) - E = 0)
      by (unfold fexp, emin, prec, emax; lia).
    rewrite Hf'. cbn [shr shr_m].
    replace (E <=? emax - prec) with true
      by (symmetry; apply Z.leb_le; unfold emax, prec; lia).
    reflexivity.
Qed.

(** The float of a positive integer below 2^53. *)
Lemma of_int_pos p :
  Z.pos p < 2 ^ 53 ->
  Binary64.of_int (Z.pos p) =
  S754_finite false (Binary64.shift p (Binary64.lead p)) (- Z.of_nat (Binary64.lead p)).
Proof.
  intro H. pose proof (digits_le_of_lt p 53 ltac:(lia) H) as Hd.
  unfold Binary64.of_int, binary_normalize, Binary64.lead.
  set (k := Z.to_nat (53 - Z.pos (digits2_pos p))).
  replace 0 with (- Z.of_nat k + Z.of_nat k) at 1 by lia.
  apply round_shl; lia.
Qed.

Lemma of_int_add a b :
  0 <= a -> 0 <= b -> a + b < 2 ^ 53 ->
  Binary64.fadd (Binary64.of_int a) (Binary64.of_int b) = Binary64.of_int (a + b).
Proof.
  intros Ha Hb Hab. unfold Binary64.fadd.
  destruct a as [|a|a]; [|clear Ha|lia].
  { change (Binary64.of_int 0) with (S754_zero false). rewrite Z.add_0_l.
    destruct b as [|b|b]; [reflexivity| |lia].
    rewrite of_int_pos by lia. reflexivity. }
  destruct b as [|b|b]; [|clear Hb|lia].
  { change (Binary64.of_int 0) with (S754_zero false). rewrite Z.add_0_r.
    rewrite of_int_pos by lia. reflexivity. }
  change (Z.pos a + Z.pos b) with (Z.pos (a + b)) in *.
  rewrite (of_int_pos a), (of_int_pos b), (of_int_pos (a + b)) by lia.
  pose proof (digits_le_of_lt (a + b) 53 ltac:(lia) Hab) as Hdc.
  pose proof (digits_mono a (a + b) ltac:(lia)) as Hda.
  pose proof (digits_mono b (a + b) ltac:(lia)) as Hdb.
  pose proof (Pos2Z.is_pos (digits2_pos a)) as Hpa.
  pose proof (Pos2Z.is_pos (digits2_pos b)) as Hpb.
  assert (Hka : Z.of_nat (Binary64.lead a) = 53 - Z.pos (digits2_pos a))
    by (unfold Binary64.lead; lia).
  assert (Hkb : Z.of_nat (Binary64.lead b) = 53 - Z.pos (digits2_pos b))
    by (unfold Binary64.lead; lia).
  assert (Hkc : Z.of_nat (Binary64.lead (a + b)) = 53 - Z.pos (digits2_pos (a + b)))
    by (unfold Binary64.lead; lia).
  set (ka := Binary64.lead a) in *. set (kb := Binary64.lead b) in *.
  set (kc := Binary64.lead (a + b)) in *.
  cbn [SFadd cond_Zopp].
  set (ez := Z.min (- Z.of_nat ka) (- Z.of_nat kb)).
  set (kz := Nat.max ka kb).
  assert (Hez : ez = - Z.of_nat kz) by (unfold ez, kz; lia).
  assert (Hal : forall m k, (k <= kz)%nat ->
            fst (shl_align (Binary64.shift m k) (- Z.of_nat k) ez) = Binary64.shift m kz).
  { intros m k Hk. unfold shl_align. rewrite Hez.
    destruct (Nat.eq_dec k kz) as [->|Hne].
    - replace (- Z.of_nat kz - - Z.of_nat kz) with 0 by lia. reflexivity.
    - destruct (kz - k)%nat as [|d] eqn:Ed; [lia|].
      replace (- Z.of_nat kz - - Z.of_nat k) with (Z.neg (Pos.of_succ_nat d)) by lia.
      cbn [fst]. rewrite pos_iter_nat, SuccNat2Pos.id_succ. rewrite <- Ed.
      change (Nat.iter (kz - k) xO (Binary64.shift m k))
        with (Binary64.shift (Binary64.shift m k) (kz - k)).
      rewrite shift_add. f_equal. lia. }
  rewrite (Hal a ka), (Hal b kb) by (unfold kz; lia).
  change (Z.pos (Binary64.shift a kz) + Z.pos (Binary64.shift b kz))
    with (Z.pos (Binary64.shift a kz + Binary64.shift b kz)).
  rewrite shift_plus. cbn [binary_normalize].
  assert (Hk : (kc <= kz)%nat) by (unfold kz; lia).
  replace (Binary64.shift (a + b) kz)
    with (Binary64.shift (Binary64.shift (a + b) kc) (kz - kc))
    by (rewrite shift_add; f_equal; lia).
  replace ez with (- Z.of_nat kc - Z.of_nat (kz - kc)) by lia.
  apply round_shr; [rewrite digits_shift; lia | lia].
Qed.

(** Python converts such an integer without [OverflowError]. *)
Lemma float_of_int_exact z :
  0 <= z < 2 ^ 53 -> float_of_int z = Ok (Binary64.of_int z).
Proof.
  intros [H0 H1]. unfold float_of_int.
  change (binary_normalize prec emax z 0 false) with (Binary64.of_int z).
  destruct z as [|p|p]; [reflexivity| |lia].
  rewrite of_int_pos by exact H1. reflexivity.
Qed.

(** ** Comparisons of floats *)

Lemma SFltb_trans x y z :
  SFltb x y = true -> SFltb y z = true -> SFltb x z = true.
Proof.
  unfold SFltb, SFcompare.
  destruct x as [sx|sx| |sx mx ex], y as [sy|sy| |sy my ey], z as [sz|sz| |sz mz ez];
    try discriminate; try (destruct sx; discriminate); try (destruct sy; discriminate);
    try (destruct sz; discriminate);
    try (destruct sx, sy; discriminate); try (destruct sy, sz; discriminate);
    try (destruct sx, sz; try reflexivity; try discriminate;
         destruct sy; discriminate).
  all: try (destruct sx, sy, sz; try reflexivity; discriminate).
  change (Pos.compare_cont Eq mx my) with (Pos.compare mx my).
  change (Pos.compare_cont Eq my mz) with (Pos.compare my mz).
  change (Pos.compare_cont Eq mx mz) with (Pos.compare mx mz).
  destruct sx, sy, sz; try reflexivity; try discriminate;
    destruct (Z.compare_spec ex ey), (Z.compare_spec ey ez), (Z.compare_spec ex ez);
    try reflexivity; try discriminate; try lia; subst;
    destruct (Pos.compare_spec mx my), (Pos.compare_spec my mz), (Pos.compare_spec mx mz);
    simpl; try reflexivity; try discriminate; try lia.
Qed.

Lemma SFltb_irrefl x : SFltb x x = false.
Proof.
  destruct (SFltb x x) eqn:E; [|reflexivity].
  unfold SFltb, SFcompare in E.
  destruct x as [s|s| |s m e]; try discriminate; try (destruct s; discriminate).
  rewrite Z.compare_refl in E.
  change (Pos.compare_cont Eq m m) with (Pos.compare m m) in E.
  rewrite Pos.compare_refl in E. destruct s; discriminate.
Qed.

(** [min] and [max] return an element that no element is below, or
    above. *)
Lemma py_min_least x l :
  In (Binary64.py_min x l) (x :: l) /\
  forall y, In y (x :: l) -> SFltb y (Binary64.py_min x l) = false.
Proof.
  unfold Binary64.py_min.
  assert (H : forall seen best,
            In best seen -> (forall y, In y seen -> SFltb y best = false) ->
            In (fold_left (fun best y => if SFltb y best then y else best) l best)
               (seen ++ l) /\
            forall y, In y (seen ++ l) ->
              SFltb y (fold_left (fun best y => if SFltb y best then y else best) l best)
              = false).
  { induction l as [|z l IH]; intros seen best Hin Hle; simpl.
    - rewrite app_nil_r. split; assumption.
    - replace (seen ++ z :: l) with ((seen ++ [z]) ++ l) by (rewrite <- app_assoc; reflexivity).
      destruct (SFltb z best) eqn:E.
      + apply IH; [apply in_or_app; right; left; reflexivity|].
        intros y Hy. apply in_app_or in Hy. destruct Hy as [Hy|[<-|[]]].
        * destruct (SFltb y z) eqn:Eyz; [|reflexivity].
          rewrite <- (Hle y Hy). symmetry. apply (SFltb_trans y z best Eyz E).
        * apply SFltb_irrefl.
      + apply IH; [apply in_or_app; left; exact Hin|].
        intros y Hy. apply in_app_or in Hy. destruct Hy as [Hy|[<-|[]]].
        * apply Hle, Hy.
        * exact E. }
  apply (H [x] x); [left; reflexivity|].
  intros y [<-|[]]. apply SFltb_irrefl.
Qed.

Lemma py_max_greatest x l :
  In (Binary64.py_max x l) (x :: l) /\
  forall y, In y (x :: l) -> SFltb (Binary64.py_max x l) y = false.
Proof.
  unfold Binary64.py_max.
  assert (H : forall seen best,
            In best seen -> (forall y, In y seen -> SFltb best y = false) ->
            In (fold_left (fun best y => if SFltb best y then y else best) l best)
               (seen ++ l) /\
            forall y, In y (seen ++ l) ->
              SFltb (fold_left (fun best y => if SFltb best y then y else best) l best) y
              = false).
  { induction l as [|z l IH]; intros seen best Hin Hle; simpl.
    - rewrite app_nil_r. split; assumption.
    - replace (seen ++ z :: l) with ((seen ++ [z]) ++ l) by (rewrite <- app_assoc; reflexivity).
      destruct (SFltb best z) eqn:E.
      + apply IH; [apply in_or_app; right; left; reflexivity|].
        intros y Hy. apply in_app_or in Hy. destruct Hy as [Hy|[<-|[]]].
        * destruct (SFltb z y) eqn:Ezy; [|reflexivity].
          rewrite <- (Hle y Hy). symmetry. apply (SFltb_trans best z y E Ezy).
        * apply SFltb_irrefl.
      + apply IH; [apply in_or_app; left; exact Hin|].
        intros y Hy. apply in_app_or in Hy. destruct Hy as [Hy|[<-|[]]].
        * apply Hle, Hy.
        * exact E. }
  apply (H [x] x); [left; reflexivity|].
  intros y [<-|[]]. apply SFltb_irrefl.
Qed.

Lemma binary64_earliest_start_spec ns t0 :
  Binary64.earliest_start ns = Ok t0 ->
  In t0 (map Binary64.start ns) /\
  forall n, In n ns -> SFltb (Binary64.start n) t0 = false.
Proof.
  destruct ns as [|n ns]; simpl; [discriminate|]. intro H. injection H as <-.
  destruct (py_min_least (Binary64.start n) (map Binary64.start ns)) as (Hin & Hle).
  split; [exact Hin|]. intros n' Hn'. apply Hle.
  change (In (Binary64.start n') (map Binary64.start (n :: ns))). apply in_map. exact Hn'.
Qed.

Lemma binary64_latest_end_spec ns t1 :
  Binary64.latest_end ns = Ok t1 ->
  In t1 (map Binary64.end_ ns) /\
  forall n, In n ns -> SFltb t1 (Binary64.end_ n) = false.
Proof.
  destruct ns as [|n ns]; simpl; [discriminate|]. intro H. injection H as <-.
  destruct (py_max_greatest (Binary64.end_ n) (map Binary64.end_ ns)) as (Hin & Hle).
  split; [exact Hin|]. intros n' Hn'. apply Hle.
  change (In (Binary64.end_ n') (map Binary64.end_ (n :: ns))). apply in_map. exact Hn'.
Qed.

(** ** [np.linspace] *)

Lemma set_last_app (l : list Binary64.float) x stop :
  Binary64.set_last (l ++ [x]) stop = l ++ [stop].
Proof. unfold Binary64.set_last. rewrite removelast_last. reflexivity. Qed.

(** The samples of [np.linspace] for two samples or more. *)
Lemma binary64_linspace_points t0 t1 slices :
  2 <= slices ->
  Binary64.linspace t0 t1 slices =
  Ok (map (Binary64.sample_point t0 t1 slices) (seq 0 (Z.to_nat slices))).
Proof.
  intro Hs. unfold Binary64.linspace.
  replace (slices <? 0) with false by (symmetry; apply Z.ltb_ge; lia).
  replace (0 <? slices - 1) with true by (symmetry; apply Z.ltb_lt; lia).
  replace (1 <? slices) with true by (symmetry; apply Z.ltb_lt; lia).
  cbv zeta. f_equal.
  destruct (Z.to_nat slices) as [|m] eqn:Em; [lia|].
  assert (Hm : Z.of_nat m = slices - 1) by lia.
  rewrite seq_S.
  assert (Hlast : Binary64.sample_point t0 t1 slices (0 + m) = t1).
  { unfold Binary64.sample_point. rewrite Nat.add_0_l, Hm, Z.eqb_refl. reflexivity. }
  assert (Hbody : forall f,
            (forall i, (i < m)%nat ->
               Binary64.sample_point t0 t1 slices i =
               Binary64.fadd (f (Binary64.of_int (Z.of_nat i))) t0) ->
            Binary64.set_last
              (map (fun v => Binary64.fadd v t0)
                 (map f (map (fun i => Binary64.of_int (Z.of_nat i))
                            (seq 0 m ++ [(0 + m)%nat])))) t1 =
            map (Binary64.sample_point t0 t1 slices) (seq 0 m ++ [(0 + m)%nat])).
  { intros f Hf. rewrite !map_app. cbn [map]. rewrite set_last_app, Hlast. f_equal.
    rewrite !map_map. apply map_ext_in. intros i Hi. apply in_seq in Hi.
    symmetry. apply Hf. lia. }
  assert (Hsp : forall i, (i < m)%nat ->
            Binary64.sample_point t0 t1 slices i =
            Binary64.interpolate t0 t1 (slices - 1) i).
  { intros i Hi. unfold Binary64.sample_point.
    replace (Z.of_nat i =? slices - 1) with false by (symmetry; apply Z.eqb_neq; lia).
    reflexivity. }
  destruct (SFeqb (Binary64.fdiv (Binary64.fsub t1 t0) (Binary64.of_int (slices - 1)))
                  Binary64.zero) eqn:Ez.
  - apply Hbody. intros i Hi. rewrite (Hsp i Hi). unfold Binary64.interpolate.
    cbv zeta. rewrite Ez. reflexivity.
  - apply Hbody. intros i Hi. rewrite (Hsp i Hi). unfold Binary64.interpolate.
    cbv zeta. rewrite Ez. reflexivity.
Qed.

Lemma binary64_windows_map_seq {A} (f : nat -> A) len : forall n,
  Binary64.windows (map f (seq n len)) = map (fun i => (f i, f (S i))) (seq n (len - 1)).
Proof.
  induction len as [|len IH]; intro n; [reflexivity|].
  destruct len as [|len]; [reflexivity|].
  change (seq n (S (S len))) with (n :: seq (S n) (S len)).
  replace (S (S len) - 1)%nat with (S (S len - 1)) by lia.
  change (seq n (S (S len - 1))) with (n :: seq (S n) (S len - 1)).
  cbn [map]. rewrite <- IH.
  change (seq (S n) (S len)) with (S n :: seq (S (S n)) len). reflexivity.
Qed.

Lemma binary64_count_overlapping_le ns a b :
  0 <= Binary64.count_overlapping ns a b <= Z.of_nat (length ns).
Proof.
  unfold Binary64.count_overlapping.
  pose proof (filter_length_le (Binary64.overlaps a b) ns). lia.
Qed.

(** The loop over the slices counts exactly, as long as the total stays
    below 2^53. *)
Lemma sum_counts_exact ns wins : forall acc,
  0 <= acc ->
  acc + Z.of_nat (length wins) * Z.of_nat (length ns) < 2 ^ 53 ->
  Binary64.sum_counts ns wins (Binary64.of_int acc) =
  Ok (Binary64.of_int
        (acc + fold_right Z.add 0
                 (map (fun ab => Binary64.count_overlapping ns (fst ab) (snd ab)) wins))).
Proof.
  induction wins as [|ab wins IH]; intros acc Hacc Hb.
  - simpl. rewrite Z.add_0_r. reflexivity.
  - cbn [Binary64.sum_counts map fold_right].
    pose proof (binary64_count_overlapping_le ns (fst ab) (snd ab)) as Hc.
    set (c := Binary64.count_overlapping ns (fst ab) (snd ab)) in *.
    assert (Hlen : Z.of_nat (length (ab :: wins)) = 1 + Z.of_nat (length wins))
      by (simpl length; lia).
    rewrite Hlen in Hb.
    assert (Hw : 0 <= Z.of_nat (length wins) * Z.of_nat (length ns)) by nia.
    unfold Binary64.py_add_int. rewrite float_of_int_exact by lia. cbn [bind].
    rewrite of_int_add by lia.
    rewrite IH by nia. do 2 f_equal. lia.
Qed.

(** ** Average simultaneity *)

(** C9, as the program has it.  For a track with notes whose latest end
    is not at or before its earliest start, at least two sample points and
    fewer than 2^53 (note, slice) pairs, the score is the binary64 quotient
    of the number of overlapping (note, slice) pairs by the number of
    slices.  The slices are the [slices - 1] intervals between consecutive
    sample points of [np.linspace], which are the values
    [t0 + i * ((t1 - t0) / (slices - 1))] computed in binary64, each
    operation rounded, the last one being [t1] itself; a note overlaps a
    slice when it starts before the slice ends and ends after the slice
    starts.  [t0] is a start that no note starts before and [t1] an end
    that no note ends after. *)
Theorem avg_simultaneity_is_mean_over_slices
    (inst : Binary64.Instrument) (slices : Z) (t0 t1 : Binary64.float) :
  Binary64.earliest_start (Binary64.notes inst) = Ok t0 ->
  Binary64.latest_end (Binary64.notes inst) = Ok t1 ->
  SFleb t1 t0 = false ->
  2 <= slices ->
  Z.of_nat (length (Binary64.notes inst)) * (slices - 1) < 2 ^ 53 ->
  (In t0 (map Binary64.start (Binary64.notes inst)) /\
   forall n, In n (Binary64.notes inst) -> SFltb (Binary64.start n) t0 = false) /\
  (In t1 (map Binary64.end_ (Binary64.notes inst)) /\
   forall n, In n (Binary64.notes inst) -> SFltb t1 (Binary64.end_ n) = false) /\
  Binary64.linspace t0 t1 slices =
    Ok (map (Binary64.sample_point t0 t1 slices) (seq 0 (Z.to_nat slices))) /\
  Binary64.sample_point t0 t1 slices (Z.to_nat (slices - 1)) = t1 /\
  Binary64.avg_simultaneity inst slices =
    Ok (Binary64.fdiv
          (Binary64.of_int (Binary64.slice_count_sum (Binary64.notes inst) t0 t1 slices))
          (Binary64.of_int (slices - 1))).
Proof.
  intros H0 H1 Hspan Hs Hbound.
  split; [apply binary64_earliest_start_spec; exact H0|].
  split; [apply binary64_latest_end_spec; exact H1|].
  split; [apply binary64_linspace_points; exact Hs|].
  split.
  { unfold Binary64.sample_point.
    replace (Z.of_nat (Z.to_nat (slices - 1)) =? slices - 1) with true
      by (symmetry; apply Z.eqb_eq; lia).
    reflexivity. }
  unfold Binary64.avg_simultaneity.
  destruct (Binary64.notes inst) as [|n ns] eqn:En; [discriminate|].
  rewrite H0, H1. cbn [bind]. rewrite Hspan.
  rewrite (binary64_linspace_points t0 t1 slices Hs). cbn [bind].
  rewrite length_map, length_seq, binary64_windows_map_seq.
  assert (Hlen : Z.of_nat (length (n :: ns)) >= 1) by (simpl length; lia).
  change Binary64.zero with (Binary64.of_int 0).
  rewrite sum_counts_exact; [| lia | rewrite length_map, length_seq; nia].
  cbn [bind]. unfold Binary64.py_truediv.
  rewrite float_of_int_exact by nia. cbn [bind].
  replace (Z.of_nat (Z.to_nat slices) - 1 =? 0) with false
    by (symmetry; apply Z.eqb_neq; lia).
  unfold Binary64.slice_count_sum.
  rewrite map_map. cbn [fst snd].
  replace (Z.to_nat slices - 1)%nat with (Z.to_nat (slices - 1)) by lia.
  replace (Z.of_nat (Z.to_nat slices) - 1) with (slices - 1) by lia.
  rewrite Z.add_0_l. reflexivity.
Qed.

Lemma avg_simultaneity_is_mean_over_slices_witness :
  (In (Binary64.of_int 0) (map Binary64.start (Binary64.notes Binary64.example_chords)) /\
   forall n, In n (Binary64.notes Binary64.example_chords) ->
             SFltb (Binary64.start n) (Binary64.of_int 0) = false) /\
  (In (Binary64.of_int 7) (map Binary64.end_ (Binary64.notes Binary64.example_chords)) /\
   forall n, In n (Binary64.notes Binary64.example_chords) ->
             SFltb (Binary64.of_int 7) (Binary64.end_ n) = false) /\
  Binary64.linspace (Binary64.of_int 0) (Binary64.of_int 7) 8 =
    Ok (map (Binary64.sample_point (Binary64.of_int 0) (Binary64.of_int 7) 8)
            (seq 0 (Z.to_nat 8))) /\
  Binary64.sample_point (Binary64.of_int 0) (Binary64.of_int 7) 8 (Z.to_nat (8 - 1)) =
    Binary64.of_int 7 /\
  Binary64.avg_simultaneity Binary64.example_chords 8 =
    Ok (Binary64.fdiv
          (Binary64.of_int
             (Binary64.slice_count_sum (Binary64.notes Binary64.example_chords)
                (Binary64.of_int 0) (Binary64.of_int 7) 8))
          (Binary64.of_int (8 - 1))).
Proof.
  apply (avg_simultaneity_is_mean_over_slices Binary64.example_chords 8
           (Binary64.of_int 0) (Binary64.of_int 7)).
  - reflexivity.
  - reflexivity.
  - reflexivity.
  - lia.
  - vm_compute. reflexivity.
Defined.

(** C9, counterexample.  The long note spans the 512 sample points
    0, 1, ..., 511; the short one, from 0.25 to 0.75, lies inside the
    first slice and contains no sample point.  The program counts it in
    the first slice and returns the float of 512/511, while the mean over
    the sample points of the number of notes containing the point is 1. *)
Lemma slice_mean_is_not_point_mean :
  Binary64.avg_simultaneity Binary64.two_note_track default_slices =
    Ok (Binary64.fdiv (Binary64.of_int 512) (Binary64.of_int 511)) /\
  Binary64.spec_avg_simultaneity Binary64.two_note_track default_slices =
    Binary64.of_int 1 /\
  SFeqb (Binary64.fdiv (Binary64.of_int 512) (Binary64.of_int 511)) (Binary64.of_int 1)
    = false.
Proof.
  split; [vm_compute; reflexivity|]. split; vm_compute; reflexivity.
Qed.

(** The sample points are rounded: of the 512 points from 0 to 1 the
    second is the float nearest to 1/511, which is below 1/511.  A note
    that starts there does not overlap the first slice in the program,
    and the track scores 1021/511 where exact sample points would give
    1022/511. *)
Example avg_simultaneity_rounded_points :
  let p1 := Binary64.fdiv (Binary64.of_int 1) (Binary64.of_int 511) in
  let inst := Binary64.mkInstrument 0 "Piano"
                [Binary64.mkNote 80 60 (Binary64.of_int 0) (Binary64.of_int 1);
                 Binary64.mkNote 80 64 p1 (Binary64.of_int 1)] in
  Binary64.sample_point (Binary64.of_int 0) (Binary64.of_int 1) 512 1 = p1 /\
  Binary64.avg_simultaneity inst default_slices =
    Ok (Binary64.fdiv (Binary64.of_int 1021) (Binary64.of_int 511)).
Proof. split; vm_compute; reflexivity. Qed.

(** ** Beat Grid Builder *)














(** A grid in 2/2: the density is 2 and every beat is halved; and the
    halves of the beat from 0.1 to 0.4 meet at 0.25, the rounded value,
    not at the exact midpoint of the two floats. *)
Example binary64_beat_grid_cut_time :
  Binary64.beat_grid
    (Binary64.mkPrettyMIDI [Binary64.example_chords]
       [Binary64.mkTimeSignature 2 2 Binary64.zero]
       (map Binary64.of_int [0; 1; 3]) [Binary64.zero])
    Binary64.example_chords =
  Ok [Binary64.of_int 0; Binary64.half; Binary64.of_int 1; Binary64.of_int 2;
      Binary64.of_int 3] /\
  Binary64.subdivide
    [S754_finite false 7205759403792794 (-56); S754_finite false 7205759403792794 (-54)] 2 =
  Ok [S754_finite false 7205759403792794 (-56); S754_finite false 4503599627370496 (-54);
      S754_finite false 7205759403792794 (-54)].
Proof. split; vm_compute; reflexivity. Qed.

(** ** Track Emitter *)

(** A beat of the walk in binary64 is the beat of the walk above, the
    note taking its times from the window. *)
Lemma walk_beat_retimed w t0 t1 pcs :
  Binary64.walk_beat w t0 t1 pcs =
  match walk_beat w 0 0 pcs with
  | Ok (w', ns) =>
      Ok (w', map (fun n => Binary64.mkNote (velocity n) (pitch n) t0
                              (Binary64.fadd t0
                                 (Binary64.fmul (Binary64.fsub t1 t0) Binary64.f0_98))) ns)
  | Raise e => Raise e
  end.
Proof.
  unfold Binary64.walk_beat, walk_beat.
  destruct (held_pcset pcs w) as [pcs_tuple|]; [|reflexivity].
  unfold Binary64.emit, emit.
  destruct (py_getitem (order (observe pcs_tuple w)) (idx (observe pcs_tuple w)));
    reflexivity.
Qed.

(** A beat that starts from a sound walk emits the note of its window and
    leaves a sound walk with an active chord. *)
Lemma binary64_walk_beat_ok w t0 t1 pcs :
  walk_ok w ->
  exists w' ns,
    Binary64.walk_beat w t0 t1 pcs = Ok (w', ns) /\ walk_ok w' /\
    match held_pcset pcs w with
    | None => w' = w /\ ns = []
    | Some _ =>
        prev_pcset w' <> None /\
        exists n, ns = [n] /\ Binary64.emitted_for n (t0, t1)
    end.
Proof.
  intro Hw. rewrite walk_beat_retimed.
  destruct (walk_beat_ok w 0 0 pcs Hw) as (w' & ns & -> & Hw' & Hm).
  exists w'. eexists. split; [reflexivity|]. split; [exact Hw'|].
  destruct (held_pcset pcs w) as [t|].
  - cbv zeta in Hm. destruct Hm as (_ & _ & _ & Hp & _ & pc & _ & _ & -> & _).
    split; [congruence|]. eexists. split; [reflexivity|].
    unfold Binary64.emitted_for. cbn.
    split; [reflexivity|]. split; [reflexivity|]. split; [reflexivity|].
    apply pc_to_midi_near_bounds.
  - destruct Hm as (-> & ->). split; reflexivity.
Qed.

Lemma binary64_walk_loop_active chords_inst wins : forall w bass,
  walk_ok w -> prev_pcset w <> None ->
  exists w' new,
    Binary64.walk_loop chords_inst w bass wins = Ok (w', bass ++ new) /\
    Forall2 Binary64.emitted_for new wins.
Proof.
  induction wins as [|win wins IH]; intros w bass Hw Hp.
  - exists w, []. simpl. rewrite app_nil_r. split; [reflexivity | constructor].
  - destruct (binary64_walk_beat_ok w (fst win) (snd win)
                (Binary64.window_pcs chords_inst win) Hw)
      as (w1 & ns & Hb & Hw1 & Hm).
    destruct (held_pcset (Binary64.window_pcs chords_inst win) w) as [t|] eqn:Eh.
    + destruct Hm as (Hp1 & n & -> & Hn).
      destruct (IH w1 (bass ++ [n]) Hw1 Hp1) as (w' & new & Hl & Hf).
      exists w', (n :: new). split.
      * cbn [Binary64.walk_loop]. rewrite Hb. cbn [bind fst snd].
        rewrite Hl, <- app_assoc. reflexivity.
      * constructor; [|exact Hf]. destruct win. exact Hn.
    + apply held_pcset_None in Eh. destruct Eh as (_ & Eh). contradiction.
Qed.

Lemma binary64_walk_loop_emits chords_inst wins : forall w bass,
  walk_ok w -> prev_pcset w = None ->
  exists w' new,
    Binary64.walk_loop chords_inst w bass wins = Ok (w', bass ++ new) /\
    Forall2 Binary64.emitted_for new (Binary64.drop_silent chords_inst wins).
Proof.
  induction wins as [|win wins IH]; intros w bass Hw Hp.
  - exists w, []. simpl. rewrite app_nil_r. split; [reflexivity | constructor].
  - cbn [Binary64.drop_silent].
    destruct (Binary64.window_pcs chords_inst win) as [|p pcs] eqn:Epcs.
    + destruct (IH w bass Hw Hp) as (w' & new & Hl & Hf).
      exists w', new. split; [|exact Hf].
      cbn [Binary64.walk_loop]. rewrite Epcs.
      unfold Binary64.walk_beat, held_pcset. rewrite Hp. cbn [bind fst snd].
      rewrite app_nil_r. exact Hl.
    + destruct (binary64_walk_beat_ok w (fst win) (snd win) (p :: pcs) Hw)
        as (w1 & ns & Hb & Hw1 & Hm).
      cbn [held_pcset] in Hm. destruct Hm as (Hp1 & n & -> & Hn).
      destruct (binary64_walk_loop_active chords_inst wins w1 (bass ++ [n]) Hw1 Hp1)
        as (w' & new & Hl & Hf).
      exists w', (n :: new). split.
      * cbn [Binary64.walk_loop]. rewrite Epcs, Hb. cbn [bind fst snd].
        rewrite Hl, <- app_assoc. reflexivity.
      * constructor; [|exact Hf]. destruct win. exact Hn.
Qed.

Lemma binary64_scale_notes_shape ns scale : forall ns',
  Binary64.scale_notes ns scale = Ok ns' ->
  map Binary64.note_shape ns' = map Binary64.note_shape ns.
Proof.
  induction ns as [|n ns IH]; intros ns' H; simpl in H.
  - injection H as <-. reflexivity.
  - destruct (scaled_velocity (Binary64.velocity n) scale) as [v|]; simpl in H; [|discriminate].
    destruct (Binary64.scale_notes ns scale) as [ns''|]; simpl in H; [|discriminate].
    injection H as <-. simpl. rewrite (IH ns'' eq_refl). reflexivity.
Qed.

Lemma binary64_scale_instrument_velocity_shape inst scale inst' :
  Binary64.scale_instrument_velocity inst scale = Ok inst' ->
  Binary64.program inst' = Binary64.program inst /\
  Binary64.name inst' = Binary64.name inst /\
  map Binary64.note_shape (Binary64.notes inst') =
  map Binary64.note_shape (Binary64.notes inst).
Proof.
  unfold Binary64.scale_instrument_velocity. intro H.
  destruct (Binary64.scale_notes (Binary64.notes inst) scale) as [ns|] eqn:E;
    simpl in H; [|discriminate].
  injection H as <-. simpl. repeat split. apply binary64_scale_notes_shape in E. exact E.
Qed.

Lemma binary64_find_from_nth p l : forall i c inst,
  Binary64.find_from p l i = Some (c, inst) ->
  (i <= c)%nat /\ nth_error l (c - i) = Some inst.
Proof.
  induction l as [|x l IH]; intros i c inst H; simpl in H; [discriminate|].
  destruct (p x).
  - injection H as <- <-. rewrite Nat.sub_diag. split; [lia | reflexivity].
  - destruct (IH _ _ _ H) as (Hle & Hn).
    replace (c - i)%nat with (S (c - S i)) by lia. split; [lia | exact Hn].
Qed.

Lemma binary64_most_polyphonic_from_nth l : forall i best best_score c inst,
  Binary64.most_polyphonic_from l i best best_score = Ok (Some (c, inst)) ->
  best = Some (c, inst) \/ ((i <= c)%nat /\ nth_error l (c - i) = Some inst).
Proof.
  induction l as [|x l IH]; intros i best best_score c inst H; simpl in H.
  - left. congruence.
  - destruct (Binary64.avg_simultaneity x default_slices) as [score|]; cbn [bind] in H;
      [|discriminate].
    destruct (SFltb best_score score && Binary64.has_notes x).
    + destruct (IH _ _ _ _ _ H) as [Hb|(Hle & Hn)].
      * injection Hb as <- <-. right. rewrite Nat.sub_diag. split; [lia | reflexivity].
      * right. replace (c - i)%nat with (S (c - S i)) by lia. split; [lia | exact Hn].
    + destruct (IH _ _ _ _ _ H) as [Hb|(Hle & Hn)].
      * left. exact Hb.
      * right. replace (c - i)%nat with (S (c - S i)) by lia. split; [lia | exact Hn].
Qed.

Lemma binary64_find_chords_inst_nth insts chord_instr_name_prefix c inst :
  Binary64.find_chords_inst insts chord_instr_name_prefix = Ok (Some (c, inst)) ->
  nth_error insts c = Some inst.
Proof.
  unfold Binary64.find_chords_inst. intro H.
  destruct (Binary64.find_from (Binary64.name_has_prefix _) insts 0) as [[c1 i1]|] eqn:E1.
  - injection H as <- <-. apply binary64_find_from_nth in E1.
    rewrite Nat.sub_0_r in E1. tauto.
  - destruct (Binary64.find_from Binary64.name_mentions_chords insts 0) as [[c2 i2]|] eqn:E2.
    + injection H as <- <-. apply binary64_find_from_nth in E2.
      rewrite Nat.sub_0_r in E2. tauto.
    + apply binary64_most_polyphonic_from_nth in H.
      destruct H as [H|(_ & H)]; [discriminate|].
      rewrite Nat.sub_0_r in H. exact H.
Qed.

(** C8.  Whatever the search for the harmony track returns, the outcome
    of [add_bassline] is this.  Without a harmony track, or with one that
    has no notes, the score is returned as it is.  With a harmony track
    [chords_inst] that has notes, found at position [c], once its
    velocities are rescaled and the grid is built the score is returned
    with exactly one more track at the end: program 33, and one note for
    each window of the grid from the first sounding one on, in beat order,
    of velocity 85, starting at the window start [t0] and ending at the
    binary64 value of t0 + (t1 - t0) * 0.98, each operation rounded.  The
    instruments before the new one are those of the input with their
    notes' pitches and times as they were; only the harmony track itself
    was replaced, by the result of [scale_instrument_velocity] that ran
    before the walk. *)
Theorem bass_track_is_appended
    (pm : Binary64.PrettyMIDI) (chord_instr_name_prefix : string)
    (found : option (nat * Binary64.Instrument)) :
  Binary64.find_chords_inst (Binary64.instruments pm) chord_instr_name_prefix = Ok found ->
  match found with
  | None => Binary64.add_bassline pm chord_instr_name_prefix = Ok pm
  | Some (c, chords_inst) =>
      nth_error (Binary64.instruments pm) c = Some chords_inst /\
      (Binary64.notes chords_inst = [] ->
       Binary64.add_bassline pm chord_instr_name_prefix = Ok pm) /\
      (Binary64.notes chords_inst <> [] ->
       forall scaled beats,
         Binary64.scale_instrument_velocity chords_inst CHORD_VEL_SCALE = Ok scaled ->
         Binary64.beat_grid pm scaled = Ok beats ->
         exists bass_notes pm',
           Binary64.add_bassline pm chord_instr_name_prefix = Ok pm' /\
           pm' = Binary64.with_instruments pm
                   (replace_nth (Binary64.instruments pm) c scaled ++
                    [Binary64.mkInstrument BASS_PROGRAM bass_name bass_notes]) /\
           length (Binary64.instruments pm') = S (length (Binary64.instruments pm)) /\
           BASS_PROGRAM = 33 /\ VEL = 85 /\
           Forall2 Binary64.emitted_for bass_notes
                   (Binary64.drop_silent scaled (Binary64.windows beats)) /\
           (forall i inst,
              nth_error (Binary64.instruments pm) i = Some inst ->
              exists inst',
                nth_error (Binary64.instruments pm') i = Some inst' /\
                Binary64.program inst' = Binary64.program inst /\
                Binary64.name inst' = Binary64.name inst /\
                map Binary64.note_shape (Binary64.notes inst') =
                map Binary64.note_shape (Binary64.notes inst) /\
                (i <> c -> inst' = inst)))
  end.
Proof.
  intro Hf. destruct found as [[c chords_inst]|].
  2:{ unfold Binary64.add_bassline. rewrite Hf. reflexivity. }
  pose proof (binary64_find_chords_inst_nth _ _ _ _ Hf) as Hc.
  split; [exact Hc|]. split.
  { intro Hn. unfold Binary64.add_bassline. rewrite Hf. cbn [bind].
    unfold Binary64.has_notes. rewrite Hn. reflexivity. }
  intros Hn scaled beats Hs Hb.
  destruct (binary64_walk_loop_emits scaled (Binary64.windows beats) walk_init []
              walk_init_ok eq_refl) as (w' & bass_notes & Hl & Hem).
  exists bass_notes. eexists. split.
  { unfold Binary64.add_bassline. rewrite Hf. cbn [bind].
    replace (Binary64.has_notes chords_inst) with true
      by (unfold Binary64.has_notes; destruct (Binary64.notes chords_inst); congruence).
    cbn [negb]. rewrite Hs. cbn [bind].
    change (Binary64.beat_grid
              (Binary64.with_instruments pm
                 (replace_nth (Binary64.instruments pm) c scaled)) scaled)
      with (Binary64.beat_grid pm scaled).
    rewrite Hb. cbn [bind]. rewrite Hl. cbn [bind snd app]. reflexivity. }
  split; [reflexivity|].
  split; [simpl; rewrite length_app, replace_nth_length; simpl; lia|].
  split; [reflexivity|]. split; [reflexivity|]. split; [exact Hem|].
  intros i inst Hi. simpl Binary64.instruments.
  assert (Hlt : (i < length (replace_nth (Binary64.instruments pm) c scaled))%nat).
  { rewrite replace_nth_length. apply nth_error_Some. congruence. }
  rewrite (nth_error_app1 _ _ Hlt).
  destruct (Nat.eq_dec i c) as [->|Hne].
  - rewrite (replace_nth_same _ _ _ _ Hc). exists scaled.
    assert (inst = chords_inst) by congruence. subst inst.
    destruct (binary64_scale_instrument_velocity_shape _ _ _ Hs) as (Hp & Hnm & Hshape).
    repeat split; try assumption. intro; congruence.
  - rewrite (replace_nth_other _ c i scaled ltac:(congruence)).
    exists inst. repeat split; try assumption.
Qed.

Lemma bass_track_is_appended_witness :
  nth_error (Binary64.instruments Binary64.example_score) 1 = Some Binary64.example_chords /\
  (Binary64.notes Binary64.example_chords = [] ->
   Binary64.add_bassline Binary64.example_score "Piano, Chords:" = Ok Binary64.example_score) /\
  (Binary64.notes Binary64.example_chords <> [] ->
   forall scaled beats,
     Binary64.scale_instrument_velocity Binary64.example_chords CHORD_VEL_SCALE = Ok scaled ->
     Binary64.beat_grid Binary64.example_score scaled = Ok beats ->
     exists bass_notes pm',
       Binary64.add_bassline Binary64.example_score "Piano, Chords:" = Ok pm' /\
       pm' = Binary64.with_instruments Binary64.example_score
               (replace_nth (Binary64.instruments Binary64.example_score) 1 scaled ++
                [Binary64.mkInstrument BASS_PROGRAM bass_name bass_notes]) /\
       length (Binary64.instruments pm') =
         S (length (Binary64.instruments Binary64.example_score)) /\
       BASS_PROGRAM = 33 /\ VEL = 85 /\
       Forall2 Binary64.emitted_for bass_notes
               (Binary64.drop_silent scaled (Binary64.windows beats)) /\
       (forall i inst,
          nth_error (Binary64.instruments Binary64.example_score) i = Some inst ->
          exists inst',
            nth_error (Binary64.instruments pm') i = Some inst' /\
            Binary64.program inst' = Binary64.program inst /\
            Binary64.name inst' = Binary64.name inst /\
            map Binary64.note_shape (Binary64.notes inst') =
            map Binary64.note_shape (Binary64.notes inst) /\
            (i <> 1%nat -> inst' = inst))).
Proof.
  apply (bass_track_is_appended Binary64.example_score "Piano, Chords:"
           (Some (1%nat, Binary64.example_chords))).
  reflexivity.
Defined.

(** The bass track of the example score: seven notes, one per beat, that
    walk up and down the C major triad and then the D minor triad; the
    first ends at 0.98 and the second at the float nearest to 1.98. *)
Example binary64_bass_of_example_score :
  match Binary64.add_bassline Binary64.example_score "Piano, Chords:" with
  | Ok pm' =>
      map (fun inst => (Binary64.program inst, Binary64.name inst,
                        map Binary64.pitch (Binary64.notes inst)))
          (Binary64.instruments pm') =
      [(0, "Piano, Melody:Voice"%string, [72]);
       (0, "Piano, Chords:Voice"%string, [60; 64; 67; 62; 65; 69]);
       (33, "Walking Bass (auto)"%string, [36; 40; 43; 40; 38; 41; 45])] /\
      map (fun inst => firstn 2 (map (fun n => (Binary64.start n, Binary64.end_ n))
                                     (Binary64.notes inst)))
          (skipn 2 (Binary64.instruments pm')) =
      [[(Binary64.of_int 0, Binary64.f0_98);
        (Binary64.of_int 1, S754_finite false 8917127262193582 (-52))]]
  | Raise _ => False
  end.
Proof. vm_compute. split; reflexivity. Qed.
